(** * Connectivity builders of the [ex-gwt-prudic2004t2] example script

    A shallow embedding of [get_lake_connection_data] and [get_stream_data]
    from [scripts/ex-gwt-prudic2004t2.py], and the properties of the
    records they build.

    Conventions of the embedding.
    - Python and numpy integers are [Z]: the only integer arithmetic of the
      two functions is [x - 1], [x + 1] and [- x] on loop indices and table
      entries, which stays within the 64 bits of a numpy integer unless an
      entry is the least one.
    - Floating-point quantities are exact rationals ([Q]); the quotient of two
      of them is a [float], which adds the IEEE infinities and NaN that numpy
      returns for a division by zero (it warns, it does not raise).  This
      fixes what the loops read, write and raise, and which operations they
      apply.  The values that depend on the rounding of float64 are those of
      the module [F64], the stream function over the kernel's binary64
      numbers.
    - An exception is a value [Raise e] of the [result] type, and every
      indexing operation that Python or numpy checks is checked here. *)

From Stdlib Require Import ZArith QArith Lia Lqa String DecimalString.
From Stdlib Require DecimalPos DecimalZ PrimFloat.
From stdpp Require Import base tactics option list.

Open Scope Z_scope.

(** ** Exceptions *)

Inductive exn : Type :=
| IndexError
| UnboundLocalError
| TypeError.

Inductive result (A : Type) : Type :=
| Ok (a : A)
| Raise (e : exn).
Arguments Ok {A} a.
Arguments Raise {A} e.

Definition rbind {A B} (m : result A) (f : A -> result B) : result B :=
  match m with
  | Ok a => f a
  | Raise e => Raise e
  end.

Notation "'let*' x ':=' m 'in' k" := (rbind m (fun x => k))
  (at level 10, x pattern, m at level 100, k at level 200).

(** [for x in l: s = f(x, s)], stopping at the first exception. *)
Fixpoint foldM {A S} (f : A -> S -> result S) (l : list A) (s : S) : result S :=
  match l with
  | [] => Ok s
  | x :: l' => let* s' := f x s in foldM f l' s'
  end.

(** ** Python sequences *)

(** [range(n)] *)
Definition range (n : Z) : list Z := map Z.of_nat (seq 0 (Z.to_nat n)).

(** [enumerate(l)] *)
Definition enumerate {A} (l : list A) : list (Z * A) :=
  zip (range (Z.of_nat (length l))) l.

(** Index normalisation shared by Python lists and numpy axes: [-n .. -1]
    address the sequence from its end, anything outside [-n .. n-1] is an
    [IndexError]. *)
Definition py_index (n : nat) (i : Z) : option nat :=
  if (0 <=? i) && (i <? Z.of_nat n) then Some (Z.to_nat i)
  else if (- Z.of_nat n <=? i) && (i <? 0) then Some (Z.to_nat (Z.of_nat n + i))
  else None.

(** [l[i]] *)
Definition getitem {A} (l : list A) (i : Z) : result A :=
  match py_index (length l) i with
  | Some k => match l !! k with Some x => Ok x | None => Raise IndexError end
  | None => Raise IndexError
  end.

(** [l[i] = x] *)
Definition setitem {A} (l : list A) (i : Z) (x : A) : result (list A) :=
  match py_index (length l) i with
  | Some k => Ok (<[k:=x]> l)
  | None => Raise IndexError
  end.

(** numpy arrays of rank 2 and 3, row-major, as nested lists; [a[i, j]] and
    [a[k, i, j]] check each axis in turn. *)
Definition array2 := list (list Z).
Definition array3 := list (list (list Z)).

Definition getitem2 (a : array2) (i j : Z) : result Z :=
  let* r := getitem a i in getitem r j.

Definition getitem3 (a : array3) (k i j : Z) : result Z :=
  let* p := getitem a k in getitem2 p i j.

(** The shape [(n, m)] of a rank-2 array. *)
Definition shape2 (n m : Z) (a : array2) : Prop :=
  Z.of_nat (length a) = n /\ Forall (fun r => Z.of_nat (length r) = m) a.

(** ** Lake connections *)

(** The connection types ["horizontal"] and ["vertical"] are compared as
    strings. *)
#[global] Instance string_eq_dec : EqDecision string := String.string_dec.

(** One entry of [lakeconnectiondata]: the list
    [[ilak, nlakecon[ilak], cellid, claktype, lak_leakance, 0.0, 0.0, connlen, connwidth]]. *)
Record lakecon : Type := LakeCon {
  lakeno : Z;
  iconn : Z;
  cellid : Z * Z * Z;
  claktype : string;
  bedleak : Q;
  belev : Q;
  telev : Q;
  connlen : Q;
  connwidth : Q
}.

Section LakeConnections.

(** Module-level names the function reads. *)
Variables (nrow ncol : Z) (delr delc lakebed_leakance : Q).

(** The locals [lakeconnectiondata] and [nlakecon]. *)
Definition lakestate : Type := list lakecon * list Z.

(** The block repeated for each emitted record:
    [h = [ilak, nlakecon[ilak], cell, kind, lak_leakance, 0.0, 0.0, len, wid]],
    [nlakecon[ilak] += 1], [lakeconnectiondata.append(h)]. *)
Definition append_connection (ilak : Z) (cell : Z * Z * Z) (kind : string)
    (len wid : Q) (st : lakestate) : result lakestate :=
  let '(lakeconnectiondata, nlakecon) := st in
  let lak_leakance := lakebed_leakance in
  let* n := getitem nlakecon ilak in
  let h := LakeCon ilak n cell kind lak_leakance 0 0 len wid in
  let* n' := getitem nlakecon ilak in
  let* nlakecon' := setitem nlakecon ilak (n' + 1) in
  Ok (lakeconnectiondata ++ [h], nlakecon').

(** [if guard: if test: <append a horizontal record>] *)
Definition horizontal (guard : bool) (test : result bool) (ilak : Z)
    (cell : Z * Z * Z) (len wid : Q) (st : lakestate) : result lakestate :=
  if guard then
    let* c := test in
    if c then append_connection ilak cell "horizontal" len wid st else Ok st
  else Ok st.

(** [emits r st st']: the state [st'] is [st] after record [r] was appended,
    its connection number read from, and then added to, the counter slot of
    its lake. *)
Definition emits (r : lakecon) (st st' : lakestate) : Prop :=
  exists k n,
    py_index (length st.2) (lakeno r) = Some k /\
    st.2 !! k = Some n /\
    iconn r = n /\
    st' = (st.1 ++ [r], <[k:=n + 1]> st.2).

Inductive emits_list : list lakecon -> lakestate -> lakestate -> Prop :=
| emits_nil st : emits_list [] st st
| emits_cons r rs st st1 st2 :
    emits r st st1 -> emits_list rs st1 st2 -> emits_list (r :: rs) st st2.

(** The fields of a record appended for lake index [ilak]. *)
Definition record_of (ilak : Z) (cell : Z * Z * Z) (kind : string)
    (len wid : Q) (r : lakecon) : Prop :=
  lakeno r = ilak /\ cellid r = cell /\ claktype r = kind /\
  bedleak r = lakebed_leakance /\ belev r = 0%Q /\ telev r = 0%Q /\
  connlen r = len /\ connwidth r = wid.

(** The records of lake [L], in the order they were appended. *)
Definition of_lake (L : Z) (recs : list lakecon) : list lakecon :=
  filter (fun r => lakeno r = L) recs.

(** The loop invariant on the two counters: every record belongs to lake 0
    or 1, and the connection numbers of each lake are [0, 1, ..., c - 1],
    in this order, where [c] is the counter of the lake. *)
Definition counters_ok (st : lakestate) : Prop :=
  length st.2 = 2%nat /\
  Forall (fun r => 0 <= lakeno r < 2) st.1 /\
  forall L, 0 <= L < 2 ->
    exists c, st.2 !! Z.to_nat L = Some c /\ 0 <= c /\
              map iconn (of_lake L st.1) = range c.

Section Scan.
Variables (lakibd : array2) (idomain : array3).

(** [lakibd[i', j'] == 0 and idomain[0, i', j']] (back, right, front) *)
Definition open_neighbor (i' j' : Z) : result bool :=
  let* a := getitem2 lakibd i' j' in
  if a =? 0 then let* d := getitem3 idomain 0 i' j' in Ok (negb (d =? 0))
  else Ok false.

(** [lakibd[i, j - 1] and idomain[0, i, j - 1] == 0] (left) *)
Definition left_neighbor (i' j' : Z) : result bool :=
  let* a := getitem2 lakibd i' j' in
  if negb (a =? 0) then let* d := getitem3 idomain 0 i' j' in Ok (d =? 0)
  else Ok false.

(** Body of the inner loop, for the cell [(i, j)]. *)
Definition visit (i j : Z) (st : lakestate) : result lakestate :=
  let* v := getitem2 lakibd i j in
  if v =? 0 then Ok st
  else
    let ilak := v - 1 in
    (* back *)
    let* st := horizontal (i >? 0) (open_neighbor (i - 1) j)
            ilak (0, i - 1, j) (delc / 2) delr st in
    (* left *)
    let* st := horizontal (j >? 0) (left_neighbor i (j - 1))
            ilak (0, i, j - 1) (delr / 2) delc st in
    (* right *)
    let* st := horizontal (j <? ncol - 1) (open_neighbor i (j + 1))
            ilak (0, i, j + 1) (delr / 2) delc st in
    (* front *)
    let* st := horizontal (i <? nrow - 1) (open_neighbor (i + 1) j)
            ilak (0, i + 1, j) (delc / 2) delr st in
    (* vertical *)
    append_connection ilak (1, i, j) "vertical" 0 0 st.

(** The four planar faces of a cell, in the order [visit] tests them, with
    the guard, the test, the target cell and the two distance fields that
    the corresponding block of [visit] uses. *)
Inductive face : Type := back | left | right | front.

Definition faces : list face := [back; left; right; front].

Definition neighbor (f : face) (i j : Z) : Z * Z :=
  match f with
  | back => (i - 1, j)
  | left => (i, j - 1)
  | right => (i, j + 1)
  | front => (i + 1, j)
  end.

Definition in_bounds (f : face) (i j : Z) : bool :=
  match f with
  | back => i >? 0
  | left => j >? 0
  | right => j <? ncol - 1
  | front => i <? nrow - 1
  end.

Definition face_test (f : face) (i j : Z) : result bool :=
  match f with
  | left => left_neighbor (neighbor f i j).1 (neighbor f i j).2
  | _ => open_neighbor (neighbor f i j).1 (neighbor f i j).2
  end.

Definition face_cell (f : face) (i j : Z) : Z * Z * Z :=
  (0, (neighbor f i j).1, (neighbor f i j).2).

Definition face_len (f : face) : Q :=
  match f with back | front => delc / 2 | left | right => delr / 2 end.

Definition face_wid (f : face) : Q :=
  match f with back | front => delr | left | right => delc end.

(** The block of face [f] appends a record. *)
Definition face_emitted (i j : Z) (f : face) : bool :=
  in_bounds f i j &&
  match face_test f i j with Ok c => c | Raise _ => false end.

(** [r] is the horizontal record of face [f] of the cell [(i, j)]. *)
Definition horizontal_of (ilak i j : Z) (f : face) (r : lakecon) : Prop :=
  record_of ilak (face_cell f i j) "horizontal" (face_len f) (face_wid f) r.

(** [r] is the vertical record of the cell [(i, j)]. *)
Definition vertical_of (ilak i j : Z) (r : lakecon) : Prop :=
  record_of ilak (1, i, j) "vertical" 0 0 r.

(** The cell [(i, j)] holds a nonzero value. *)
Definition lake_cell (i j : Z) : bool :=
  match getitem2 lakibd i j with Ok v => negb (v =? 0) | Raise _ => false end.

(** The lake cells, in the order the two loops reach them. *)
Definition lake_cells : list (Z * Z) :=
  flat_map (fun i =>
    flat_map (fun j => if lake_cell i j then [(i, j)] else []) (range ncol))
    (range nrow).

(** [g] is what a visit of the lake cell [c] appends: the horizontal
    records of its emitted faces, in the order of [faces], then its
    vertical record. *)
Definition cell_group (c : Z * Z) (g : list lakecon) : Prop :=
  exists v hs vr,
    getitem2 lakibd c.1 c.2 = Ok v /\ v <> 0 /\
    g = hs ++ [vr] /\
    Forall2 (horizontal_of (v - 1) c.1 c.2)
            (filter (fun f => face_emitted c.1 c.2 f = true) faces) hs /\
    vertical_of (v - 1) c.1 c.2 vr.

(** The target cell, the kind and the two distance fields of a record
    appended while the scan visits the cell [(i, j)]. *)
Definition geometry_of (i j : Z) (r : lakecon) : Prop :=
  (* back *)
  (cellid r = (0, i - 1, j) /\ claktype r = "horizontal"%string /\
   connlen r = (delc / 2)%Q /\ connwidth r = delr) \/
  (* left *)
  (cellid r = (0, i, j - 1) /\ claktype r = "horizontal"%string /\
   connlen r = (delr / 2)%Q /\ connwidth r = delc) \/
  (* right *)
  (cellid r = (0, i, j + 1) /\ claktype r = "horizontal"%string /\
   connlen r = (delr / 2)%Q /\ connwidth r = delc) \/
  (* front *)
  (cellid r = (0, i + 1, j) /\ claktype r = "horizontal"%string /\
   connlen r = (delc / 2)%Q /\ connwidth r = delr) \/
  (* vertical *)
  (cellid r = (1, i, j) /\ claktype r = "vertical"%string /\
   connlen r = 0%Q /\ connwidth r = 0%Q).

Definition get_lake_connection_data : result lakestate :=
  foldM (fun i => foldM (fun j => visit i j) (range ncol)) (range nrow)
        ([], [0; 0]).

End Scan.
End LakeConnections.


(** ** Quotients of floating-point numbers *)

(** The value of a numpy [float64] expression that contains a division:
    a number, a signed infinity, or NaN.  Zero is taken as [+0.0].  A finite
    value is the exact rational result: the operations below do not round,
    overflow or underflow (those of [F64] do). *)
Inductive float : Type :=
| Finite (q : Q)
| Infinity (negative : bool)
| NaN.

Definition Qneg_b (q : Q) : bool :=
  match (q ?= 0)%Q with Lt => true | _ => false end.

Definition Qzero_b (q : Q) : bool :=
  match (q ?= 0)%Q with Eq => true | _ => false end.

Definition fdiv (x y : float) : float :=
  match x, y with
  | NaN, _ | _, NaN => NaN
  | Finite a, Finite b =>
      if Qzero_b b then (if Qzero_b a then NaN else Infinity (Qneg_b a))
      else Finite (a / b)
  | Finite _, Infinity _ => Finite 0
  | Infinity s, Finite b => Infinity (xorb s (Qneg_b b))
  | Infinity _, Infinity _ => NaN
  end.

Definition fmul (x y : float) : float :=
  match x, y with
  | NaN, _ | _, NaN => NaN
  | Finite a, Finite b => Finite (a * b)
  | Finite a, Infinity s | Infinity s, Finite a =>
      if Qzero_b a then NaN else Infinity (xorb s (Qneg_b a))
  | Infinity s, Infinity s' => Infinity (xorb s s')
  end.

Definition fsub (x y : float) : float :=
  match x, y with
  | NaN, _ | _, NaN => NaN
  | Finite a, Finite b => Finite (a - b)
  | Finite _, Infinity s => Infinity (negb s)
  | Infinity s, Finite _ => Infinity s
  | Infinity s, Infinity s' => if Bool.eqb s s' then NaN else Infinity s
  end.

(** [a.sum()] *)
Definition qsum (l : list Q) : Q := fold_right Qplus 0%Q l.

(** ** Table of model parameters *)

Module Params.
Definition lakebed_leakance : Q := 1.
Definition streambed_k : Q := 100.
Definition streambed_thick : Q := 1.
Definition stream_width : Q := 5.
Definition manning : Q := 0.03.
Definition nlay : Z := 8.
Definition nrow : Z := 36.
Definition ncol : Z := 23.
Definition delr : Q := 405.665.
Definition delc : Q := 403.717.
End Params.

(** ** The lake function as the script runs it *)

Module Script.

Definition get_lake_connection_data (lakibd : array2) (idomain : array3) :
    result lakestate :=
  get_lake_connection_data Params.nrow Params.ncol Params.delr Params.delc
                           Params.lakebed_leakance lakibd idomain.

(** A grid of the script's shape holding [v] everywhere, and the same for
    the eight layers of [idomain]. *)
Definition full2 (v : Z) : array2 :=
  replicate (Z.to_nat Params.nrow) (replicate (Z.to_nat Params.ncol) v).

Definition full3 (v : Z) : array3 := replicate (Z.to_nat Params.nlay) (full2 v).

(** [a[i, j] = v] on a copy of [a], for [i] and [j] in range. *)
Definition with_cell (i j : nat) (v : Z) (a : array2) : array2 :=
  alter (fun r => <[j:=v]> r) i a.

(** One lake cell, at row 1 and column 1, in an otherwise dry grid. *)
Definition lone_lake : array2 := with_cell 1 1 1 (full2 0).

(** Two lake cells side by side, at row 1 and columns 1 and 2. *)
Definition twin_lake : array2 := with_cell 1 2 1 (with_cell 1 1 1 (full2 0)).

End Script.

(** The grid [[0, 1], [1, 1]] with every cell of both layers active. *)
Definition corner_lake : array2 := [[0; 1]; [1; 1]].
Definition corner_idomain : array3 := [[[1; 1]; [1; 1]]; [[1; 1]; [1; 1]]].

(** ** Stream reaches *)

(** A row of [stream.csv] as [np.genfromtxt] returns it, with the columns
    [get_stream_data] reads: four of the five integer columns, and the
    floating-point column. *)
Module Row.
Record t : Type := mk {
  seg : Z;
  layer : Z;
  row : Z;
  col : Z;
  length : Q
}.
End Row.

(** One entry of [packagedata]:
    [(ireach, (k, i, j), length, stream_width, rgrd, rtp, streambed_thick,
      streambed_k, manning, len(connectiondata[ireach]) - 1, ustrf, ndv, boundname)]. *)
Record reach : Type := Reach {
  rno : Z;
  rcellid : Z * Z * Z;
  rlen : Q;
  rwid : Q;
  rgrd : float;
  rtp : float;
  rbth : Q;
  rhk : Q;
  man : Q;
  ncon : Z;
  ustrf : Q;
  ndv : Z;
  boundname : string
}.

(** [streamdata["length"]] and [streamdata["seg"]] *)
Definition lengths (streamdata : list Row.t) : list Q := map Row.length streamdata.
Definition segs (streamdata : list Row.t) : list Z := map Row.seg streamdata.

(** [connectiondata[i].append(x)] *)
Definition append_at (connectiondata : list (list Z)) (i x : Z) :
    result (list (list Z)) :=
  let* l := getitem connectiondata i in
  setitem connectiondata i (l ++ [x]).

(** Locals of the first loop of [get_stream_data]; [distance] is unbound
    ([None]) until its first assignment. *)
Record pass_state : Type := PassState {
  connectiondata : list (list Z);
  isegold : Z;
  distance : option Q;
  distance_along_segment : list Q
}.

(** Body of the first loop. *)
Definition pass_step (streamdata : list Row.t) (x : Z * Row.t)
    (st : pass_state) : result pass_state :=
  let '(ireach, row) := x in
  let iseg := Row.seg row - 1 in
  let* (cd, d) :=
    (if iseg =? isegold st then
       let* cd := append_at (connectiondata st) ireach (ireach - 1) in
       let* cd := append_at cd (ireach - 1) (- ireach) in
       match distance st with
       | None => Raise UnboundLocalError
       | Some d =>
           let* a := getitem (lengths streamdata) (ireach - 1) in
           let* b := getitem (lengths streamdata) ireach in
           Ok (cd, (d + (a * 0.5 + b * 0.5))%Q)
       end
     else
       let* b := getitem (lengths streamdata) ireach in
       Ok (connectiondata st, (0.5 * b)%Q)) in
  Ok {| connectiondata := cd;
        isegold := iseg;
        distance := Some d;
        distance_along_segment := distance_along_segment st ++ [d] |}.

(** The first loop: automatic connections and distances along the segments. *)
Definition connectivity_pass (streamdata : list Row.t) : result pass_state :=
  foldM (pass_step streamdata) (enumerate streamdata)
    {| connectiondata := map (fun ireach => [ireach])
                             (range (Z.of_nat (length streamdata)));
       isegold := -1;
       distance := None;
       distance_along_segment := [] |}.

(** [connectiondata[17].append(-31)] and the three statements after it. *)
Definition extra_connections (connectiondata : list (list Z)) :
    result (list (list Z)) :=
  let* cd := append_at connectiondata 17 (-31) in
  let* cd := append_at cd 31 17 in
  let* cd := append_at cd 30 (-31) in
  append_at cd 31 30.

(** [streamdata["length"][np.where(streamdata["seg"] == iseg)].sum()] *)
Definition segment_length (streamdata : list Row.t) (iseg : Z) : Q :=
  qsum (lengths (filter (fun r => Row.seg r = iseg) streamdata)).

Definition emaxmin : list (Q * Q) :=
  [(49, 45); (44.5, 34); (41.5, 34.0); (34.0, 27.2)]%Q.

(** ["SEG{}".format(n)] *)
Definition format_SEG (n : Z) : string :=
  ("SEG" ++ NilZero.string_of_int (Z.to_int n))%string.

(** Body of the last loop, which builds the record of reach [ireach]. *)
Definition package_step (segment_lengths : list Q) (segment_gradients : list float)
    (connectiondata : list (list Z)) (distance_along_segment : list Q)
    (x : Z * Row.t) (packagedata : list reach) : result (list reach) :=
  let '(ireach, row) := x in
  let '(k, i, j) := (Row.layer row - 1, Row.row row - 1, Row.col row - 1) in
  let length := Row.length row in
  let iseg := Row.seg row - 1 in
  let* rgrd := getitem segment_gradients iseg in
  let* (emax, emin) := getitem emaxmin iseg in
  let* d := getitem distance_along_segment ireach in
  let* l := getitem segment_lengths iseg in
  let rtp := fmul (fdiv (Finite d) (Finite l)) (Finite (emax - emin)) in
  let rtp := fsub (Finite emax) rtp in
  let boundname := format_SEG (iseg + 1) in
  let* c := getitem connectiondata ireach in
  let rec :=
    Reach ireach (k, i, j) length Params.stream_width rgrd rtp
          Params.streambed_thick Params.streambed_k Params.manning
          (Z.of_nat (List.length c) - 1) 1 0 boundname in
  Ok (packagedata ++ [rec]).

(** [streamdata.shape[0]] for the array that [np.genfromtxt] returns: a file
    with a single data row gives a 0-d array, whose shape is the empty tuple,
    and the index 0 raises [IndexError]. *)
Definition shape0 (streamdata : list Row.t) : result Z :=
  match streamdata with
  | [_] => Raise IndexError
  | _ => Ok (Z.of_nat (length streamdata))
  end.

(** The function.  Its first statement after the file is read takes
    [streamdata.shape[0]]; the first loop, [connectivity_pass], starts from
    the list [[[0], [1], ...]] of that many entries. *)
Definition get_stream_data (streamdata : list Row.t) :
    result (list reach * list (list Z)) :=
  let* nreaches := shape0 streamdata in
  let* st := connectivity_pass streamdata in
  let distance_along_segment := distance_along_segment st in
  (* add a few additional connections *)
  let* connectiondata := extra_connections (connectiondata st) in
  let segment_lengths := map (segment_length streamdata) [1; 2; 3; 4] in
  let* segment_gradients :=
    foldM (fun '(iseg, (emax, emin)) segment_gradients =>
             let* l := getitem segment_lengths iseg in
             Ok (segment_gradients ++ [fdiv (Finite (emax - emin)) (Finite l)]))
          (enumerate emaxmin) [] in
  let* packagedata :=
    foldM (package_step segment_lengths segment_gradients connectiondata
                        distance_along_segment)
          (enumerate streamdata) [] in
  Ok (packagedata, connectiondata).


(** ** Closed forms of the first loop *)

(** Reaches [k'] and [k] of the table have the same segment id. *)
Definition same_segment (streamdata : list Row.t) (k' k : nat) : bool :=
  match streamdata !! k', streamdata !! k with
  | Some a, Some b => Row.seg a =? Row.seg b
  | _, _ => false
  end.

(** Reach [k] continues the segment of the reach before it. *)
Definition continues (streamdata : list Row.t) (k : nat) : bool :=
  match k with
  | O => false
  | S k' => same_segment streamdata k' k
  end.

Definition len_at (streamdata : list Row.t) (k : nat) : Q :=
  default 0%Q (Row.length <$> streamdata !! k).

(** [connectiondata[m]] once the first [done] reaches have been processed:
    the reach itself, then its upstream neighbor, then its downstream
    neighbor. *)
Definition conn (streamdata : list Row.t) (done m : nat) : list Z :=
  [Z.of_nat m]
  ++ (if continues streamdata m && (m <? done)%nat then [Z.of_nat m - 1] else [])
  ++ (if continues streamdata (S m) && (S m <? done)%nat then [- Z.of_nat (S m)] else []).

(** The value of [distance] after reach [k], with the arithmetic of the loop. *)
Fixpoint dist (streamdata : list Row.t) (k : nat) : Q :=
  match k with
  | O => 0.5 * len_at streamdata 0
  | S k' =>
      if continues streamdata k
      then dist streamdata k' + (len_at streamdata k' * 0.5 + len_at streamdata k * 0.5)
      else 0.5 * len_at streamdata k
  end.

Arguments continues : simpl never.
Arguments conn : simpl never.
Arguments dist : simpl never.

(** The locals of the first loop once the first [done] reaches have been
    processed. *)
Definition pass_after (streamdata : list Row.t) (done : nat) : pass_state :=
  {| connectiondata := map (conn streamdata done) (seq 0 (length streamdata));
     isegold := match done with
                | O => -1
                | S k => default 0 (Row.seg <$> streamdata !! k) - 1
                end;
     distance := match done with
                 | O => None
                 | S k => Some (dist streamdata k)
                 end;
     distance_along_segment := map (dist streamdata) (seq 0 done) |}.

(** The segment id of the first reach is not 0, the id whose 0-based index
    is the initial value -1 of [isegold]. *)
Definition first_segment_nonzero (streamdata : list Row.t) : Prop :=
  match streamdata with
  | r :: _ => Row.seg r <> 0
  | [] => True
  end.

(** Each segment's reaches are contiguous: a segment id that differs from
    the next one does not occur again. *)
Fixpoint contiguous (l : list Z) : bool :=
  match l with
  | a :: l' =>
      match l' with
      | b :: _ => ((a =? b) || negb (bool_decide (a ∈ l'))) && contiguous l'
      | [] => true
      end
  | [] => true
  end.

(** The number of pairs of consecutive equal segment ids. *)
Fixpoint joins (l : list Z) : nat :=
  match l with
  | a :: l' =>
      match l' with
      | b :: _ => (if a =? b then S (joins l') else joins l')
      | [] => O
      end
  | [] => O
  end.

(** The number of segments of a table: the number of distinct segment ids. *)
Definition number_of_segments (streamdata : list Row.t) : nat :=
  length (remove_dups (segs streamdata)).

(** The upstream neighbors of a reach are the non-negative entries after the
    first one of its list, the downstream neighbors are the negative ones. *)
Definition upstream_links (connectiondata : list (list Z)) : nat :=
  length (filter (fun x => 0 <= x) (concat (map (drop 1) connectiondata))).

Definition downstream_links (connectiondata : list (list Z)) : nat :=
  length (filter (fun x => x < 0) (concat (map (drop 1) connectiondata))).

(** ** Geometry of a reach *)

(** [emaxmin[iseg]] for a 0-based segment index in range. *)
Definition segment_bounds (iseg : Z) : Q * Q :=
  default (0, 0)%Q (emaxmin !! Z.to_nat iseg).

(** The bed slope and the channel-top elevation of the record of reach [k],
    whose row is [r], in terms of the closed form of the distance. *)
Definition reach_geometry (streamdata : list Row.t) (k : nat) (r : Row.t)
    (rec : reach) : Prop :=
  let emax := (segment_bounds (Row.seg r - 1)).1 in
  let emin := (segment_bounds (Row.seg r - 1)).2 in
  let l := segment_length streamdata (Row.seg r) in
  rno rec = Z.of_nat k /\
  rlen rec = Row.length r /\
  rgrd rec = fdiv (Finite (emax - emin)) (Finite l) /\
  rtp rec = fsub (Finite emax)
                 (fmul (fdiv (Finite (dist streamdata k)) (Finite l))
                       (Finite (emax - emin))).

(** The total length of the reaches of segment [iseg] among the first [k]
    reaches of the table. *)
Definition length_before (streamdata : list Row.t) (k : nat) (iseg : Z) : Q :=
  segment_length (take k streamdata) iseg.

(** The table has the reaches 17, 30 and 31 that the extra connections
    name, and its segment ids are those of the four declared segments. *)
Definition script_table (streamdata : list Row.t) : Prop :=
  (32 <= length streamdata)%nat /\
  Forall (fun r => 1 <= Row.seg r <= 4) streamdata.

(** ** The lake function over the object store

    The same function with its arguments passed by reference, as Python
    passes them: [lakibd] and [idomain] are addresses of array objects in a
    store that also holds every other object of the caller; the two lists
    the function builds are objects it allocates, and [nlakecon[ilak] += 1]
    and [lakeconnectiondata.append(h)] update them in place. *)

Module Heap.

Inductive obj : Type :=
| Grid (a : array2)            (* a rank-2 integer array *)
| Mask (a : array3)            (* a rank-3 integer array *)
| Ints (l : list Z)            (* a list of integers *)
| Conns (l : list lakecon).    (* a list of connection records *)

(** An address is a position in the store; allocation extends the store. *)
Abbreviation loc := nat.
Abbreviation heap := (list obj).

Definition M (A : Type) : Type := heap -> result A * heap.

Definition ret {A} (a : A) : M A := fun h => (Ok a, h).

Definition bind {A B} (m : M A) (f : A -> M B) : M B :=
  fun h => match m h with
           | (Ok a, h') => f a h'
           | (Raise e, h') => (Raise e, h')
           end.

Notation "'let!' x ':=' m 'in' k" := (bind m (fun x => k))
  (at level 10, x pattern, m at level 100, k at level 200).

Fixpoint forM {A} (f : A -> M unit) (l : list A) : M unit :=
  match l with
  | [] => ret tt
  | x :: l' => let! _ := f x in forM f l'
  end.

Definition new (o : obj) : M loc := fun h => (Ok (length h), h ++ [o]).

(** [a[i, j]] for the array at address [p] *)
Definition grid_at (p : loc) (i j : Z) : M Z :=
  fun h => (match h !! p with
            | Some (Grid a) => getitem2 a i j
            | _ => Raise TypeError
            end, h).

(** [a[k, i, j]] for the array at address [p] *)
Definition mask_at (p : loc) (k i j : Z) : M Z :=
  fun h => (match h !! p with
            | Some (Mask a) => getitem3 a k i j
            | _ => Raise TypeError
            end, h).

(** [l[i]] for the list at address [p] *)
Definition ints_get (p : loc) (i : Z) : M Z :=
  fun h => (match h !! p with
            | Some (Ints l) => getitem l i
            | _ => Raise TypeError
            end, h).

(** [l[i] = v] for the list at address [p] *)
Definition ints_set (p : loc) (i v : Z) : M unit :=
  fun h => match h !! p with
           | Some (Ints l) =>
               match setitem l i v with
               | Ok l' => (Ok tt, <[p:=Ints l']> h)
               | Raise e => (Raise e, h)
               end
           | _ => (Raise TypeError, h)
           end.

(** [l.append(r)] for the list at address [p] *)
Definition conns_append (p : loc) (r : lakecon) : M unit :=
  fun h => match h !! p with
           | Some (Conns l) => (Ok tt, <[p:=Conns (l ++ [r])]> h)
           | _ => (Raise TypeError, h)
           end.

Section Run.
Variables (nrow ncol : Z) (delr delc lakebed_leakance : Q).
Variables (lakibd idomain : loc).
Variables (lakeconnectiondata nlakecon : loc).

Definition append_connection (ilak : Z) (cell : Z * Z * Z) (kind : string)
    (len wid : Q) : M unit :=
  let lak_leakance := lakebed_leakance in
  let! n := ints_get nlakecon ilak in
  let h := LakeCon ilak n cell kind lak_leakance 0 0 len wid in
  let! n' := ints_get nlakecon ilak in
  let! _ := ints_set nlakecon ilak (n' + 1) in
  conns_append lakeconnectiondata h.

Definition horizontal (guard : bool) (test : M bool) (ilak : Z)
    (cell : Z * Z * Z) (len wid : Q) : M unit :=
  if guard then
    let! c := test in
    if c then append_connection ilak cell "horizontal" len wid else ret tt
  else ret tt.

Definition open_neighbor (i' j' : Z) : M bool :=
  let! a := grid_at lakibd i' j' in
  if a =? 0 then let! d := mask_at idomain 0 i' j' in ret (negb (d =? 0))
  else ret false.

Definition left_neighbor (i' j' : Z) : M bool :=
  let! a := grid_at lakibd i' j' in
  if negb (a =? 0) then let! d := mask_at idomain 0 i' j' in ret (d =? 0)
  else ret false.

Definition visit (i j : Z) : M unit :=
  let! v := grid_at lakibd i j in
  if v =? 0 then ret tt
  else
    let ilak := v - 1 in
    (* back *)
    let! _ := horizontal (i >? 0) (open_neighbor (i - 1) j)
         ilak (0, i - 1, j) (delc / 2) delr in
    (* left *)
    let! _ := horizontal (j >? 0) (left_neighbor i (j - 1))
         ilak (0, i, j - 1) (delr / 2) delc in
    (* right *)
    let! _ := horizontal (j <? ncol - 1) (open_neighbor i (j + 1))
         ilak (0, i, j + 1) (delr / 2) delc in
    (* front *)
    let! _ := horizontal (i <? nrow - 1) (open_neighbor (i + 1) j)
         ilak (0, i + 1, j) (delc / 2) delr in
    (* vertical *)
    append_connection ilak (1, i, j) "vertical" 0 0.

Definition scan : M unit :=
  forM (fun i => forM (fun j => visit i j) (range ncol)) (range nrow).

End Run.

(** The function: it allocates its two lists, scans the grid, and returns
    the addresses of the lists. *)
Definition get_lake_connection_data (nrow ncol : Z)
    (delr delc lakebed_leakance : Q) (lakibd idomain : loc) : M (loc * loc) :=
  let! lakeconnectiondata := new (Conns []) in
  let! nlakecon := new (Ints [0; 0]) in
  let! _ := scan nrow ncol delr delc lakebed_leakance lakibd idomain
          lakeconnectiondata nlakecon in
  ret (lakeconnectiondata, nlakecon).

(** The objects a returned pair of addresses denotes. *)
Definition value_of (r : result (loc * loc)) (h : heap) :
    result (option obj * option obj) :=
  match r with
  | Ok (p, q) => Ok (h !! p, h !! q)
  | Raise e => Raise e
  end.

(** The store of the caller, [base], followed by the two lists of the
    function in the state [st]. *)
Definition heap_of (base : heap) (st : lakestate) : heap :=
  base ++ [Conns st.1; Ints st.2].

(** [m] acts on the two lists as [f] does on the state, and on nothing else. *)
Definition simulates (base : heap) (m : M unit)
    (f : lakestate -> result lakestate) : Prop :=
  forall st, exists st',
    m (heap_of base st)
    = (match f st with Ok _ => Ok tt | Raise e => Raise e end, heap_of base st') /\
    (forall st'', f st = Ok st'' -> st' = st'').

End Heap.

(** ** Sample inputs *)

(** What the lake function returns on [corner_lake]. *)
Definition corner_records : list lakecon :=
  [LakeCon 0 0 (1, 0, 1) "vertical" 1 0 0 0 0;
   LakeCon 0 1 (0, 0, 0) "horizontal" 1 0 0 (Params.delc / 2) Params.delr;
   LakeCon 0 2 (1, 1, 0) "vertical" 1 0 0 0 0;
   LakeCon 0 3 (1, 1, 1) "vertical" 1 0 0 0 0].

(** A grid of the script's shape with a cell of a third lake. *)
Definition third_lake : array2 := Script.with_cell 5 7 3 (Script.full2 0).

(** [n] reaches of segment [s], all of length [len], in the cell (1, 1, 1). *)
Definition reaches (n : nat) (s : Z) (len : Q) : list Row.t :=
  replicate n (Row.mk s 1 1 1 len).

(** Three reaches of segment 1 followed by one reach of segment 2. *)
Definition short_table : list Row.t :=
  [Row.mk 1 1 1 1 10; Row.mk 1 1 1 2 20; Row.mk 1 1 1 3 30; Row.mk 2 1 2 3 40].

(** 32 reaches in four segments, all of positive length. *)
Definition wet_table : list Row.t :=
  reaches 8 1 10 ++ reaches 10 2 20 ++ reaches 13 3 10 ++ reaches 1 4 30.

(** The same, the ten reaches of segment 2 having length zero. *)
Definition dry_table : list Row.t :=
  reaches 8 1 10 ++ reaches 10 2 0 ++ reaches 13 3 10 ++ reaches 1 4 30.

(** ** The callers of the lake function *)

(** [lakpackagedata] of [build_mf6gwf]:
    [[[0, 44.0, nlakecon[0], "lake1"], [1, 35.2, nlakecon[1], "lake2"]]]. *)
Definition lakpackagedata (nlakecon : list Z) : result (list (Z * Q * Z * string)) :=
  let* n0 := getitem nlakecon 0 in
  let* n1 := getitem nlakecon 1 in
  Ok [(0, 44.0%Q, n0, "lake1"%string); (1, 35.2%Q, n1, "lake2"%string)].

(** The two counters are non-negative and add up to the number of records. *)
Definition counters_total (st : lakestate) : Prop :=
  exists n0 n1, st.2 = [n0; n1] /\ 0 <= n0 /\ 0 <= n1 /\
                n0 + n1 = Z.of_nat (length st.1).

(** A one-row grid for a scan of two rows. *)
Definition one_row_lake : array2 := [[0; 1]].

(** ** Arrays written in place *)

(** [a[k, i, j]] for a rank-3 array of any element type. *)
Definition item3 {A} (a : list (list (list A))) (k i j : Z) : result A :=
  let* p := getitem a k in
  let* r := getitem p i in
  getitem r j.

(** [a[k, i, j] = x] *)
Definition setitem3 {A} (a : list (list (list A))) (k i j : Z) (x : A) :
    result (list (list (list A))) :=
  let* p := getitem a k in
  let* r := getitem p i in
  let* r' := setitem r j x in
  let* p' := setitem p i r' in
  setitem a k p'.

(** [np.where(a > 0)], as the list of its pairs [i, j]: the positions of the
    positive entries of a rank-2 array, in row-major order. *)
Definition where_positive (a : array2) : list (Z * Z) :=
  flat_map (fun '(i, row) =>
              flat_map (fun '(j, v) => if 0 <? v then [(i, j)] else [])
                       (enumerate row))
           (enumerate a).

(** [i, j = np.where(lakibd > 0)] and [idomain[0, i, j] = 0] of
    [build_mf6gwf], one position at a time. *)
Definition deactivate_lakes (lakibd : array2) (idomain : array3) : result array3 :=
  foldM (fun '(i, j) idomain => setitem3 idomain 0 i j 0)
        (where_positive lakibd) idomain.

(** The loop of [plot_gwf_results] and [plot_gwt_results] that writes the
    stage, or the concentration, of each lake over its cells in layer 0:
    [ilak = lakibd[i, j] - 1], [lake_stage = stage[ilak]],
    [head[0, i, j] = lake_stage]. *)
Definition overlay_step (lakibd : array2) (stage : list Q) (c : Z * Z)
    (head : list (list (list Q))) : result (list (list (list Q))) :=
  let '(i, j) := c in
  let* v := getitem2 lakibd i j in
  let ilak := v - 1 in
  let* lake_stage := getitem stage ilak in
  setitem3 head 0 i j lake_stage.

Definition overlay (lakibd : array2) (stage : list Q)
    (head : list (list (list Q))) : result (list (list (list Q))) :=
  foldM (overlay_step lakibd stage) (where_positive lakibd) head.

(** ** The stream function: lists and records *)

(** [segment_lengths] and [segment_gradients] of [get_stream_data]. *)
Definition segment_lengths (streamdata : list Row.t) : list Q :=
  map (segment_length streamdata) [1; 2; 3; 4].

Definition segment_gradients (streamdata : list Row.t) : list float :=
  map (fun x : Q * Q * Q => fdiv (Finite (x.1.1 - x.1.2)) (Finite x.2))
      (zip emaxmin (segment_lengths streamdata)).

(** What the four extra statements append to [connectiondata[m]]. *)
Definition extras (m : nat) : list Z :=
  if (m =? 17)%nat then [-31]
  else if (m =? 30)%nat then [-31]
  else if (m =? 31)%nat then [17; 30]
  else [].

(** The tables the function accepts: with the reaches the extra connections
    name, a first segment id other than 0, and segment ids from which Python's
    indexing of the four-element lists finds an entry. *)
Definition accepted (streamdata : list Row.t) : Prop :=
  (32 <= length streamdata)%nat /\
  first_segment_nonzero streamdata /\
  Forall (fun r => -3 <= Row.seg r <= 4) streamdata.

(** [rec] is the record of reach [k], of row [r], given the final
    [connectiondata]. *)
Definition record_of_reach (streamdata : list Row.t)
    (connectiondata : list (list Z)) (x : Z * Row.t) (rec : reach) : Prop :=
  let r := x.2 in
  exists (k : nat) (c : list Z) (g : float) (b : Q * Q) (l : Q),
    x.1 = Z.of_nat k /\
    connectiondata !! k = Some c /\
    getitem (segment_gradients streamdata) (Row.seg r - 1) = Ok g /\
    getitem emaxmin (Row.seg r - 1) = Ok b /\
    getitem (segment_lengths streamdata) (Row.seg r - 1) = Ok l /\
    rec = Reach (Z.of_nat k)
                (Row.layer r - 1, Row.row r - 1, Row.col r - 1)
                (Row.length r) Params.stream_width g
                (fsub (Finite b.1)
                      (fmul (fdiv (Finite (dist streamdata k)) (Finite l))
                            (Finite (b.1 - b.2))))
                Params.streambed_thick Params.streambed_k Params.manning
                (Z.of_nat (length c) - 1) 1 0
                (format_SEG (Row.seg r - 1 + 1)).

(** A table in which reaches 30 and 31 belong to one segment. *)
Definition joined_table : list Row.t :=
  reaches 8 1 10 ++ reaches 10 2 20 ++ reaches 14 3 10.

(** ** The transport model: stream reaches and their observations *)

(** ["myreach{}".format(n)] and ["sft{}conc".format(n)] *)
Definition format_myreach (n : Z) : string :=
  ("myreach" ++ NilZero.string_of_int (Z.to_int n))%string.

Definition format_sftconc (n : Z) : string :=
  ("sft" ++ NilZero.string_of_int (Z.to_int n) ++ "conc")%string.

(** [sftpackagedata] of [build_mf6gwt], for [nreach] reaches: the tuples
    [(irno, 0.0, 99.0, 999.0, "myreach{}".format(irno + 1))]. *)
Definition sftpackagedata (nreach : Z) : list (Z * Q * Q * Q * string) :=
  map (fun irno => (irno, 0%Q, 99%Q, 999%Q, format_myreach (irno + 1)))
      (range nreach).

(** The observations of [sft_obs]: the tuples
    [("sft{}conc".format(i + 1), "CONCENTRATION", i + 1)]. *)
Definition sft_obs (nreach : Z) : list (string * string * Z) :=
  map (fun i => (format_sftconc (i + 1), "CONCENTRATION"%string, i + 1))
      (range nreach).

(** ** Sample inputs of the callers *)

(** A grid without a lake. *)
Definition dry_lake : array2 := [[0; 0]; [0; 0]].

(** [corner_idomain] after the lake cells of [corner_lake] were deactivated. *)
Definition corner_deactivated : array3 := [[[1; 0]; [0; 0]]; [[1; 1]; [1; 1]]].

(** The horizontal record of [corner_records]. *)
Definition corner_horizontal : lakecon :=
  LakeCon 0 1 (0, 0, 0) "horizontal" 1 0 0 (Params.delc / 2) Params.delr.

(** One layer of heads over [corner_lake], and the same with a lake stage of
    5 written over the lake cells. *)
Definition corner_head : list (list (list Q)) := [[[1; 2]; [3; 4]]]%Q.
Definition corner_painted : list (list (list Q)) := [[[1; 5]; [5; 5]]]%Q.

(** The observations of [sfr_obs] of [build_mf6gwf]: name, type and the
    bound name observed. *)
Definition sfr_obs : list (string * string * string) :=
  [("reach1leakage", "SFR", "SEG1");
   ("reach2leakage", "SFR", "SEG2");
   ("reach3leakage", "SFR", "SEG3");
   ("reach4leakage", "SFR", "SEG4")]%string.

(** What the lake function returns on [corner_lake] and the deactivated
    mask: the lake cell (1, 1) is linked to the lake cell on its left. *)
Definition corner_relinked : list lakecon :=
  [LakeCon 0 0 (1, 0, 1) "vertical" 1 0 0 0 0;
   LakeCon 0 1 (0, 0, 0) "horizontal" 1 0 0 (Params.delc / 2) Params.delr;
   LakeCon 0 2 (1, 1, 0) "vertical" 1 0 0 0 0;
   LakeCon 0 3 (0, 1, 0) "horizontal" 1 0 0 (Params.delr / 2) Params.delc;
   LakeCon 0 4 (1, 1, 1) "vertical" 1 0 0 0 0].

(** A grid with a cell of value -1, whose lake index -2 addresses the first
    counter from the end. *)
Definition negative_lake : array2 := [[0; -1]; [1; 2]].

(** [wet_table] with the id of its last segment replaced by 0. *)
Definition wrapped_table : list Row.t :=
  reaches 8 1 10 ++ reaches 10 2 20 ++ reaches 12 3 10 ++ reaches 1 4 30
  ++ reaches 1 0 30.

(** ** The stream function in float64 arithmetic *)

(** The model above computes lengths, distances and elevations in exact
    rational arithmetic, which fixes what the loops read and write.  The
    code computes them as numpy [float64]: every operation rounds to the
    nearest binary64 number, overflows to an infinity and divides by zero
    without raising.  This module is the same function with the kernel's
    binary64 numbers, for the properties that depend on the rounding. *)
Module F64.
Import PrimFloat.
#[local] Set Warnings "-inexact-float".

Definition float64 : Set := PrimFloat.float.

Module Row.
Record t : Type := mk {
  seg : Z;
  layer : Z;
  row : Z;
  col : Z;
  length : float64
}.
End Row.

Record reach : Type := Reach {
  rno : Z;
  rcellid : Z * Z * Z;
  rlen : float64;
  rwid : float64;
  rgrd : float64;
  rtp : float64;
  rbth : float64;
  rhk : float64;
  man : float64;
  ncon : Z;
  ustrf : float64;
  ndv : Z;
  boundname : string
}.

(** The stream entries of the table of model parameters. *)
Definition streambed_k : float64 := 100.0%float.
Definition streambed_thick : float64 := 1.0%float.
Definition stream_width : float64 := 5.0%float.
Definition manning : float64 := 0.03%float.

Definition lengths (streamdata : list Row.t) : list float64 :=
  map Row.length streamdata.

(** [streamdata.shape[0]], as in the exact model. *)
Definition shape0 (streamdata : list Row.t) : result Z :=
  match streamdata with
  | [_] => Raise IndexError
  | _ => Ok (Z.of_nat (List.length streamdata))
  end.

Record pass_state : Type := PassState {
  connectiondata : list (list Z);
  isegold : Z;
  distance : option float64;
  distance_along_segment : list float64
}.

(** Body of the first loop. *)
Definition pass_step (streamdata : list Row.t) (x : Z * Row.t)
    (st : pass_state) : result pass_state :=
  let '(ireach, row) := x in
  let iseg := Row.seg row - 1 in
  let* (cd, d) :=
    (if iseg =? isegold st then
       let* cd := append_at (connectiondata st) ireach (ireach - 1) in
       let* cd := append_at cd (ireach - 1) (- ireach) in
       match distance st with
       | None => Raise UnboundLocalError
       | Some d =>
           let* a := getitem (lengths streamdata) (ireach - 1) in
           let* b := getitem (lengths streamdata) ireach in
           Ok (cd, (d + (a * 0.5 + b * 0.5))%float)
       end
     else
       let* b := getitem (lengths streamdata) ireach in
       Ok (connectiondata st, (0.5 * b)%float)) in
  Ok {| connectiondata := cd;
        isegold := iseg;
        distance := Some d;
        distance_along_segment := distance_along_segment st ++ [d] |}.

Definition connectivity_pass (streamdata : list Row.t) : result pass_state :=
  foldM (pass_step streamdata) (enumerate streamdata)
    {| connectiondata := map (fun ireach => [ireach])
                             (range (Z.of_nat (List.length streamdata)));
       isegold := -1;
       distance := None;
       distance_along_segment := [] |}.

(** [a.sum()] of a contiguous float64 array.  numpy adds the array to the
    initial value 0.0 by pairwise summation: fewer than 8 numbers are added
    one after the other; up to 128 numbers are added into 8 accumulators,
    block of 8 after block of 8, the accumulators are combined as a balanced
    tree and the remaining numbers are added one after the other; a longer
    array is split at [n / 2] rounded down to a multiple of 8. *)
Definition combine8 (r : list float64) : float64 :=
  match r with
  | [r0; r1; r2; r3; r4; r5; r6; r7] =>
      (((r0 + r1) + (r2 + r3)) + ((r4 + r5) + (r6 + r7)))%float
  | _ => 0%float
  end.

Fixpoint unrolled (blocks : nat) (r a : list float64) :
    list float64 * list float64 :=
  match blocks with
  | O => (r, a)
  | S blocks' => unrolled blocks' (zip_with PrimFloat.add r (take 8 a)) (drop 8 a)
  end.

Fixpoint pairwise_sum (fuel : nat) (a : list float64) : float64 :=
  let n := List.length a in
  if (n <? 8)%nat then fold_left PrimFloat.add a 0%float
  else if (n <=? 128)%nat then
    let '(r, rest) := unrolled (n / 8 - 1) (take 8 a) (drop 8 a) in
    fold_left PrimFloat.add rest (combine8 r)
  else
    match fuel with
    | O => nan
    | S fuel' =>
        let n2 := (n / 2 - (n / 2) mod 8)%nat in
        (pairwise_sum fuel' (take n2 a) + pairwise_sum fuel' (drop n2 a))%float
    end.

Definition sum (a : list float64) : float64 :=
  (0 + pairwise_sum (List.length a) a)%float.

(** [streamdata["length"][np.where(streamdata["seg"] == iseg)].sum()] *)
Definition segment_length (streamdata : list Row.t) (iseg : Z) : float64 :=
  sum (lengths (filter (fun r => Row.seg r = iseg) streamdata)).

Definition emaxmin : list (float64 * float64) :=
  [(49, 45); (44.5, 34); (41.5, 34.0); (34.0, 27.2)]%float.

(** [emaxmin[iseg]] for a 0-based segment index in range. *)
Definition segment_bounds (iseg : Z) : float64 * float64 :=
  default (0, 0)%float (emaxmin !! Z.to_nat iseg).

(** Body of the last loop. *)
Definition package_step (segment_lengths segment_gradients : list float64)
    (connectiondata : list (list Z)) (distance_along_segment : list float64)
    (x : Z * Row.t) (packagedata : list reach) : result (list reach) :=
  let '(ireach, row) := x in
  let '(k, i, j) := (Row.layer row - 1, Row.row row - 1, Row.col row - 1) in
  let length := Row.length row in
  let iseg := Row.seg row - 1 in
  let* rgrd := getitem segment_gradients iseg in
  let* (emax, emin) := getitem emaxmin iseg in
  let* d := getitem distance_along_segment ireach in
  let* l := getitem segment_lengths iseg in
  let rtp := (d / l * (emax - emin))%float in
  let rtp := (emax - rtp)%float in
  let boundname := format_SEG (iseg + 1) in
  let* c := getitem connectiondata ireach in
  let rec :=
    Reach ireach (k, i, j) length stream_width rgrd rtp
          streambed_thick streambed_k manning
          (Z.of_nat (List.length c) - 1) 1.0%float 0 boundname in
  Ok (packagedata ++ [rec]).

Definition get_stream_data (streamdata : list Row.t) :
    result (list reach * list (list Z)) :=
  let* nreaches := shape0 streamdata in
  let* st := connectivity_pass streamdata in
  let distance_along_segment := distance_along_segment st in
  (* add a few additional connections *)
  let* connectiondata := extra_connections (connectiondata st) in
  let segment_lengths := map (segment_length streamdata) [1; 2; 3; 4] in
  let* segment_gradients :=
    foldM (fun '(iseg, (emax, emin)) segment_gradients =>
             let* l := getitem segment_lengths iseg in
             Ok (segment_gradients ++ [((emax - emin) / l)%float]))
          (enumerate emaxmin) [] in
  let* packagedata :=
    foldM (package_step segment_lengths segment_gradients connectiondata
                        distance_along_segment)
          (enumerate streamdata) [] in
  Ok (packagedata, connectiondata).

(** The tables of the script's kind: long enough for the extra connections,
    segment ids 1 to 4. *)
Definition script_table (streamdata : list Row.t) : Prop :=
  (32 <= List.length streamdata)%nat /\
  Forall (fun r => 1 <= Row.seg r <= 4) streamdata.

(** [n] reaches of segment [s], all of length [len], in the cell (1, 1, 1). *)
Definition reaches (n : nat) (s : Z) (len : float64) : list Row.t :=
  replicate n (Row.mk s 1 1 1 len).


End F64.

(** Linear arithmetic over [Q] with halves written [_ / 2]. *)
Ltac qlra :=
  unfold Qdiv in *; change (/ 2)%Q with (1 # 2)%Q in *; lra.

(** ** Generic facts about the error monad and Python indexing *)

Lemma rbind_Ok {A B} (m : result A) (f : A -> result B) (b : B) :
  rbind m f = Ok b <-> exists a, m = Ok a /\ f a = Ok b.
Proof.
  destruct m as [a|e]; simpl; split.
  - intros H; exists a; auto.
  - intros (a' & [= ->] & H); exact H.
  - discriminate.
  - intros (a' & [=] & _).
Qed.

Lemma foldM_app {A S} (f : A -> S -> result S) (l1 l2 : list A) (s : S) :
  foldM f (l1 ++ l2) s = rbind (foldM f l1 s) (foldM f l2).
Proof.
  revert s; induction l1 as [|x l1 IH]; intros s; simpl; [reflexivity|].
  destruct (f x s) as [s'|e]; simpl; [apply IH | reflexivity].
Qed.

(** A property of the loop state that every iteration keeps is kept by the
    loop. *)
Lemma foldM_invariant {A S} (P : S -> Prop) (f : A -> S -> result S)
    (l : list A) :
  (forall x s s', x ∈ l -> P s -> f x s = Ok s' -> P s') ->
  forall s s', P s -> foldM f l s = Ok s' -> P s'.
Proof.
  induction l as [|x l IH]; intros Hf s s' Hs; simpl.
  - intros [= <-]; exact Hs.
  - intros (s1 & H1 & H2)%rbind_Ok.
    eapply IH; [| |exact H2].
    + intros y t t' Hy; apply Hf; right; exact Hy.
    + eapply Hf; [left|exact Hs|exact H1].
Qed.

Lemma elem_of_range (n x : Z) : x ∈ range n <-> 0 <= x < n.
Proof.
  unfold range. rewrite list_elem_of_fmap. split.
  - intros (k & -> & Hk%elem_of_seq). lia.
  - intros H. exists (Z.to_nat x). split; [lia|]. apply elem_of_seq. lia.
Qed.

Lemma range_succ (n : Z) : 0 <= n -> range (n + 1) = range n ++ [n].
Proof.
  intros H. unfold range.
  replace (Z.to_nat (n + 1)) with (S (Z.to_nat n)) by lia.
  rewrite seq_S, map_app. simpl. rewrite Z2Nat.id by lia. reflexivity.
Qed.

Lemma length_range (n : Z) : length (range n) = Z.to_nat n.
Proof. unfold range. rewrite length_map, length_seq. reflexivity. Qed.

Lemma py_index_lt (n : nat) (i : Z) (k : nat) :
  py_index n i = Some k -> (k < n)%nat.
Proof.
  unfold py_index.
  destruct (0 <=? i) eqn:E1, (i <? Z.of_nat n) eqn:E2; simpl;
    try (intros [= <-]; lia);
    destruct (- Z.of_nat n <=? i) eqn:E3, (i <? 0) eqn:E4; simpl;
    try discriminate; intros [= <-]; lia.
Qed.

Lemma py_index_nonneg (n : nat) (i : Z) :
  0 <= i < Z.of_nat n -> py_index n i = Some (Z.to_nat i).
Proof.
  intros H. unfold py_index.
  destruct (0 <=? i) eqn:E1, (i <? Z.of_nat n) eqn:E2; simpl; try reflexivity; lia.
Qed.

Lemma py_index_None (n : nat) (i : Z) :
  Z.of_nat n <= i -> py_index n i = None.
Proof.
  intros H. unfold py_index.
  destruct (0 <=? i) eqn:E1, (i <? Z.of_nat n) eqn:E2; simpl; try lia;
    destruct (- Z.of_nat n <=? i) eqn:E3, (i <? 0) eqn:E4; simpl; try reflexivity; lia.
Qed.

Lemma getitem_Ok {A} (l : list A) (i : Z) (x : A) :
  getitem l i = Ok x <-> exists k, py_index (length l) i = Some k /\ l !! k = Some x.
Proof.
  unfold getitem. destruct (py_index (length l) i) as [k|].
  - destruct (l !! k) as [y|] eqn:E; split.
    + intros [= ->]; eauto.
    + intros (k' & [= <-] & H). congruence.
    + discriminate.
    + intros (k' & [= <-] & H). congruence.
  - split; [discriminate|]. intros (k & [=] & _).
Qed.

Lemma getitem_nonneg {A} (l : list A) (i : Z) :
  0 <= i < Z.of_nat (length l) ->
  exists x, getitem l i = Ok x /\ l !! Z.to_nat i = Some x.
Proof.
  intros H. unfold getitem. rewrite py_index_nonneg by exact H.
  destruct (lookup_lt_is_Some_2 l (Z.to_nat i)) as [x Hx]; [lia|].
  rewrite Hx. eauto.
Qed.

Lemma getitem_raise {A} (l : list A) (i : Z) (e : exn) :
  getitem l i = Raise e -> e = IndexError.
Proof.
  unfold getitem. destruct (py_index _ _) as [k|]; [destruct (l !! k)|];
    congruence.
Qed.

Lemma setitem_raise {A} (l : list A) (i : Z) (x : A) (e : exn) :
  setitem l i x = Raise e -> e = IndexError.
Proof. unfold setitem. destruct (py_index _ _); congruence. Qed.

Lemma getitem2_raise (a : array2) (i j : Z) (e : exn) :
  getitem2 a i j = Raise e -> e = IndexError.
Proof.
  unfold getitem2. destruct (getitem a i) eqn:E; simpl.
  - apply getitem_raise.
  - intros [= <-]. eapply getitem_raise, E.
Qed.

Lemma getitem3_raise (a : array3) (k i j : Z) (e : exn) :
  getitem3 a k i j = Raise e -> e = IndexError.
Proof.
  unfold getitem3. destruct (getitem a k) eqn:E; simpl.
  - apply getitem2_raise.
  - intros [= <-]. eapply getitem_raise, E.
Qed.

Lemma foldM_groups {A S B C} (proj : S -> list B) (h : A -> list C)
    (R : C -> list B -> Prop) (f : A -> S -> result S) (l : list A) :
  (forall x s s', x ∈ l -> f x s = Ok s' ->
     exists gs, proj s' = proj s ++ concat gs /\ Forall2 R (h x) gs) ->
  forall s s', foldM f l s = Ok s' ->
    exists gs, proj s' = proj s ++ concat gs /\ Forall2 R (flat_map h l) gs.
Proof.
  induction l as [|x l IH]; intros Hf s s'; simpl.
  - intros [= <-]. exists []. simpl. rewrite app_nil_r. split; [reflexivity|constructor].
  - intros (s1 & H1 & H2)%rbind_Ok.
    destruct (Hf x s s1 (list_elem_of_here _ _) H1) as (g1 & E1 & F1).
    destruct (IH (fun y t t' Hy => Hf y t t' (list_elem_of_further _ _ _ Hy)) _ _ H2)
      as (g2 & E2 & F2).
    exists (g1 ++ g2). split.
    + rewrite E2, E1, concat_app, app_assoc. reflexivity.
    + apply Forall2_app; assumption.
Qed.

Lemma foldM_raise_kind {A S} (e : exn) (f : A -> S -> result S) (l : list A) :
  (forall x s e', f x s = Raise e' -> e' = e) ->
  forall s e', foldM f l s = Raise e' -> e' = e.
Proof.
  intros Hf. induction l as [|x l IH]; intros s e'; simpl; [discriminate|].
  destruct (f x s) as [s1|e1] eqn:E; simpl.
  - apply IH.
  - intros [= <-]. eapply Hf, E.
Qed.

(** A loop raises when one of its iterations raises from every state the
    loop can be in, the earlier iterations raising nothing else. *)
Lemma foldM_raises {A S} (P : S -> Prop) (e : exn) (f : A -> S -> result S)
    (l : list A) (x : A) :
  x ∈ l ->
  (forall y s s', P s -> f y s = Ok s' -> P s') ->
  (forall y s e', f y s = Raise e' -> e' = e) ->
  (forall s, P s -> f x s = Raise e) ->
  forall s, P s -> foldM f l s = Raise e.
Proof.
  intros Hx HP He Hfx. induction l as [|y l IH]; intros s Hs.
  - inversion Hx.
  - simpl. destruct (f y s) as [s1|e1] eqn:E; simpl.
    + apply elem_of_cons in Hx as [->|Hin].
      * rewrite Hfx in E by exact Hs. discriminate.
      * apply IH; [exact Hin|]. eapply HP; eassumption.
    + f_equal. eapply He, E.
Qed.

(** A loop returns when each iteration returns from every state the loop can
    be in. *)
Lemma foldM_total {A S} (P : S -> Prop) (f : A -> S -> result S) (l : list A) :
  (forall x s, x ∈ l -> P s -> exists s', f x s = Ok s' /\ P s') ->
  forall s, P s -> exists s', foldM f l s = Ok s' /\ P s'.
Proof.
  induction l as [|x l IH]; intros Hf s Hs; simpl.
  - eauto.
  - destruct (Hf x s (list_elem_of_here _ _) Hs) as (s1 & -> & H1). simpl.
    apply IH; [|exact H1].
    intros y t Hy. apply Hf. right. exact Hy.
Qed.

(** ** Lake connections: what one cell emits *)

Section LakeFacts.
Variables (nrow ncol : Z) (delr delc lakebed_leakance : Q).

Lemma emits_list_app rs1 rs2 st st1 st2 :
  emits_list rs1 st st1 -> emits_list rs2 st1 st2 ->
  emits_list (rs1 ++ rs2) st st2.
Proof.
  induction 1 as [|r rs st st1' st1 He Hl IH]; intros H2; simpl; [exact H2|].
  econstructor; [exact He|]. apply IH, H2.
Qed.

Lemma emits_list_one r st st' : emits r st st' -> emits_list [r] st st'.
Proof. intros H. econstructor; [exact H|constructor]. Qed.

Lemma emits_list_records rs st st' :
  emits_list rs st st' -> st'.1 = st.1 ++ rs.
Proof.
  induction 1 as [|r rs st st1 st2 (k & n & _ & _ & _ & ->) _ IH]; simpl.
  - rewrite app_nil_r. reflexivity.
  - rewrite IH. simpl. rewrite <- app_assoc. reflexivity.
Qed.

Lemma emits_list_invariant (P : lakestate -> Prop) (Q : lakecon -> Prop) :
  (forall r st st', Q r -> P st -> emits r st st' -> P st') ->
  forall rs st st', Forall Q rs -> P st -> emits_list rs st st' -> P st'.
Proof.
  intros HP rs st st' HQ Hst H. induction H as [|r rs st st1 st2 He _ IH].
  - exact Hst.
  - apply Forall_cons in HQ as [Hr HQ].
    apply IH; [exact HQ|]. eapply HP; [exact Hr|exact Hst|exact He].
Qed.

Lemma py_index_nonneg_inv (n : nat) (i : Z) (k : nat) :
  0 <= i -> py_index n i = Some k -> i < Z.of_nat n /\ k = Z.to_nat i.
Proof.
  intros Hi. unfold py_index.
  destruct (0 <=? i) eqn:E1, (i <? Z.of_nat n) eqn:E2; simpl;
    try (intros [= <-]; lia);
    destruct (- Z.of_nat n <=? i) eqn:E3, (i <? 0) eqn:E4; simpl;
    try discriminate; lia.
Qed.

Lemma emits_counters_ok r st st' :
  0 <= lakeno r -> counters_ok st -> emits r st st' -> counters_ok st'.
Proof.
  destruct st as [recs cnt].
  intros Hr (Hlen & Hall & Hc) (k & n & Hk & Hn & Hi & ->). simpl in *.
  rewrite Hlen in Hk.
  apply py_index_nonneg_inv in Hk as [Hlt ->]; [|exact Hr].
  split; [|split]; simpl.
  - rewrite length_insert. exact Hlen.
  - apply Forall_app. split; [exact Hall|]. constructor; [lia|constructor].
  - intros L HL. destruct (Hc L HL) as (c & Hlc & Hc0 & Hmap).
    unfold of_lake in *. rewrite filter_app, map_app, Hmap.
    destruct (Z.eq_dec (lakeno r) L) as [<-|Hne].
    + assert (c = n) as -> by congruence.
      exists (n + 1). rewrite list_lookup_insert_eq by lia.
      rewrite filter_cons_True by reflexivity. simpl.
      rewrite Hi, range_succ by exact Hc0. split; [reflexivity|]. split; [lia|reflexivity].
    + exists c. rewrite list_lookup_insert_ne by lia.
      rewrite filter_cons_False by exact Hne. simpl.
      rewrite app_nil_r. auto.
Qed.

Lemma append_connection_Ok ilak cell kind len wid st st' :
  append_connection lakebed_leakance ilak cell kind len wid st = Ok st' ->
  exists r, record_of lakebed_leakance ilak cell kind len wid r /\ emits r st st'.
Proof.
  destruct st as [recs cnt]. unfold append_connection.
  intros (n & Hn & (n' & Hn' & (cnt' & Hset & [= <-])%rbind_Ok)%rbind_Ok)%rbind_Ok.
  assert (n' = n) as -> by congruence.
  apply getitem_Ok in Hn as (k & Hk & Hlk).
  unfold setitem in Hset. rewrite Hk in Hset. injection Hset as <-.
  eexists (LakeCon _ _ _ _ _ _ _ _ _). split.
  - repeat split.
  - exists k, n. simpl. repeat split; assumption.
Qed.

Lemma append_connection_raise ilak cell kind len wid st e :
  append_connection lakebed_leakance ilak cell kind len wid st = Raise e ->
  e = IndexError.
Proof.
  destruct st as [recs cnt]. unfold append_connection.
  destruct (getitem cnt ilak) as [n|e'] eqn:E; simpl.
  - destruct (setitem cnt ilak (n + 1)) eqn:E'; simpl; [discriminate|].
    intros [= <-]. eapply setitem_raise, E'.
  - intros [= <-]. eapply getitem_raise, E.
Qed.

Lemma horizontal_Ok guard test ilak cell len wid st st' :
  horizontal lakebed_leakance guard test ilak cell len wid st = Ok st' ->
  (st' = st /\ (guard = false \/ test = Ok false)) \/
  (guard = true /\ test = Ok true /\
   exists r, record_of lakebed_leakance ilak cell "horizontal" len wid r /\ emits r st st').
Proof.
  unfold horizontal. destruct guard; [|intros [= <-]; auto].
  intros ([] & Ht & H)%rbind_Ok.
  - right. repeat split; [exact Ht|]. eapply append_connection_Ok, H.
  - injection H as <-. auto.
Qed.

Lemma horizontal_raise guard test ilak cell len wid st e :
  (forall e', test = Raise e' -> e' = IndexError) ->
  horizontal lakebed_leakance guard test ilak cell len wid st = Raise e ->
  e = IndexError.
Proof.
  unfold horizontal. intros Ht. destruct guard; [|discriminate].
  destruct test as [[]|e']; simpl.
  - apply append_connection_raise.
  - discriminate.
  - intros [= <-]. apply Ht. reflexivity.
Qed.

Lemma emits_length r st st' : emits r st st' -> length st'.2 = length st.2.
Proof. intros (k & n & _ & _ & _ & ->). simpl. apply length_insert. Qed.

Section ScanFacts.
Variables (lakibd : array2) (idomain : array3).


Lemma face_test_raise f i j e :
  face_test lakibd idomain f i j = Raise e -> e = IndexError.
Proof.
  assert (forall i' j', open_neighbor lakibd idomain i' j' = Raise e -> e = IndexError) as Ho.
  { intros i' j'. unfold open_neighbor.
    destruct (getitem2 lakibd i' j') as [a|e'] eqn:E; simpl.
    - destruct (a =? 0); [|discriminate].
      destruct (getitem3 idomain 0 i' j') eqn:E'; simpl; [discriminate|].
      intros [= <-]. eapply getitem3_raise, E'.
    - intros [= <-]. eapply getitem2_raise, E. }
  destruct f; simpl; try apply Ho.
  unfold left_neighbor.
  destruct (getitem2 lakibd i (j - 1)) as [a|e'] eqn:E; simpl.
  - destruct (negb (a =? 0)); [|discriminate].
    destruct (getitem3 idomain 0 i (j - 1)) eqn:E'; simpl; [discriminate|].
    intros [= <-]. eapply getitem3_raise, E'.
  - intros [= <-]. eapply getitem2_raise, E.
Qed.

(** The block of one face: it appends the record of the face when
    [face_emitted] holds, and nothing otherwise. *)
Lemma horizontal_face f ilak i j st st' :
  horizontal lakebed_leakance (in_bounds nrow ncol f i j)
    (face_test lakibd idomain f i j) ilak (face_cell f i j)
    (face_len delr delc f) (face_wid delr delc f) st = Ok st' ->
  exists rs, emits_list rs st st' /\
    Forall2 (horizontal_of delr delc lakebed_leakance ilak i j)
            (filter (fun f => face_emitted nrow ncol lakibd idomain i j f = true) [f]) rs.
Proof.
  intros [[-> H]|(Hg & Ht & r & Hr & He)]%horizontal_Ok.
  - exists []. split; [constructor|].
    rewrite filter_cons_False; [constructor|].
    unfold face_emitted. destruct H as [-> | ->]; simpl.
    + discriminate.
    + rewrite andb_false_r. discriminate.
  - exists [r]. split; [apply emits_list_one, He|].
    rewrite filter_cons_True.
    + constructor; [exact Hr|constructor].
    + unfold face_emitted. rewrite Hg, Ht. reflexivity.
Qed.

(** What a visit appends: nothing for a cell of value zero; otherwise the
    records of the emitted faces, in the order of [faces], then the
    vertical record. *)
Lemma visit_Ok i j st st' :
  visit nrow ncol delr delc lakebed_leakance lakibd idomain i j st = Ok st' ->
  exists v, getitem2 lakibd i j = Ok v /\
    ((v = 0 /\ st' = st) \/
     (v <> 0 /\ exists hs vr,
        emits_list (hs ++ [vr]) st st' /\
        Forall2 (horizontal_of delr delc lakebed_leakance (v - 1) i j)
                (filter (fun f => face_emitted nrow ncol lakibd idomain i j f = true) faces) hs /\
        vertical_of lakebed_leakance (v - 1) i j vr)).
Proof.
  unfold visit. intros (v & Hv & H)%rbind_Ok. exists v. split; [exact Hv|].
  destruct (Z.eqb_spec v 0) as [->|Hne]; [left; split; congruence|right].
  split; [exact Hne|].
  apply rbind_Ok in H as (s1 & (r1 & E1 & F1)%(horizontal_face back) & H).
  apply rbind_Ok in H as (s2 & (r2 & E2 & F2)%(horizontal_face left) & H).
  apply rbind_Ok in H as (s3 & (r3 & E3 & F3)%(horizontal_face right) & H).
  apply rbind_Ok in H as (s4 & (r4 & E4 & F4)%(horizontal_face front) & H).
  apply append_connection_Ok in H as (vr & Hvr & Hev).
  exists (r1 ++ r2 ++ r3 ++ r4), vr. split; [|split; [|exact Hvr]].
  - repeat (rewrite <- app_assoc).
    repeat (eapply emits_list_app; [eassumption|]).
    apply emits_list_one, Hev.
  - change faces with ([back] ++ [left] ++ [right] ++ [front]).
    rewrite !filter_app. repeat (apply Forall2_app; [assumption|]). assumption.
Qed.

Lemma visit_raise i j st e : visit nrow ncol delr delc lakebed_leakance lakibd idomain i j st = Raise e -> e = IndexError.
Proof.
  unfold visit.
  destruct (getitem2 lakibd i j) as [v|e'] eqn:Hv; simpl;
    [|intros [= <-]; eapply getitem2_raise, Hv].
  destruct (v =? 0); [discriminate|].
  repeat match goal with
  | |- rbind ?m _ = Raise _ -> _ =>
      let E := fresh "E" in
      destruct m eqn:E; simpl;
      [|intros [= <-]; eapply horizontal_raise, E;
        first [ apply (face_test_raise back i j)
              | apply (face_test_raise left i j)
              | apply (face_test_raise right i j)
              | apply (face_test_raise front i j) ]]
  end.
  apply append_connection_raise.
Qed.

(** The scan appends one group of records per lake cell, in row-major
    order of the cells. *)
Lemma scan_groups st :
  get_lake_connection_data nrow ncol delr delc lakebed_leakance lakibd idomain
    = Ok st ->
  exists gs, st.1 = concat gs /\
    Forall2 (cell_group nrow ncol delr delc lakebed_leakance lakibd idomain)
            (lake_cells nrow ncol lakibd) gs.
Proof.
  unfold get_lake_connection_data. intros H.
  eapply (foldM_groups fst) in H; [exact H|].
  intros i s s' _ Hi.
  eapply (foldM_groups fst) in Hi; [exact Hi|].
  clear. intros j s s' _ (v & Hv & H)%visit_Ok.
  unfold lake_cell. rewrite Hv.
  destruct H as [[-> ->]|(Hne & hs & vr & He & Hh & Hvr)].
  - exists []. simpl. rewrite app_nil_r. split; [reflexivity|constructor].
  - exists [hs ++ [vr]]. simpl. rewrite app_nil_r. split.
    + apply emits_list_records, He.
    + destruct (Z.eqb_spec v 0); [contradiction|]. simpl.
      constructor; [|constructor].
      exists v, hs, vr. simpl. auto.
Qed.

Lemma getitem_elem {A} (l : list A) (i : Z) (x : A) :
  getitem l i = Ok x -> x ∈ l.
Proof.
  intros (k & _ & Hk)%getitem_Ok. eapply list_elem_of_lookup_2, Hk.
Qed.

Lemma getitem2_elem (a : array2) (i j v : Z) :
  getitem2 a i j = Ok v -> exists r, r ∈ a /\ v ∈ r.
Proof.
  unfold getitem2. intros (r & Hr & Hv)%rbind_Ok.
  exists r. split; eapply getitem_elem; eassumption.
Qed.

Lemma horizontal_of_lakeno ilak i j fs hs :
  Forall2 (horizontal_of delr delc lakebed_leakance ilak i j) fs hs ->
  Forall (fun r => lakeno r = ilak) hs.
Proof.
  induction 1 as [|f r fs hs (Hl & _) _ IH]; constructor; assumption.
Qed.

Lemma visit_records_lakeno i j st st' v :
  getitem2 lakibd i j = Ok v -> v <> 0 ->
  visit nrow ncol delr delc lakebed_leakance lakibd idomain i j st = Ok st' ->
  exists rs, emits_list rs st st' /\ Forall (fun r => lakeno r = v - 1) rs.
Proof.
  intros Hv Hne (v' & Hv' & H)%visit_Ok.
  assert (v' = v) as -> by congruence.
  destruct H as [[? _]|(_ & hs & vr & He & Hh & Hvr)]; [contradiction|].
  exists (hs ++ [vr]). split; [exact He|].
  apply Forall_app. split; [eapply horizontal_of_lakeno, Hh|].
  constructor; [apply Hvr|constructor].
Qed.

Lemma visit_invariant (P : lakestate -> Prop) i j st st' :
  (forall r s s', P s -> emits r s s' -> P s') ->
  P st ->
  visit nrow ncol delr delc lakebed_leakance lakibd idomain i j st = Ok st' ->
  P st'.
Proof.
  intros HP Hst (v & Hv & H)%visit_Ok.
  destruct H as [[_ ->]|(_ & hs & vr & He & _)]; [exact Hst|].
  eapply (emits_list_invariant P (fun _ => True)); [| |exact Hst|exact He].
  - intros r s s' _. apply HP.
  - apply Forall_forall. auto.
Qed.

Lemma visit_counters_ok i j st st' :
  (forall v, getitem2 lakibd i j = Ok v -> 0 <= v) ->
  counters_ok st ->
  visit nrow ncol delr delc lakebed_leakance lakibd idomain i j st = Ok st' ->
  counters_ok st'.
Proof.
  intros Hpos Hst H.
  pose proof H as (v & Hv & Hcase)%visit_Ok.
  destruct (Z.eq_dec v 0) as [->|Hne].
  - destruct Hcase as [[_ ->]|[? _]]; [exact Hst|contradiction].
  - destruct (visit_records_lakeno _ _ _ _ _ Hv Hne H) as (rs & He & Hl).
    eapply (emits_list_invariant counters_ok (fun r => 0 <= lakeno r));
      [| |exact Hst|exact He].
    + intros r s s'. apply emits_counters_ok.
    + eapply Forall_impl; [exact Hl|]. simpl. intros r ->.
      specialize (Hpos v Hv). lia.
Qed.

Lemma scan_invariant (P : lakestate -> Prop) st :
  (forall i j s s', 0 <= i < nrow -> 0 <= j < ncol -> P s ->
     visit nrow ncol delr delc lakebed_leakance lakibd idomain i j s = Ok s' -> P s') ->
  P ([], [0; 0]) ->
  get_lake_connection_data nrow ncol delr delc lakebed_leakance lakibd idomain = Ok st ->
  P st.
Proof.
  intros HP H0 H. unfold get_lake_connection_data in H.
  eapply (foldM_invariant P); [|exact H0|exact H].
  intros i s s' Hi%elem_of_range Hs Hrow.
  eapply (foldM_invariant P); [|exact Hs|exact Hrow].
  intros j t t' Hj%elem_of_range. apply HP; assumption.
Qed.

Lemma counters_ok_init : counters_ok ([], [0; 0]).
Proof.
  split; [reflexivity|]. split; [constructor|].
  intros L HL. exists 0. unfold of_lake. simpl.
  assert (L = 0 \/ L = 1) as [-> | ->] by lia; simpl; auto with zarith.
Qed.

Lemma elem_of_lake_cells (c : Z * Z) :
  c ∈ lake_cells nrow ncol lakibd <->
  0 <= c.1 < nrow /\ 0 <= c.2 < ncol /\ lake_cell lakibd c.1 c.2 = true.
Proof.
  unfold lake_cells. rewrite list_elem_of_In, in_flat_map. split.
  - intros (i & Hi & Hc). apply in_flat_map in Hc as (j & Hj & Hc).
    apply list_elem_of_In, elem_of_range in Hi, Hj.
    destruct (lake_cell lakibd i j) eqn:E; [|destruct Hc].
    destruct Hc as [<-|[]]. simpl. auto.
  - destruct c as [i j]. simpl. intros (Hi & Hj & Hc).
    exists i. split; [apply list_elem_of_In, elem_of_range, Hi|].
    apply in_flat_map. exists j. split; [apply list_elem_of_In, elem_of_range, Hj|].
    rewrite Hc. left. reflexivity.
Qed.

Lemma emits_list_snoc_inv rs r st st' :
  emits_list (rs ++ [r]) st st' ->
  exists st1, emits_list rs st st1 /\ emits r st1 st'.
Proof.
  revert st. induction rs as [|r0 rs IH]; intros st H; simpl in H.
  - inversion H as [|? ? ? st1 ? He Hl]; subst. inversion Hl; subst.
    exists st. split; [constructor|exact He].
  - inversion H as [|? ? ? st1 ? He Hl]; subst.
    destruct (IH _ Hl) as (st2 & H2 & He2).
    exists st2. split; [econstructor; eassumption|exact He2].
Qed.

Lemma emits_list_length rs st st' :
  emits_list rs st st' -> length st'.2 = length st.2.
Proof.
  intros H.
  eapply (emits_list_invariant (fun s => length s.2 = length st.2) (fun _ => True));
    [| |reflexivity|exact H].
  - intros r s s' _ <-. apply emits_length.
  - apply Forall_forall. auto.
Qed.

Lemma visit_length i j st st' :
  visit nrow ncol delr delc lakebed_leakance lakibd idomain i j st = Ok st' ->
  length st'.2 = length st.2.
Proof.
  intros H.
  eapply (visit_invariant (fun s => length s.2 = length st.2)); [|reflexivity|exact H].
  intros r s s' <-. apply emits_length.
Qed.

(** A cell whose value has no slot in the counter makes its visit raise. *)
Lemma visit_large_value i j v st :
  getitem2 lakibd i j = Ok v ->
  Z.of_nat (length st.2) <= v - 1 ->
  visit nrow ncol delr delc lakebed_leakance lakibd idomain i j st = Raise IndexError.
Proof.
  intros Hv Hlarge.
  destruct (visit nrow ncol delr delc lakebed_leakance lakibd idomain i j st)
    as [st'|e] eqn:E.
  - exfalso. apply visit_Ok in E as (v' & Hv' & H).
    assert (v' = v) as -> by congruence.
    destruct H as [[-> _]|(_ & hs & vr & He & _ & Hvr)]; [lia|].
    apply emits_list_snoc_inv in He as (st1 & Hl%emits_list_length & k & n & Hk & _).
    destruct Hvr as (Hno & _). rewrite Hno, Hl in Hk.
    rewrite py_index_None in Hk by exact Hlarge. discriminate.
  - f_equal. eapply visit_raise, E.
Qed.

(** C9. The counter [nlakecon] is the two-element list [[0, 0]], indexed by
    the cell value minus one: when a cell of the scanned grid holds a value
    of 3 or more, the function raises [IndexError] and returns no record. *)
Theorem third_lake_raises (i j v : Z) :
  0 <= i < nrow -> 0 <= j < ncol ->
  getitem2 lakibd i j = Ok v -> 3 <= v ->
  get_lake_connection_data nrow ncol delr delc lakebed_leakance lakibd idomain
    = Raise IndexError.
Proof.
  intros Hi Hj Hv Hlarge. unfold get_lake_connection_data.
  set (P := fun s : lakestate => length s.2 = 2%nat).
  assert (forall y, forall s s', P s ->
            foldM (fun j => visit nrow ncol delr delc lakebed_leakance lakibd idomain y j)
                  (range ncol) s = Ok s' -> P s') as Hrow.
  { intros y s s' Hs. apply (foldM_invariant P); [|exact Hs].
    intros x t t' _ Ht Hx. unfold P in *. rewrite <- Ht. eapply visit_length, Hx. }
  apply (foldM_raises P IndexError _ _ i); [apply elem_of_range, Hi|exact Hrow| |
                                            |reflexivity].
  - intros y s e'. apply foldM_raise_kind. intros x t e''. apply visit_raise.
  - intros s Hs.
    apply (foldM_raises P IndexError _ _ j); [apply elem_of_range, Hj| | | |exact Hs].
    + intros x t t' Ht Hx. unfold P in *. rewrite <- Ht. eapply visit_length, Hx.
    + intros x t e'. apply visit_raise.
    + intros t Ht. eapply visit_large_value; [exact Hv|]. unfold P in Ht. lia.
Qed.

Lemma getitem2_shape (n m : Z) (a : array2) (i j : Z) :
  shape2 n m a -> 0 <= i < n -> 0 <= j < m -> exists v, getitem2 a i j = Ok v.
Proof.
  intros [Hn Hm] Hi Hj. unfold getitem2.
  destruct (getitem_nonneg a i) as (r & -> & Hr); [lia|]. simpl.
  rewrite Forall_forall in Hm.
  specialize (Hm r (list_elem_of_lookup_2 _ _ _ Hr)).
  destruct (getitem_nonneg r j) as (v & -> & _); [lia|]. eauto.
Qed.

Lemma getitem3_shape (n m : Z) (a : array3) (p : array2) (i j : Z) :
  getitem a 0 = Ok p -> shape2 n m p -> 0 <= i < n -> 0 <= j < m ->
  exists v, getitem3 a 0 i j = Ok v.
Proof.
  intros Hp Hs Hi Hj. unfold getitem3. rewrite Hp. simpl.
  eapply getitem2_shape; eassumption.
Qed.

Lemma append_connection_total ilak cell kind len wid st :
  0 <= ilak < Z.of_nat (length st.2) ->
  exists st', append_connection lakebed_leakance ilak cell kind len wid st = Ok st' /\
              length st'.2 = length st.2.
Proof.
  destruct st as [recs cnt]. simpl. intros H. unfold append_connection.
  destruct (getitem_nonneg cnt ilak H) as (n & -> & _). simpl.
  unfold setitem. rewrite py_index_nonneg by exact H. simpl.
  eexists. split; [reflexivity|]. simpl. apply length_insert.
Qed.

Lemma horizontal_total guard test ilak cell len wid st :
  (guard = true -> exists c, test = Ok c) ->
  0 <= ilak < Z.of_nat (length st.2) ->
  exists st', horizontal lakebed_leakance guard test ilak cell len wid st = Ok st' /\
              length st'.2 = length st.2.
Proof.
  intros Ht Hi. unfold horizontal. destruct guard; [|eauto].
  destruct (Ht eq_refl) as ([] & ->); simpl; [|eauto].
  apply append_connection_total, Hi.
Qed.

Section WellShaped.
Variable p : array2.
Hypothesis lakibd_shape : shape2 nrow ncol lakibd.
Hypothesis idomain_layer : getitem idomain 0 = Ok p.
Hypothesis idomain_shape : shape2 nrow ncol p.

Lemma face_test_total f i j :
  0 <= i < nrow -> 0 <= j < ncol -> in_bounds nrow ncol f i j = true ->
  exists c, face_test lakibd idomain f i j = Ok c.
Proof.
  intros Hi Hj Hb.
  assert (0 <= (neighbor f i j).1 < nrow /\ 0 <= (neighbor f i j).2 < ncol) as [Hi' Hj'].
  { destruct f; simpl in *; lia. }
  destruct (getitem2_shape _ _ _ _ _ lakibd_shape Hi' Hj') as (a & Ha).
  destruct (getitem3_shape _ _ _ _ _ _ idomain_layer idomain_shape Hi' Hj') as (d & Hd).
  destruct f; simpl in *; unfold open_neighbor, left_neighbor;
    rewrite Ha; simpl; destruct (a =? 0); simpl; try rewrite Hd; simpl; eauto.
Qed.

Lemma visit_total i j st :
  0 <= i < nrow -> 0 <= j < ncol ->
  (forall v, getitem2 lakibd i j = Ok v -> 0 <= v <= 2) ->
  length st.2 = 2%nat ->
  exists st', visit nrow ncol delr delc lakebed_leakance lakibd idomain i j st = Ok st' /\
              length st'.2 = 2%nat.
Proof.
  intros Hi Hj Hv Hlen. unfold visit.
  destruct (getitem2_shape _ _ _ _ _ lakibd_shape Hi Hj) as (v & Ev).
  rewrite Ev. simpl. specialize (Hv v Ev).
  destruct (Z.eqb_spec v 0) as [_|Hne]; [eauto|].
  destruct (horizontal_total (i >? 0) (open_neighbor lakibd idomain (i - 1) j)
              (v - 1) (0, i - 1, j) (delc / 2) delr st) as (s1 & -> & H1);
    [apply (face_test_total back i j Hi Hj)|lia|]. simpl.
  destruct (horizontal_total (j >? 0) (left_neighbor lakibd idomain i (j - 1))
              (v - 1) (0, i, j - 1) (delr / 2) delc s1) as (s2 & -> & H2);
    [apply (face_test_total left i j Hi Hj)|lia|]. simpl.
  destruct (horizontal_total (j <? ncol - 1) (open_neighbor lakibd idomain i (j + 1))
              (v - 1) (0, i, j + 1) (delr / 2) delc s2) as (s3 & -> & H3);
    [apply (face_test_total right i j Hi Hj)|lia|]. simpl.
  destruct (horizontal_total (i <? nrow - 1) (open_neighbor lakibd idomain (i + 1) j)
              (v - 1) (0, i + 1, j) (delc / 2) delr s3) as (s4 & -> & H4);
    [apply (face_test_total front i j Hi Hj)|lia|]. simpl.
  destruct (append_connection_total (v - 1) (1, i, j) "vertical" 0 0 s4)
    as (s5 & -> & H5); [lia|].
  exists s5. split; [reflexivity|lia].
Qed.

(** The function returns on every grid of the declared shape whose values
    are 0, 1 or 2. *)
Lemma get_lake_connection_data_total :
  Forall (Forall (fun v => 0 <= v <= 2)) lakibd ->
  exists st,
    get_lake_connection_data nrow ncol delr delc lakebed_leakance lakibd idomain = Ok st.
Proof.
  intros Hval. unfold get_lake_connection_data.
  destruct (foldM_total (fun s : lakestate => length s.2 = 2%nat)
              (fun i => foldM (fun j => visit nrow ncol delr delc lakebed_leakance
                                              lakibd idomain i j) (range ncol))
              (range nrow)) with (s := ([] : list lakecon, [0; 0]))
    as (st & Hst & _); [|reflexivity|eauto].
  intros i s Hi%elem_of_range Hs.
  apply (foldM_total (fun s : lakestate => length s.2 = 2%nat)); [|exact Hs].
  intros j t Hj%elem_of_range Ht.
  apply visit_total; try assumption.
  intros v (r & Hr & Hv)%getitem2_elem.
  rewrite Forall_forall in Hval. specialize (Hval r Hr).
  rewrite Forall_forall in Hval. apply Hval, Hv.
Qed.

End WellShaped.

(** X2. The vertical records of the result are those of the lake cells, one
    per cell, in row-major order, each targeting the cell below. *)
Lemma one_vertical_record_per_lake_cell (recs : list lakecon) (nlakecon : list Z) :
  get_lake_connection_data nrow ncol delr delc lakebed_leakance lakibd idomain
    = Ok (recs, nlakecon) ->
  map cellid (filter (fun r => claktype r = "vertical"%string) recs)
  = map (fun c : Z * Z => (1, c.1, c.2)) (lake_cells nrow ncol lakibd).
Proof.
  intros (gs & Hrecs & Hgs)%scan_groups. simpl in Hrecs. subst recs.
  induction Hgs as [|c g cs gs Hg _ IH]; [reflexivity|].
  cbn [concat map]. rewrite filter_app, map_app, IH. f_equal.
  destruct Hg as (v & hs & vr & _ & _ & -> & Hh & Hvr).
  rewrite filter_app.
  assert (filter (fun r => claktype r = "vertical"%string) hs = []) as ->.
  { clear -Hh. induction Hh as [|f r fs hs Hr _ IH]; [reflexivity|].
    rewrite filter_cons_False; [exact IH|].
    destruct Hr as (_ & _ & -> & _). discriminate. }
  destruct Hvr as (_ & Hc & Hk & _).
  rewrite filter_cons_True by exact Hk. cbn [app map filter].
  rewrite Hc. reflexivity.
Qed.

(** C7. On a grid of non-negative values that the function accepts, the
    connection numbers of each of the two lakes are [0, 1, 2, ...] without gap
    or repeat in the order of emission, the returned counter of the lake is
    the number of its records, every record belongs to lake 0 or 1, and the
    records come in groups, one per lake cell in row-major order, each made
    of the horizontal records of the cell in the order back, left, right,
    front followed by its vertical record. *)
Theorem connection_numbers_contiguous (recs : list lakecon) (nlakecon : list Z) :
  Forall (Forall (Z.le 0)) lakibd ->
  get_lake_connection_data nrow ncol delr delc lakebed_leakance lakibd idomain
    = Ok (recs, nlakecon) ->
  (forall L, 0 <= L < 2 ->
     map iconn (of_lake L recs) = range (Z.of_nat (length (of_lake L recs))) /\
     getitem nlakecon L = Ok (Z.of_nat (length (of_lake L recs)))) /\
  (forall r, r ∈ recs -> 0 <= lakeno r < 2) /\
  (exists gs, recs = concat gs /\
     Forall2 (cell_group nrow ncol delr delc lakebed_leakance lakibd idomain)
             (lake_cells nrow ncol lakibd) gs).
Proof.
  intros Hpos H.
  assert (counters_ok (recs, nlakecon)) as (Hlen & Hall & Hc).
  { eapply (scan_invariant counters_ok); [|apply counters_ok_init|exact H].
    intros i j s s' _ _. apply visit_counters_ok.
    intros v (r & Hr & Hv)%getitem2_elem.
    rewrite Forall_forall in Hpos. specialize (Hpos r Hr).
    rewrite Forall_forall in Hpos. apply Hpos, Hv. }
  simpl in *. split; [|split].
  - intros L HL. destruct (Hc L HL) as (c & Hlc & Hc0 & Hmap).
    assert (c = Z.of_nat (length (of_lake L recs))) as <-.
    { apply (f_equal length) in Hmap. rewrite length_map, length_range in Hmap. lia. }
    split; [exact Hmap|].
    unfold getitem. rewrite py_index_nonneg by lia. rewrite Hlc. reflexivity.
  - rewrite Forall_forall in Hall. exact Hall.
  - apply scan_groups in H. exact H.
Qed.

(** C8. Every record the function returns was appended for some lake cell
    [(i, j)] of the grid, and its target cell, kind and distance fields are
    those of one of the five blocks: back and front carry [(delc / 2, delr)],
    left and right carry [(delr / 2, delc)], the vertical record, whose
    target is the cell below, carries [(0, 0)]. *)
Theorem connection_geometry (recs : list lakecon) (nlakecon : list Z) (r : lakecon) :
  get_lake_connection_data nrow ncol delr delc lakebed_leakance lakibd idomain
    = Ok (recs, nlakecon) ->
  r ∈ recs ->
  exists i j v,
    0 <= i < nrow /\ 0 <= j < ncol /\
    getitem2 lakibd i j = Ok v /\ v <> 0 /\ lakeno r = v - 1 /\
    geometry_of delr delc i j r.
Proof.
  intros (gs & Hrecs & Hgs)%scan_groups Hr. simpl in Hrecs. subst recs.
  apply list_elem_of_In, in_concat in Hr as (g & Hg & Hr).
  apply list_elem_of_In in Hg, Hr.
  apply list_elem_of_lookup in Hg as (n & Hn).
  destruct (Forall2_lookup_r _ _ _ _ _ Hgs Hn) as ([i j] & Hc & Hgrp).
  apply list_elem_of_lookup_2, elem_of_lake_cells in Hc as (Hi & Hj & _).
  destruct Hgrp as (v & hs & vr & Hv & Hne & -> & Hh & Hvr). simpl in *.
  exists i, j, v. do 4 (split; [assumption|]).
  apply elem_of_app in Hr as [Hr|Hr%list_elem_of_singleton].
  - apply list_elem_of_lookup in Hr as (m & Hm).
    destruct (Forall2_lookup_r _ _ _ _ _ Hh Hm) as (f & _ & Hf).
    destruct Hf as (Hl & Hcell & Hk & _ & _ & _ & Hlen & Hwid).
    split; [exact Hl|]. unfold geometry_of.
    destruct f; simpl in *; tauto.
  - subst r. destruct Hvr as (Hl & Hcell & Hk & _ & _ & _ & Hlen & Hwid).
    split; [exact Hl|]. unfold geometry_of. tauto.
Qed.

End ScanFacts.
End LakeFacts.

(** ** Lake connections: the script's grid *)

(** The three tests that read [lakibd[..] == 0 and idomain[0, ..]] append a
    record exactly when the neighbor is in bounds, holds zero in [lakibd]
    and is non-zero in layer 0 of [idomain]. *)
Lemma open_face_emitted nrow ncol lakibd idomain i j f :
  f <> left ->
  face_emitted nrow ncol lakibd idomain i j f = true <->
  in_bounds nrow ncol f i j = true /\
  getitem2 lakibd (neighbor f i j).1 (neighbor f i j).2 = Ok 0 /\
  exists d, getitem3 idomain 0 (neighbor f i j).1 (neighbor f i j).2 = Ok d /\ d <> 0.
Proof.
  intros Hf. unfold face_emitted.
  assert (face_test lakibd idomain f i j
          = open_neighbor lakibd idomain (neighbor f i j).1 (neighbor f i j).2) as ->
    by (destruct f; [reflexivity|contradiction|reflexivity|reflexivity]).
  unfold open_neighbor.
  destruct (in_bounds nrow ncol f i j); simpl; [|split; [discriminate|intros [[=] _]]].
  destruct (getitem2 lakibd _ _) as [a|e]; simpl;
    [|split; [discriminate|intros (_ & [=] & _)]].
  destruct (Z.eqb_spec a 0) as [->|Ha];
    [|split; [discriminate|intros (_ & [= ->] & _); contradiction]].
  destruct (getitem3 idomain 0 _ _) as [d|e]; simpl;
    [|split; [discriminate|intros (_ & _ & d & [=] & _)]].
  destruct (Z.eqb_spec d 0) as [->|Hd]; simpl; split.
  - discriminate.
  - intros (_ & _ & d & [= <-] & Hd). contradiction.
  - intros _. repeat split. eauto.
  - reflexivity.
Qed.

(** The test of the left face reads [lakibd[i, j - 1] and idomain[0, i, j - 1] == 0]:
    it appends a record exactly when the neighbor is in bounds, is non-zero
    in [lakibd] and holds zero in layer 0 of [idomain]. *)
Lemma left_face_emitted nrow ncol lakibd idomain i j :
  face_emitted nrow ncol lakibd idomain i j left = true <->
  j > 0 /\
  (exists a, getitem2 lakibd i (j - 1) = Ok a /\ a <> 0) /\
  getitem3 idomain 0 i (j - 1) = Ok 0.
Proof.
  unfold face_emitted, face_test, left_neighbor. simpl.
  destruct (Z.gtb_spec j 0) as [Hj|Hj]; simpl; [|split; [discriminate|lia]].
  destruct (getitem2 lakibd i (j - 1)) as [a|e]; simpl;
    [|split; [discriminate|intros (_ & (a & [=] & _) & _)]].
  destruct (Z.eqb_spec a 0) as [->|Ha]; simpl;
    [split; [discriminate|intros (_ & (a & [= <-] & Ha) & _); contradiction]|].
  destruct (getitem3 idomain 0 i (j - 1)) as [d|e]; simpl;
    [|split; [discriminate|intros (_ & _ & [=])]].
  destruct (Z.eqb_spec d 0) as [->|Hd]; split.
  - intros _. split; [lia|]. split; [eauto|reflexivity].
  - reflexivity.
  - discriminate.
  - intros (_ & _ & [= ->]). contradiction.
Qed.

(** C1. Evaluation on the script's 36 x 23 grid with one lake cell, at
    [(1, 1)], and every cell active: the four neighbors of the lake cell are
    in bounds, hold zero in [lakibd] and are active, and the function returns
    four records, toward the back, right and front neighbors and downward;
    no record targets the left neighbor [(0, 1, 0)]. *)
Theorem lone_lake_cell_records :
  Forall (fun c : Z * Z =>
            getitem2 Script.lone_lake c.1 c.2 = Ok 0 /\
            getitem3 (Script.full3 1) 0 c.1 c.2 = Ok 1)
         [(0, 1); (1, 0); (1, 2); (2, 1)] /\
  Script.get_lake_connection_data Script.lone_lake (Script.full3 1) =
  Ok ([LakeCon 0 0 (0, 0, 1) "horizontal" 1 0 0 (Params.delc / 2) Params.delr;
       LakeCon 0 1 (0, 1, 2) "horizontal" 1 0 0 (Params.delr / 2) Params.delc;
       LakeCon 0 2 (0, 2, 1) "horizontal" 1 0 0 (Params.delc / 2) Params.delr;
       LakeCon 0 3 (1, 1, 1) "vertical" 1 0 0 0 0],
      [4; 0]).
Proof. split; [repeat constructor|vm_compute; reflexivity]. Qed.

(** C6. Evaluation on the script's 36 x 23 grid with two lake cells, at
    [(1, 1)] and [(1, 2)], and no active cell: neither lake cell has an
    active neighbor that is not a lake cell, and the function returns three
    records, the second of which is a horizontal record of the cell [(1, 2)]
    toward its left neighbor [(0, 1, 1)], a lake cell. *)
Theorem twin_lake_cell_records :
  Script.get_lake_connection_data Script.twin_lake (Script.full3 0) =
  Ok ([LakeCon 0 0 (1, 1, 1) "vertical" 1 0 0 0 0;
       LakeCon 0 1 (0, 1, 1) "horizontal" 1 0 0 (Params.delr / 2) Params.delc;
       LakeCon 0 2 (1, 1, 2) "vertical" 1 0 0 0 0],
      [3; 0]).
Proof. vm_compute. reflexivity. Qed.

(** ** Streams: the first loop *)

Lemma getitem_nat {A} (l : list A) (k : nat) (x : A) :
  l !! k = Some x -> getitem l (Z.of_nat k) = Ok x.
Proof.
  intros H. unfold getitem.
  rewrite py_index_nonneg by (apply lookup_lt_Some in H; lia).
  rewrite Nat2Z.id, H. reflexivity.
Qed.

Lemma setitem_nat {A} (l : list A) (k : nat) (x : A) :
  (k < length l)%nat -> setitem l (Z.of_nat k) x = Ok (<[k:=x]> l).
Proof.
  intros H. unfold setitem. rewrite py_index_nonneg by lia.
  rewrite Nat2Z.id. reflexivity.
Qed.

Lemma append_at_nat (cd : list (list Z)) (i : Z) (k : nat) (l : list Z) (x : Z) :
  i = Z.of_nat k ->
  cd !! k = Some l -> append_at cd i x = Ok (<[k:=l ++ [x]]> cd).
Proof.
  intros -> H. unfold append_at. rewrite (getitem_nat _ _ _ H). simpl.
  apply setitem_nat. eapply lookup_lt_Some, H.
Qed.

Lemma enumerate_lookup {A} (l : list A) (k : nat) (x : A) :
  l !! k = Some x -> enumerate l !! k = Some (Z.of_nat k, x).
Proof.
  intros H. unfold enumerate, range.
  rewrite Nat2Z.id, lookup_zip_with, list_lookup_fmap.
  rewrite lookup_seq_lt by (eapply lookup_lt_Some, H).
  simpl. rewrite H. reflexivity.
Qed.

Lemma length_enumerate {A} (l : list A) : length (enumerate l) = length l.
Proof.
  unfold enumerate. rewrite length_zip_with, length_range, Nat2Z.id. lia.
Qed.

Lemma lengths_lookup (sd : list Row.t) (k : nat) (r : Row.t) :
  sd !! k = Some r -> lengths sd !! k = Some (len_at sd k).
Proof.
  intros H. unfold lengths, len_at. rewrite list_lookup_fmap, H. reflexivity.
Qed.

Lemma lookup_map_seq {A} (f : nat -> A) (n m : nat) :
  (m < n)%nat -> map f (seq 0 n) !! m = Some (f m).
Proof.
  intros H. change (map f (seq 0 n)) with (f <$> seq 0 n).
  rewrite list_lookup_fmap, lookup_seq_lt by exact H. reflexivity.
Qed.

Lemma map_seq_ext {A} (f g : nat -> A) (n : nat) :
  (forall m, (m < n)%nat -> f m = g m) -> map f (seq 0 n) = map g (seq 0 n).
Proof.
  intros H. apply map_ext_in. intros m Hm%in_seq. apply H. lia.
Qed.

(** How [connectiondata[m]] changes when reach [k] is processed. *)
Lemma conn_succ (sd : list Row.t) (k m : nat) :
  conn sd (S k) m =
  conn sd k m ++
  (if continues sd k
   then if (m =? k)%nat then [Z.of_nat m - 1]
        else if (S m =? k)%nat then [- Z.of_nat k] else []
   else []).
Proof.
  unfold conn.
  destruct (Nat.eqb_spec m k) as [->|Hmk].
  - rewrite (proj2 (Nat.ltb_lt k (S k))), (proj2 (Nat.ltb_ge k k)) by lia.
    replace (S k <? S k)%nat with false by (symmetry; apply Nat.ltb_ge; lia).
    replace (S k <? k)%nat with false by (symmetry; apply Nat.ltb_ge; lia).
    rewrite !andb_false_r, andb_true_r. simpl.
    destruct (continues sd k); reflexivity.
  - destruct (Nat.eqb_spec (S m) k) as [<-|Hsk].
    + replace (m <? S (S m))%nat with true by (symmetry; apply Nat.ltb_lt; lia).
      replace (m <? S m)%nat with true by (symmetry; apply Nat.ltb_lt; lia).
      replace (S m <? S (S m))%nat with true by (symmetry; apply Nat.ltb_lt; lia).
      replace (S m <? S m)%nat with false by (symmetry; apply Nat.ltb_ge; lia).
      rewrite !andb_true_r, andb_false_r.
      destruct (continues sd m), (continues sd (S m)); reflexivity.
    + assert ((m <? S k)%nat = (m <? k)%nat) as ->.
      { destruct (Nat.ltb_spec m (S k)), (Nat.ltb_spec m k); [reflexivity|lia|lia|reflexivity]. }
      assert ((S m <? S k)%nat = (S m <? k)%nat) as ->.
      { destruct (Nat.ltb_spec (S m) (S k)), (Nat.ltb_spec (S m) k);
          [reflexivity|lia|lia|reflexivity]. }
      destruct (continues sd k); rewrite app_nil_r; reflexivity.
Qed.

(** One iteration of the first loop takes the closed form for [k] reaches to
    the closed form for [k + 1] reaches. *)
Lemma pass_step_after (sd : list Row.t) (k : nat) (r : Row.t) :
  first_segment_nonzero sd ->
  sd !! k = Some r ->
  pass_step sd (Z.of_nat k, r) (pass_after sd k) = Ok (pass_after sd (S k)).
Proof.
  intros H0 Hr. pose proof (lookup_lt_Some _ _ _ Hr) as Hk.
  unfold pass_step.
  assert (getitem (lengths sd) (Z.of_nat k) = Ok (len_at sd k)) as Hb
    by (eapply getitem_nat, lengths_lookup, Hr).
  destruct k as [|k'].
  - (* the first reach *)
    simpl isegold. simpl distance. simpl connectiondata.
    assert ((Row.seg r - 1 =? -1) = false) as ->.
    { destruct sd as [|r0 sd']; [discriminate|]. injection Hr as ->.
      simpl in H0. apply Z.eqb_neq. lia. }
    rewrite Hb. simpl rbind. unfold pass_after. f_equal. f_equal.
    + apply map_seq_ext. intros m _. rewrite conn_succ.
      change (continues sd 0) with false. cbv iota. rewrite app_nil_r. reflexivity.
    + simpl. rewrite Hr. reflexivity.
  - (* a later reach *)
    destruct (lookup_lt_is_Some_2 sd k') as [r' Hr']; [lia|].
    assert (getitem (lengths sd) (Z.of_nat (S k') - 1) = Ok (len_at sd k')) as Ha.
    { replace (Z.of_nat (S k') - 1) with (Z.of_nat k') by lia.
      eapply getitem_nat, lengths_lookup, Hr'. }
    assert (continues sd (S k') = (Row.seg r - 1 =? Row.seg r' - 1)) as Hc.
    { unfold continues, same_segment. rewrite Hr', Hr.
      destruct (Z.eqb_spec (Row.seg r') (Row.seg r)), (Z.eqb_spec (Row.seg r - 1) (Row.seg r' - 1));
        (reflexivity || lia). }
    simpl isegold. simpl distance. simpl connectiondata. rewrite Hr'. simpl default.
    rewrite <- Hc.
    assert (map (conn sd (S (S k'))) (seq 0 (length sd)) =
            if continues sd (S k')
            then <[k' := conn sd (S k') k' ++ [- Z.of_nat (S k')]]>
                   (<[S k' := conn sd (S k') (S k') ++ [Z.of_nat (S k') - 1]]>
                      (map (conn sd (S k')) (seq 0 (length sd))))
            else map (conn sd (S k')) (seq 0 (length sd))) as Hcd.
    { destruct (continues sd (S k')) eqn:Ec.
      - apply list_eq. intros m.
        destruct (Nat.lt_ge_cases m (length sd)) as [Hm|Hm].
        + rewrite lookup_map_seq by exact Hm. rewrite conn_succ, Ec.
          destruct (Nat.eqb_spec m (S k')) as [->|Hne].
          * rewrite list_lookup_insert_ne by lia.
            rewrite list_lookup_insert_eq by (rewrite length_map, length_seq; lia).
            reflexivity.
          * destruct (Nat.eqb_spec (S m) (S k')) as [Heq|Hne'].
            { injection Heq as ->.
              rewrite list_lookup_insert_eq
                by (rewrite length_insert, length_map, length_seq; lia).
              reflexivity. }
            { rewrite !list_lookup_insert_ne by lia.
              rewrite lookup_map_seq by exact Hm. rewrite app_nil_r. reflexivity. }
        + transitivity (@None (list Z)); [|symmetry]; apply lookup_ge_None_2;
            rewrite ?length_insert, length_map, length_seq; lia.
      - apply map_seq_ext. intros m _. rewrite conn_succ, Ec. apply app_nil_r. }
    assert (map (dist sd) (seq 0 (S (S k'))) =
            map (dist sd) (seq 0 (S k')) ++ [dist sd (S k')]) as Hdas
      by (rewrite (seq_S (S k')), map_app; reflexivity).
    assert (dist sd (S k') =
            if continues sd (S k')
            then (dist sd k' + (len_at sd k' * 0.5 + len_at sd (S k') * 0.5))%Q
            else (0.5 * len_at sd (S k'))%Q) as Hd by reflexivity.
    unfold pass_after at 2. rewrite Hcd, Hdas, Hr. clear Hcd Hdas.
    destruct (continues sd (S k')) eqn:Ec.
    + rewrite (append_at_nat _ _ (S k') (conn sd (S k') (S k')) _ eq_refl)
        by (apply lookup_map_seq; lia).
      simpl rbind.
      rewrite (append_at_nat _ _ k' (conn sd (S k') k'))
        by (lia || (rewrite list_lookup_insert_ne by lia; apply lookup_map_seq; lia)).
      simpl rbind. rewrite Ha, Hb. simpl rbind. rewrite Hd. reflexivity.
    + rewrite Hb. simpl rbind. rewrite Hd. reflexivity.
Qed.

Lemma pass_prefix (sd : list Row.t) (k : nat) :
  first_segment_nonzero sd ->
  (k <= length sd)%nat ->
  foldM (pass_step sd) (take k (enumerate sd)) (pass_after sd 0)
  = Ok (pass_after sd k).
Proof.
  intros H0. induction k as [|k IH]; intros Hk; [reflexivity|].
  destruct (lookup_lt_is_Some_2 sd k) as [r Hr]; [lia|].
  rewrite (take_S_r _ _ _ (enumerate_lookup _ _ _ Hr)), foldM_app, IH by lia.
  cbn [rbind foldM]. rewrite pass_step_after by assumption. reflexivity.
Qed.

(** The first loop returns the closed form, unless the first segment id is 0. *)
Lemma connectivity_pass_Ok (sd : list Row.t) :
  first_segment_nonzero sd ->
  connectivity_pass sd = Ok (pass_after sd (length sd)).
Proof.
  intros H0. rewrite <- (pass_prefix sd (length sd) H0) by lia.
  rewrite take_ge by (rewrite length_enumerate; lia).
  unfold connectivity_pass, pass_after. do 2 f_equal.
  unfold range. rewrite Nat2Z.id, map_map. apply map_seq_ext.
  intros m _. unfold conn. rewrite !andb_false_r. reflexivity.
Qed.

Lemma py_index_minus_one (n : nat) : py_index (S n) (-1) = Some n.
Proof.
  unfold py_index. simpl (0 <=? -1). cbn [andb].
  assert ((- Z.of_nat (S n) <=? -1) = true) as -> by (apply Z.leb_le; lia).
  simpl (-1 <? 0). cbn [andb]. f_equal. lia.
Qed.

Lemma append_at_in_range (cd : list (list Z)) (i x : Z) (k : nat) :
  py_index (length cd) i = Some k -> exists cd', append_at cd i x = Ok cd'.
Proof.
  intros Hk. unfold append_at, getitem, setitem. rewrite Hk.
  destruct (lookup_lt_is_Some_2 cd k) as [l ->]; [eapply py_index_lt, Hk|].
  simpl. eauto.
Qed.

(** With segment id 0 on the first reach, the first iteration takes the
    branch that adds to [distance] before any value was assigned to it. *)
Lemma connectivity_pass_unbound (r : Row.t) (sd : list Row.t) :
  Row.seg r = 0 ->
  connectivity_pass (r :: sd) = Raise UnboundLocalError.
Proof.
  intros Hr. unfold connectivity_pass, enumerate.
  assert (range (Z.of_nat (length (r :: sd))) = 0 :: map Z.of_nat (seq 1 (length sd))) as ->
    by (unfold range; rewrite Nat2Z.id; reflexivity).
  cbn [zip_with foldM]. unfold pass_step at 1. rewrite Hr.
  cbn [isegold connectiondata distance map]. simpl (0 - 1 =? -1).
  cbv iota.
  rewrite (append_at_nat
             ([0] :: map (fun ireach => [ireach]) (map Z.of_nat (seq 1 (length sd))))
             0 0%nat [0] (0 - 1) eq_refl eq_refl).
  cbn [rbind].
  destruct (append_at_in_range
              (<[0%nat:=[0] ++ [0 - 1]]>
                 ([0] :: map (fun ireach => [ireach]) (map Z.of_nat (seq 1 (length sd)))))
              (0 - 1) (- 0) (length sd)) as [cd' ->]; [|reflexivity].
  cbn [insert list_insert length]. rewrite !length_map, length_seq.
  apply py_index_minus_one.
Qed.

(** ** Streams: counting the automatic links *)

Lemma length_filter_concat_map {A B} (P : B -> Prop) `{!forall x, Decision (P x)}
    (f : A -> list B) (l : list A) :
  length (filter P (concat (map f l)))
  = sum_list_with (fun x => length (filter P (f x))) l.
Proof.
  induction l as [|x l IH]; [reflexivity|].
  simpl. rewrite filter_app, length_app, IH. reflexivity.
Qed.

Lemma sum_list_with_map {A B} (g : A -> B) (f : B -> nat) (l : list A) :
  sum_list_with f (map g l) = sum_list_with (fun x => f (g x)) l.
Proof. induction l as [|x l IH]; simpl; [reflexivity|]. rewrite IH. reflexivity. Qed.

Lemma sum_list_with_ext_in {A} (f g : A -> nat) (l : list A) :
  (forall x, In x l -> f x = g x) -> sum_list_with f l = sum_list_with g l.
Proof.
  induction l as [|x l IH]; intros H; simpl; [reflexivity|].
  rewrite (H x) by (left; reflexivity). rewrite IH; [reflexivity|].
  intros y Hy. apply H. right. exact Hy.
Qed.

Lemma continues_lt (sd : list Row.t) (k : nat) :
  continues sd k = true -> (0 < k < length sd)%nat.
Proof.
  destruct k as [|k']; [discriminate|]. unfold continues, same_segment.
  destruct (sd !! k') eqn:E1; [|discriminate].
  destruct (sd !! S k') eqn:E2; [|discriminate].
  apply lookup_lt_Some in E2. lia.
Qed.

(** The entries that follow the reach itself in its final list. *)
Lemma neighbors_of_conn (sd : list Row.t) (m : nat) :
  (m < length sd)%nat ->
  drop 1 (conn sd (length sd) m) =
  (if continues sd m then [Z.of_nat m - 1] else [])
  ++ (if continues sd (S m) then [- Z.of_nat (S m)] else []).
Proof.
  intros Hm. unfold conn. cbn [app drop].
  rewrite (proj2 (Nat.ltb_lt m (length sd)) Hm), andb_true_r.
  destruct (continues sd (S m)) eqn:E; [|reflexivity].
  apply continues_lt in E.
  rewrite (proj2 (Nat.ltb_lt (S m) (length sd))) by lia. reflexivity.
Qed.

Lemma upstream_of_conn (sd : list Row.t) (m : nat) :
  (m < length sd)%nat ->
  length (filter (fun x => 0 <= x) (drop 1 (conn sd (length sd) m)))
  = Nat.b2n (continues sd m).
Proof.
  intros Hm. rewrite neighbors_of_conn, filter_app by exact Hm.
  destruct (continues sd m) eqn:E1; destruct (continues sd (S m)) eqn:E2;
    try apply continues_lt in E1;
    rewrite ?filter_cons_True, ?filter_cons_False by lia; reflexivity.
Qed.

Lemma downstream_of_conn (sd : list Row.t) (m : nat) :
  (m < length sd)%nat ->
  length (filter (fun x => x < 0) (drop 1 (conn sd (length sd) m)))
  = Nat.b2n (continues sd (S m)).
Proof.
  intros Hm. rewrite neighbors_of_conn, filter_app by exact Hm.
  destruct (continues sd m) eqn:E1; destruct (continues sd (S m)) eqn:E2;
    try apply continues_lt in E1;
    rewrite ?filter_cons_True, ?filter_cons_False by lia; reflexivity.
Qed.

Lemma sum_next_joins (sd : list Row.t) :
  sum_list_with (fun m => Nat.b2n (continues sd (S m))) (seq 0 (length sd))
  = joins (segs sd).
Proof.
  induction sd as [|a sd IH]; [reflexivity|].
  cbn [length seq sum_list_with].
  rewrite <- seq_shift, sum_list_with_map.
  change (sum_list_with (fun m => Nat.b2n (continues (a :: sd) (S (S m))))
                        (seq 0 (length sd)))
    with (sum_list_with (fun m => Nat.b2n (continues sd (S m))) (seq 0 (length sd))).
  rewrite IH. destruct sd as [|b sd']; [reflexivity|].
  unfold continues, same_segment. cbn [lookup list_lookup segs map joins].
  destruct (Row.seg a =? Row.seg b); reflexivity.
Qed.

Lemma sum_here_next (sd : list Row.t) :
  sum_list_with (fun m => Nat.b2n (continues sd m)) (seq 0 (length sd))
  = sum_list_with (fun m => Nat.b2n (continues sd (S m))) (seq 0 (length sd)).
Proof.
  destruct (length sd) as [|n'] eqn:En; [reflexivity|].
  rewrite seq_S at 2. rewrite sum_list_with_app.
  cbn [seq sum_list_with]. rewrite <- seq_shift, sum_list_with_map.
  assert (continues sd (S (0 + n')) = false) as ->.
  { destruct (continues sd (S (0 + n'))) eqn:E; [|reflexivity].
    apply continues_lt in E. lia. }
  change (continues sd 0) with false. simpl. lia.
Qed.

Lemma joins_contiguous (l : list Z) :
  contiguous l = true -> (joins l + length (remove_dups l) = length l)%nat.
Proof.
  induction l as [|a l IH]; [reflexivity|].
  destruct l as [|b l']; [reflexivity|].
  cbn [contiguous]. intros [H1 H2]%andb_true_iff. specialize (IH H2).
  change (remove_dups (a :: b :: l'))
    with (if decide_rel elem_of a (b :: l')
          then remove_dups (b :: l') else a :: remove_dups (b :: l')).
  change (joins (a :: b :: l'))
    with (if a =? b then S (joins (b :: l')) else joins (b :: l')).
  change (length (a :: b :: l')) with (S (length (b :: l'))).
  destruct (Z.eqb_spec a b) as [Heq|Hne].
  - subst b. destruct (decide_rel elem_of a (a :: l')) as [Hin|Hnin]; [lia|].
    exfalso. apply Hnin. left.
  - simpl in H1. apply negb_true_iff, bool_decide_eq_false in H1.
    destruct (decide_rel elem_of a (b :: l')) as [Hin|Hnin]; [contradiction|].
    cbn [length] in *. lia.
Qed.

Lemma links_of_pass (sd : list Row.t) :
  upstream_links (connectiondata (pass_after sd (length sd))) = joins (segs sd) /\
  downstream_links (connectiondata (pass_after sd (length sd))) = joins (segs sd).
Proof.
  unfold upstream_links, downstream_links. cbn [connectiondata pass_after].
  rewrite map_map, !length_filter_concat_map.
  rewrite <- sum_next_joins. split.
  - rewrite <- sum_here_next. apply sum_list_with_ext_in.
    intros m Hm%in_seq. apply upstream_of_conn. lia.
  - apply sum_list_with_ext_in.
    intros m Hm%in_seq. apply downstream_of_conn. lia.
Qed.

(** C3. On a table whose segments are contiguous runs of reaches, the first
    loop returns; each reach's list holds the reach itself, then the index of
    the reach before it when both are in the same segment, then the negated
    index of the reach after it when both are in the same segment, and
    nothing else; so the upstream entries, and likewise the downstream
    entries, number the reaches minus the segments.  The first segment id is
    taken different from 0. *)
Theorem automatic_links (sd : list Row.t) :
  first_segment_nonzero sd ->
  contiguous (segs sd) = true ->
  exists st,
    connectivity_pass sd = Ok st /\
    length (connectiondata st) = length sd /\
    (forall m, (m < length sd)%nat ->
       connectiondata st !! m =
       Some ([Z.of_nat m]
             ++ (if continues sd m then [Z.of_nat m - 1] else [])
             ++ (if continues sd (S m) then [- Z.of_nat (S m)] else []))) /\
    Z.of_nat (upstream_links (connectiondata st))
      = Z.of_nat (length sd) - Z.of_nat (number_of_segments sd) /\
    Z.of_nat (downstream_links (connectiondata st))
      = Z.of_nat (length sd) - Z.of_nat (number_of_segments sd).
Proof.
  intros H0 Hc. exists (pass_after sd (length sd)).
  split; [apply connectivity_pass_Ok, H0|].
  split; [cbn [connectiondata pass_after]; rewrite length_map, length_seq; reflexivity|].
  split.
  - intros m Hm. cbn [connectiondata pass_after].
    rewrite lookup_map_seq by exact Hm. f_equal.
    pose proof (neighbors_of_conn sd m Hm) as Hn.
    unfold conn in *. cbn [app drop] in Hn. cbn [app]. f_equal. exact Hn.
  - destruct (links_of_pass sd) as [-> ->].
    pose proof (joins_contiguous (segs sd) Hc) as Hj.
    unfold number_of_segments. unfold segs in Hj at 3. rewrite length_map in Hj. lia.
Qed.

(** ** Streams: distance along the segment *)

Lemma len_at_lookup (sd : list Row.t) (k : nat) (r : Row.t) :
  sd !! k = Some r -> len_at sd k = Row.length r.
Proof. intros H. unfold len_at. rewrite H. reflexivity. Qed.

Lemma dist_first (sd : list Row.t) (k : nat) :
  continues sd k = false -> dist sd k = (0.5 * len_at sd k)%Q.
Proof.
  destruct k as [|k']; [reflexivity|]. intros H.
  change (dist sd (S k'))
    with (if continues sd (S k')
          then (dist sd k' + (len_at sd k' * 0.5 + len_at sd (S k') * 0.5))%Q
          else (0.5 * len_at sd (S k'))%Q).
  rewrite H. reflexivity.
Qed.

Lemma dist_next (sd : list Row.t) (k' : nat) :
  continues sd (S k') = true ->
  dist sd (S k') = (dist sd k' + (len_at sd k' * 0.5 + len_at sd (S k') * 0.5))%Q.
Proof.
  intros H.
  change (dist sd (S k'))
    with (if continues sd (S k')
          then (dist sd k' + (len_at sd k' * 0.5 + len_at sd (S k') * 0.5))%Q
          else (0.5 * len_at sd (S k'))%Q).
  rewrite H. reflexivity.
Qed.


(** ** Streams: the records *)

Lemma foldM_collect {A B} (R : A -> B -> Prop)
    (f : A -> list B -> result (list B)) (l : list A) :
  (forall x acc, x ∈ l -> exists y, f x acc = Ok (acc ++ [y]) /\ R x y) ->
  forall acc, exists ys, foldM f l acc = Ok (acc ++ ys) /\ Forall2 R l ys.
Proof.
  induction l as [|x l IH]; intros Hf acc.
  - exists []. rewrite app_nil_r. split; [reflexivity|constructor].
  - destruct (Hf x acc (list_elem_of_here _ _)) as (y & Hy & Ry).
    destruct (IH (fun z a Hz => Hf z a (list_elem_of_further _ _ _ Hz)) (acc ++ [y]))
      as (ys & Hys & Rys).
    exists (y :: ys). cbn [foldM]. rewrite Hy. cbn [rbind].
    rewrite Hys, <- app_assoc. split; [reflexivity|constructor; assumption].
Qed.

Lemma enumerate_lookup_inv {A} (l : list A) (k : nat) (i : Z) (x : A) :
  enumerate l !! k = Some (i, x) -> i = Z.of_nat k /\ l !! k = Some x.
Proof.
  intros H. pose proof (lookup_lt_Some _ _ _ H) as Hk. rewrite length_enumerate in Hk.
  destruct (lookup_lt_is_Some_2 l k Hk) as [y Hy].
  rewrite (enumerate_lookup _ _ _ Hy) in H. injection H as <- <-. auto.
Qed.

Lemma append_at_length (cd cd' : list (list Z)) (i x : Z) :
  append_at cd i x = Ok cd' -> length cd' = length cd.
Proof.
  unfold append_at. intros (l & _ & H)%rbind_Ok. unfold setitem in H.
  destruct (py_index (length cd) i); [|discriminate].
  injection H as <-. apply length_insert.
Qed.

Lemma append_at_total (cd : list (list Z)) (i x : Z) :
  0 <= i < Z.of_nat (length cd) ->
  exists cd', append_at cd i x = Ok cd' /\ length cd' = length cd.
Proof.
  intros H.
  destruct (append_at_in_range cd i x (Z.to_nat i) (py_index_nonneg _ _ H)) as [cd' E].
  exists cd'. split; [exact E|]. eapply append_at_length, E.
Qed.

Lemma extra_connections_total (cd : list (list Z)) :
  (32 <= length cd)%nat ->
  exists cd', extra_connections cd = Ok cd' /\ length cd' = length cd.
Proof.
  intros H. unfold extra_connections.
  destruct (append_at_total cd 17 (-31)) as (c1 & -> & L1); [lia|]. cbn [rbind].
  destruct (append_at_total c1 31 17) as (c2 & -> & L2); [lia|]. cbn [rbind].
  destruct (append_at_total c2 30 (-31)) as (c3 & -> & L3); [lia|]. cbn [rbind].
  destruct (append_at_total c3 31 30) as (c4 & -> & L4); [lia|].
  exists c4. split; [reflexivity|lia].
Qed.

(** With fewer than 32 reaches the extra connections raise. *)
Lemma extra_connections_short (cd : list (list Z)) :
  (length cd < 32)%nat -> extra_connections cd = Raise IndexError.
Proof.
  intros H. unfold extra_connections.
  destruct (append_at cd 17 (-31)) as [c1|e] eqn:E1; cbn [rbind].
  - apply append_at_length in E1. unfold append_at at 1, getitem.
    rewrite py_index_None by lia. reflexivity.
  - f_equal. unfold append_at in E1.
    destruct (getitem cd 17) as [l|e'] eqn:E; cbn [rbind] in E1.
    + eapply setitem_raise, E1.
    + injection E1 as <-. eapply getitem_raise, E.
Qed.

Lemma script_table_first (sd : list Row.t) :
  script_table sd -> first_segment_nonzero sd.
Proof.
  intros [_ H]. destruct sd as [|r sd]; [exact I|].
  apply Forall_cons in H as [H _]. simpl. lia.
Qed.

Lemma shape0_Ok (sd : list Row.t) :
  length sd <> 1%nat -> shape0 sd = Ok (Z.of_nat (length sd)).
Proof. destruct sd as [|r [|r' sd]]; simpl; intros H; [reflexivity|lia|reflexivity]. Qed.

Lemma shape0_one (sd : list Row.t) :
  length sd = 1%nat -> shape0 sd = Raise IndexError.
Proof. destruct sd as [|r [|r' sd]]; simpl; intros H; [lia|reflexivity|lia]. Qed.

(** One iteration of the last loop. *)
Lemma package_step_Ok (sd : list Row.t) (cd : list (list Z)) (das : list Q)
    (k : nat) (r : Row.t) (d : Q) (c : list Z) (acc : list reach) :
  1 <= Row.seg r <= 4 ->
  das !! k = Some d -> cd !! k = Some c ->
  let sl := map (segment_length sd) [1; 2; 3; 4] in
  let sg := map (fun x : Q * Q * Q => fdiv (Finite (x.1.1 - x.1.2)) (Finite x.2))
                (zip emaxmin sl) in
  exists rec,
    package_step sl sg cd das (Z.of_nat k, r) acc = Ok (acc ++ [rec]) /\
    rno rec = Z.of_nat k /\ rlen rec = Row.length r /\
    rgrd rec = fdiv (Finite ((segment_bounds (Row.seg r - 1)).1
                             - (segment_bounds (Row.seg r - 1)).2))
                    (Finite (segment_length sd (Row.seg r))) /\
    rtp rec = fsub (Finite (segment_bounds (Row.seg r - 1)).1)
                (fmul (fdiv (Finite d) (Finite (segment_length sd (Row.seg r))))
                      (Finite ((segment_bounds (Row.seg r - 1)).1
                               - (segment_bounds (Row.seg r - 1)).2))).
Proof.
  intros Hs Hd Hc sl sg. unfold package_step.
  rewrite (getitem_nat das k d Hd), (getitem_nat cd k c Hc).
  destruct r as [s ly rw cl len]. cbn [Row.seg Row.layer Row.row Row.col Row.length] in *.
  assert (s = 1 \/ s = 2 \/ s = 3 \/ s = 4) as [-> | [-> | [-> | ->]]] by lia;
    (eexists; split; [reflexivity|]; repeat split).
Qed.

(** On a table of the script's kind the function returns one record per
    reach, with the geometry of [reach_geometry], and the first loop's
    connections extended by the four extra ones. *)
Lemma get_stream_data_Ok (sd : list Row.t) :
  script_table sd ->
  exists pd cd,
    get_stream_data sd = Ok (pd, cd) /\
    extra_connections (connectiondata (pass_after sd (length sd))) = Ok cd /\
    length pd = length sd /\
    forall k r, sd !! k = Some r ->
      exists rec, pd !! k = Some rec /\ reach_geometry sd k r rec.
Proof.
  intros Ht. pose proof Ht as [Hlen Hseg].
  unfold get_stream_data.
  rewrite shape0_Ok by lia. cbn [rbind].
  rewrite (connectivity_pass_Ok sd (script_table_first sd Ht)). cbn [rbind].
  destruct (extra_connections_total (connectiondata (pass_after sd (length sd))))
    as (cd & Hcd & Lcd).
  { cbn [connectiondata pass_after]. rewrite length_map, length_seq. exact Hlen. }
  rewrite Hcd. cbn [rbind].
  cbn [connectiondata pass_after] in Lcd. rewrite length_map, length_seq in Lcd.
  set (sl := map (segment_length sd) [1; 2; 3; 4]).
  set (sg := map (fun x : Q * Q * Q => fdiv (Finite (x.1.1 - x.1.2)) (Finite x.2))
                 (zip emaxmin sl)).
  assert (foldM (fun '(iseg, (emax, emin)) segment_gradients =>
                   let* l := getitem sl iseg in
                   Ok (segment_gradients ++ [fdiv (Finite (emax - emin)) (Finite l)]))
                (enumerate emaxmin) [] = Ok sg) as -> by reflexivity.
  cbn [rbind].
  destruct (foldM_collect
              (fun (x : Z * Row.t) rec =>
                 exists k, x.1 = Z.of_nat k /\ reach_geometry sd k x.2 rec)
              (package_step sl sg cd (distance_along_segment (pass_after sd (length sd))))
              (enumerate sd)) with (acc := @nil reach) as (pd & Hpd & Rpd).
  { intros [i r] acc Hx. apply list_elem_of_lookup in Hx as (k & Hx).
    apply enumerate_lookup_inv in Hx as [-> Hr].
    pose proof (lookup_lt_Some _ _ _ Hr) as Hk.
    destruct (lookup_lt_is_Some_2 cd k) as [c Hc]; [lia|].
    rewrite Forall_forall in Hseg.
    destruct (package_step_Ok sd cd (distance_along_segment (pass_after sd (length sd)))
                k r (dist sd k) c acc) as (rec & E & H1 & H2 & H3 & H4).
    - apply Hseg. eapply list_elem_of_lookup_2, Hr.
    - cbn [distance_along_segment pass_after]. apply lookup_map_seq, Hk.
    - exact Hc.
    - exists rec. split; [exact E|]. exists k. split; [reflexivity|].
      repeat split; assumption. }
  rewrite Hpd. cbn [rbind app].
  exists pd, cd. split; [reflexivity|]. split; [reflexivity|].
  split.
  - apply Forall2_length in Rpd. rewrite length_enumerate in Rpd. lia.
  - intros k r Hr.
    destruct (Forall2_lookup_l _ _ _ _ _ Rpd (enumerate_lookup _ _ _ Hr))
      as (rec & Hrec & k' & Hk' & Hg).
    cbn [fst snd] in *. apply Nat2Z.inj in Hk'. subst k'.
    exists rec. split; assumption.
Qed.

(** ** Streams: bounds on the distance along the segment *)

Lemma qsum_app (l1 l2 : list Q) : (qsum (l1 ++ l2) == qsum l1 + qsum l2)%Q.
Proof.
  induction l1 as [|x l1 IH]; simpl.
  - lra.
  - unfold qsum in *. simpl. rewrite IH. lra.
Qed.

Lemma segment_length_app (l1 l2 : list Row.t) (s : Z) :
  (segment_length (l1 ++ l2) s == segment_length l1 s + segment_length l2 s)%Q.
Proof.
  unfold segment_length, lengths. rewrite filter_app, map_app. apply qsum_app.
Qed.

Lemma segment_length_nonneg (l : list Row.t) (s : Z) :
  Forall (fun r => 0 < Row.length r)%Q l -> (0 <= segment_length l s)%Q.
Proof.
  unfold segment_length, lengths, qsum.
  induction 1 as [|r l Hr _ IH]; [simpl; lra|].
  destruct (decide (Row.seg r = s)) as [E|E].
  - rewrite filter_cons_True by exact E. simpl. lra.
  - rewrite filter_cons_False by exact E. exact IH.
Qed.

Lemma segment_length_one (r : Row.t) (s : Z) :
  (segment_length [r] s == if decide (Row.seg r = s) then Row.length r else 0)%Q.
Proof.
  unfold segment_length, lengths, qsum.
  destruct (decide (Row.seg r = s)) as [E|E].
  - rewrite filter_cons_True by exact E. simpl. lra.
  - rewrite filter_cons_False by exact E. simpl. lra.
Qed.

Lemma length_before_succ (sd : list Row.t) (k : nat) (r : Row.t) (s : Z) :
  sd !! k = Some r ->
  (length_before sd (S k) s ==
   length_before sd k s + if decide (Row.seg r = s) then Row.length r else 0)%Q.
Proof.
  intros Hr. unfold length_before.
  rewrite (take_S_r _ _ _ Hr), segment_length_app, segment_length_one. reflexivity.
Qed.

Lemma length_before_le (sd : list Row.t) (k : nat) (s : Z) :
  Forall (fun r => 0 < Row.length r)%Q sd ->
  (length_before sd k s <= segment_length sd s)%Q.
Proof.
  intros H. unfold length_before.
  rewrite <- (take_drop k sd) at 2. rewrite segment_length_app.
  pose proof (segment_length_nonneg (drop k sd) s (Forall_drop _ k _ H)). lra.
Qed.

Lemma length_before_nonneg (sd : list Row.t) (k : nat) (s : Z) :
  Forall (fun r => 0 < Row.length r)%Q sd -> (0 <= length_before sd k s)%Q.
Proof.
  intros H. apply segment_length_nonneg, Forall_take, H.
Qed.

Lemma continues_seg (sd : list Row.t) (k' : nat) (r' r : Row.t) :
  sd !! k' = Some r' -> sd !! S k' = Some r ->
  continues sd (S k') = true -> Row.seg r' = Row.seg r.
Proof.
  intros H' H. unfold continues, same_segment. rewrite H', H.
  apply Z.eqb_eq.
Qed.

(** The running distance is at least half the length of the reach, and with
    the other half it stays within the length of the segment so far. *)
Lemma dist_bounds (sd : list Row.t) (k : nat) (r : Row.t) :
  Forall (fun r => 0 < Row.length r)%Q sd ->
  sd !! k = Some r ->
  (Row.length r / 2 <= dist sd k /\
   dist sd k + Row.length r / 2 <= length_before sd (S k) (Row.seg r))%Q.
Proof.
  intros Hpos. revert r. induction k as [|k' IH]; intros r Hr.
  - rewrite (length_before_succ _ _ _ _ Hr), decide_True by reflexivity.
    pose proof (length_before_nonneg sd 0 (Row.seg r) Hpos).
    rewrite (dist_first sd 0 eq_refl), (len_at_lookup _ _ _ Hr).
    split; qlra.
  - destruct (lookup_lt_is_Some_2 sd k') as [r' Hr'];
      [apply lookup_lt_Some in Hr; lia|].
    destruct (IH r' Hr') as [IH1 IH2].
    rewrite (length_before_succ _ _ _ _ Hr), decide_True by reflexivity.
    destruct (continues sd (S k')) eqn:Ec.
    + rewrite (dist_next _ _ Ec), (len_at_lookup _ _ _ Hr), (len_at_lookup _ _ _ Hr').
      rewrite <- (continues_seg _ _ _ _ Hr' Hr Ec).
      assert (0 < Row.length r')%Q
        by (rewrite Forall_forall in Hpos; eapply Hpos, list_elem_of_lookup_2, Hr').
      split; qlra.
    + rewrite (dist_first _ _ Ec), (len_at_lookup _ _ _ Hr).
      pose proof (length_before_nonneg sd (S k') (Row.seg r) Hpos).
      split; qlra.
Qed.

Lemma Qzero_b_pos (q : Q) : (0 < q)%Q -> Qzero_b q = false.
Proof.
  intros H. unfold Qzero_b. apply Qgt_alt in H. rewrite H. reflexivity.
Qed.

Lemma Qzero_b_zero (q : Q) : (q == 0)%Q -> Qzero_b q = true.
Proof.
  intros H. unfold Qzero_b. apply Qeq_alt in H. rewrite H. reflexivity.
Qed.

(** Each declared segment has its top above its bottom. *)
Lemma segment_bounds_ordered (s : Z) :
  1 <= s <= 4 -> ((segment_bounds (s - 1)).2 < (segment_bounds (s - 1)).1)%Q.
Proof.
  intros H. assert (s = 1 \/ s = 2 \/ s = 3 \/ s = 4) as [-> | [-> | [-> | ->]]] by lia;
    reflexivity.
Qed.

Lemma segment_length_pos (sd : list Row.t) (k : nat) (r : Row.t) :
  Forall (fun r => 0 < Row.length r)%Q sd ->
  sd !! k = Some r ->
  (0 < dist sd k /\ dist sd k <= segment_length sd (Row.seg r))%Q.
Proof.
  intros Hpos Hr. destruct (dist_bounds sd k r Hpos Hr) as [H1 H2].
  pose proof (length_before_le sd (S k) (Row.seg r) Hpos) as H3.
  assert (0 < Row.length r)%Q as H4
    by (rewrite Forall_forall in Hpos; eapply Hpos, list_elem_of_lookup_2, Hr).
  split; qlra.
Qed.

Lemma ratio_bounds (d l : Q) : (0 < d -> d <= l -> 0 <= d / l <= 1)%Q.
Proof.
  intros Hd Hl. assert (0 < l)%Q as Hl0 by lra. split.
  - apply Qle_shift_div_l; [exact Hl0|]. lra.
  - apply Qle_shift_div_r; [exact Hl0|]. lra.
Qed.

Lemma interpolation_bounds (emax emin t : Q) :
  (emin <= emax -> 0 <= t <= 1 ->
   emin <= emax - t * (emax - emin) <= emax)%Q.
Proof. intros H [H0 H1]. split; nra. Qed.

Lemma interpolation_mono (emax emin t t' : Q) :
  (emin <= emax -> t' <= t ->
   emax - t * (emax - emin) <= emax - t' * (emax - emin))%Q.
Proof. intros H Ht. nra. Qed.

(** The interpolation in exact arithmetic.  With the rational operations
    of this model in place of float64, on a table of the script's kind with
    positive reach lengths the channel-top elevation of every reach is the
    top elevation of its segment minus (distance along the segment / total
    length of the segment) times (top - bottom); it lies between the bottom
    and the top elevation of the segment, and it does not increase from a
    reach to the next reach of the same segment.  The float64 values that
    the code computes are those of [F64.get_stream_data]. *)
Lemma channel_top_exact (sd : list Row.t) :
  script_table sd ->
  Forall (fun r => 0 < Row.length r)%Q sd ->
  exists st pd cd,
    connectivity_pass sd = Ok st /\
    get_stream_data sd = Ok (pd, cd) /\
    forall k r, sd !! k = Some r ->
      let emax := (segment_bounds (Row.seg r - 1)).1 in
      let emin := (segment_bounds (Row.seg r - 1)).2 in
      exists d rec q,
        distance_along_segment st !! k = Some d /\
        pd !! k = Some rec /\
        rtp rec = Finite q /\
        (emin <= emax)%Q /\
        (q == emax - d / segment_length sd (Row.seg r) * (emax - emin))%Q /\
        (emin <= q <= emax)%Q /\
        forall k' rec' q',
          k = S k' -> continues sd k = true ->
          pd !! k' = Some rec' -> rtp rec' = Finite q' -> (q <= q')%Q.
Proof.
  intros Ht Hpos.
  destruct (get_stream_data_Ok sd Ht) as (pd & cd & Hget & _ & Hlen & Hrec).
  exists (pass_after sd (length sd)), pd, cd.
  split; [apply connectivity_pass_Ok, script_table_first, Ht|].
  split; [exact Hget|].
  assert (forall k r rec, sd !! k = Some r -> pd !! k = Some rec ->
            rtp rec = Finite ((segment_bounds (Row.seg r - 1)).1
                              - dist sd k / segment_length sd (Row.seg r)
                                * ((segment_bounds (Row.seg r - 1)).1
                                   - (segment_bounds (Row.seg r - 1)).2))) as Hrtp.
  { intros k r rec Hr Hp. destruct (Hrec k r Hr) as (rec0 & Hp0 & _ & _ & _ & Hq).
    assert (rec0 = rec) as -> by congruence.
    rewrite Hq. unfold fdiv. rewrite Qzero_b_pos; [reflexivity|].
    destruct (segment_length_pos sd k r Hpos Hr). lra. }
  assert (forall r, r ∈ sd -> 1 <= Row.seg r <= 4) as Hseg
    by (destruct Ht as [_ Hs]; rewrite Forall_forall in Hs; exact Hs).
  intros k r Hr emax emin.
  pose proof (lookup_lt_Some _ _ _ Hr) as Hk.
  destruct (Hrec k r Hr) as (rec & Hp & _).
  exists (dist sd k), rec. eexists.
  split; [cbn [distance_along_segment pass_after]; apply lookup_map_seq, Hk|].
  split; [exact Hp|]. split; [apply (Hrtp k r rec Hr Hp)|].
  pose proof (segment_bounds_ordered _ (Hseg r (list_elem_of_lookup_2 _ _ _ Hr))) as Hord.
  fold emax emin in Hord |- *.
  assert (emin <= emax)%Q as Hle by lra.
  destruct (segment_length_pos sd k r Hpos Hr) as [Hd0 HdL].
  split; [exact Hle|]. split; [reflexivity|]. split.
  - apply interpolation_bounds; [exact Hle|]. apply ratio_bounds; assumption.
  - intros k' rec' q' -> Hc Hp' Hq'.
    destruct (lookup_lt_is_Some_2 sd k') as [r' Hr']; [lia|].
    rewrite (Hrtp k' r' rec' Hr' Hp') in Hq'. injection Hq' as <-.
    rewrite (continues_seg _ _ _ _ Hr' Hr Hc). fold emax emin.
    apply interpolation_mono; [exact Hle|].
    assert (0 < segment_length sd (Row.seg r))%Q as HL by lra.
    apply Qmult_le_compat_r; [|apply Qinv_le_0_compat; lra].
    rewrite (dist_next _ _ Hc), (len_at_lookup _ _ _ Hr), (len_at_lookup _ _ _ Hr').
    assert (0 < Row.length r /\ 0 < Row.length r')%Q as [H1 H2].
    { rewrite Forall_forall in Hpos.
      split; eapply Hpos, list_elem_of_lookup_2; eassumption. }
    lra.
Qed.

(** ** Streams: a segment of zero length *)

Lemma Qneg_b_pos (q : Q) : (0 < q)%Q -> Qneg_b q = false.
Proof.
  intros H. unfold Qneg_b. apply Qgt_alt in H. rewrite H. reflexivity.
Qed.

(** C2, as the code has it. On a table of the script's kind the function
    returns, whatever the lengths: for a reach of a segment whose total
    length is zero, the quotient (top - bottom) / total length stored as its
    bed slope is +Infinity, and its channel-top elevation is an infinity or
    NaN. *)
Theorem zero_length_segment_slope (sd : list Row.t) :
  script_table sd ->
  exists pd cd,
    get_stream_data sd = Ok (pd, cd) /\
    forall k r, sd !! k = Some r ->
      (segment_length sd (Row.seg r) == 0)%Q ->
      exists rec,
        pd !! k = Some rec /\
        rgrd rec = Infinity false /\
        forall q, rtp rec <> Finite q.
Proof.
  intros Ht.
  destruct (get_stream_data_Ok sd Ht) as (pd & cd & Hget & _ & _ & Hrec).
  exists pd, cd. split; [exact Hget|].
  intros k r Hr Hzero.
  destruct (Hrec k r Hr) as (rec & Hp & _ & _ & Hg & Hq).
  exists rec. split; [exact Hp|].
  assert (1 <= Row.seg r <= 4) as Hs.
  { destruct Ht as [_ Hs]. rewrite Forall_forall in Hs.
    eapply Hs, list_elem_of_lookup_2, Hr. }
  pose proof (segment_bounds_ordered _ Hs) as Hord.
  set (emax := (segment_bounds (Row.seg r - 1)).1) in *.
  set (emin := (segment_bounds (Row.seg r - 1)).2) in *.
  assert (0 < emax - emin)%Q as Hc by lra.
  split.
  - rewrite Hg. unfold fdiv.
    rewrite (Qzero_b_zero _ Hzero), (Qzero_b_pos _ Hc), (Qneg_b_pos _ Hc). reflexivity.
  - intros q. rewrite Hq. unfold fdiv. rewrite (Qzero_b_zero _ Hzero).
    destruct (Qzero_b (dist sd k)); cbn [fmul fsub]; [discriminate|].
    rewrite (Qzero_b_pos _ Hc). discriminate.
Qed.

(** C2, counterexample. The segment 2 of [dry_table] has total length zero;
    the function returns its 32 records, and the record of reach 8, the first
    of segment 2, has bed slope +Infinity and channel-top elevation NaN. *)
Lemma zero_length_segment_returns :
  (segment_length dry_table 2 == 0)%Q /\
  exists pd cd,
    get_stream_data dry_table = Ok (pd, cd) /\
    length pd = 32%nat /\
    rgrd <$> pd !! 8%nat = Some (Infinity false) /\
    rtp <$> pd !! 8%nat = Some NaN.
Proof.
  split; [reflexivity|].
  eexists. eexists. split; [vm_compute; reflexivity|].
  repeat split.
Qed.

(** ** The lake function over the object store *)

Section HeapFacts.
Variables (nrow ncol : Z) (delr delc lakebed_leakance : Q).
Variables (base : Heap.heap) (lakibd idomain : Heap.loc).
Variables (a : array2) (d : array3).
Hypothesis lakibd_object : base !! lakibd = Some (Heap.Grid a).
Hypothesis idomain_object : base !! idomain = Some (Heap.Mask d).

Lemma heap_of_base (st : lakestate) (l : Heap.loc) (o : Heap.obj) :
  base !! l = Some o -> Heap.heap_of base st !! l = Some o.
Proof. intros H. unfold Heap.heap_of. apply lookup_app_l_Some, H. Qed.

Lemma heap_of_conns (st : lakestate) :
  Heap.heap_of base st !! length base = Some (Heap.Conns st.1).
Proof.
  unfold Heap.heap_of. rewrite lookup_app_r by lia.
  rewrite Nat.sub_diag. reflexivity.
Qed.

Lemma heap_of_ints (st : lakestate) :
  Heap.heap_of base st !! S (length base) = Some (Heap.Ints st.2).
Proof.
  unfold Heap.heap_of. rewrite lookup_app_r by lia.
  replace (S (length base) - length base)%nat with 1%nat by lia. reflexivity.
Qed.

Lemma heap_of_set_ints (st : lakestate) (l : list Z) :
  <[S (length base):=Heap.Ints l]> (Heap.heap_of base st)
  = Heap.heap_of base (st.1, l).
Proof.
  unfold Heap.heap_of. rewrite insert_app_r_alt by lia.
  replace (S (length base) - length base)%nat with 1%nat by lia. reflexivity.
Qed.

Lemma heap_of_set_conns (st : lakestate) (l : list lakecon) :
  <[length base:=Heap.Conns l]> (Heap.heap_of base st)
  = Heap.heap_of base (l, st.2).
Proof.
  unfold Heap.heap_of. rewrite insert_app_r_alt by lia.
  rewrite Nat.sub_diag. reflexivity.
Qed.

Lemma grid_at_heap_of (st : lakestate) (i j : Z) :
  Heap.grid_at lakibd i j (Heap.heap_of base st)
  = (getitem2 a i j, Heap.heap_of base st).
Proof.
  unfold Heap.grid_at. rewrite (heap_of_base st _ _ lakibd_object). reflexivity.
Qed.

Lemma mask_at_heap_of (st : lakestate) (k i j : Z) :
  Heap.mask_at idomain k i j (Heap.heap_of base st)
  = (getitem3 d k i j, Heap.heap_of base st).
Proof.
  unfold Heap.mask_at. rewrite (heap_of_base st _ _ idomain_object). reflexivity.
Qed.

Lemma open_neighbor_heap_of (st : lakestate) (i j : Z) :
  Heap.open_neighbor lakibd idomain i j (Heap.heap_of base st)
  = (open_neighbor a d i j, Heap.heap_of base st).
Proof.
  unfold Heap.open_neighbor, open_neighbor, Heap.bind.
  rewrite grid_at_heap_of. destruct (getitem2 a i j) as [v|e]; [|reflexivity].
  cbn [rbind]. destruct (v =? 0); [|reflexivity].
  rewrite mask_at_heap_of. destruct (getitem3 d 0 i j); reflexivity.
Qed.

Lemma left_neighbor_heap_of (st : lakestate) (i j : Z) :
  Heap.left_neighbor lakibd idomain i j (Heap.heap_of base st)
  = (left_neighbor a d i j, Heap.heap_of base st).
Proof.
  unfold Heap.left_neighbor, left_neighbor, Heap.bind.
  rewrite grid_at_heap_of. destruct (getitem2 a i j) as [v|e]; [|reflexivity].
  cbn [rbind]. destruct (negb (v =? 0)); [|reflexivity].
  rewrite mask_at_heap_of. destruct (getitem3 d 0 i j); reflexivity.
Qed.

Lemma simulates_ret : Heap.simulates base (Heap.ret tt) Ok.
Proof.
  intros st. exists st. split; [reflexivity|]. intros st' [= <-]. reflexivity.
Qed.

Lemma simulates_bind (m1 m2 : Heap.M unit) (f1 f2 : lakestate -> result lakestate) :
  Heap.simulates base m1 f1 -> Heap.simulates base m2 f2 ->
  Heap.simulates base (Heap.bind m1 (fun _ => m2)) (fun st => rbind (f1 st) f2).
Proof.
  intros H1 H2 st. destruct (H1 st) as (st1 & E1 & K1).
  unfold Heap.bind. rewrite E1.
  destruct (f1 st) as [s1|e]; cbn [rbind].
  - rewrite (K1 s1 eq_refl). apply H2.
  - exists st1. split; [reflexivity|]. discriminate.
Qed.

Lemma ints_get_heap_of (st : lakestate) (i : Z) :
  Heap.ints_get (S (length base)) i (Heap.heap_of base st)
  = (getitem st.2 i, Heap.heap_of base st).
Proof. unfold Heap.ints_get. rewrite heap_of_ints. reflexivity. Qed.

Lemma ints_set_heap_of (st : lakestate) (i v : Z) :
  Heap.ints_set (S (length base)) i v (Heap.heap_of base st)
  = match setitem st.2 i v with
    | Ok l => (Ok tt, Heap.heap_of base (st.1, l))
    | Raise e => (Raise e, Heap.heap_of base st)
    end.
Proof.
  unfold Heap.ints_set. rewrite heap_of_ints.
  destruct (setitem st.2 i v); [|reflexivity].
  rewrite heap_of_set_ints. reflexivity.
Qed.

Lemma conns_append_heap_of (st : lakestate) (r : lakecon) :
  Heap.conns_append (length base) r (Heap.heap_of base st)
  = (Ok tt, Heap.heap_of base (st.1 ++ [r], st.2)).
Proof.
  unfold Heap.conns_append. rewrite heap_of_conns, heap_of_set_conns. reflexivity.
Qed.

Lemma bind_run {A B} (m : Heap.M A) (f : A -> Heap.M B) (h : Heap.heap) :
  Heap.bind m f h
  = match m h with
    | (Ok x, h') => f x h'
    | (Raise e, h') => (Raise e, h')
    end.
Proof. reflexivity. Qed.

Lemma append_connection_simulates ilak cell kind len wid :
  Heap.simulates base
    (Heap.append_connection lakebed_leakance (length base) (S (length base))
       ilak cell kind len wid)
    (append_connection lakebed_leakance ilak cell kind len wid).
Proof.
  intros [recs cnt].
  unfold Heap.append_connection, append_connection.
  rewrite bind_run, ints_get_heap_of. cbn [snd].
  destruct (getitem cnt ilak) as [n|e] eqn:E; cbn [rbind];
    [|exists (recs, cnt); split; [reflexivity|discriminate]].
  rewrite bind_run, ints_get_heap_of. cbn [snd]. rewrite E.
  rewrite bind_run, ints_set_heap_of. cbn [fst snd].
  destruct (setitem cnt ilak (n + 1)) as [cnt'|e]; cbn [rbind];
    [|exists (recs, cnt); split; [reflexivity|discriminate]].
  rewrite conns_append_heap_of. cbn [fst snd].
  eexists. split; [reflexivity|]. intros st' [= <-]. reflexivity.
Qed.

Lemma horizontal_simulates guard (test : Heap.M bool) (t : result bool)
    ilak cell len wid :
  (forall st, test (Heap.heap_of base st) = (t, Heap.heap_of base st)) ->
  Heap.simulates base
    (Heap.horizontal lakebed_leakance (length base) (S (length base))
       guard test ilak cell len wid)
    (horizontal lakebed_leakance guard t ilak cell len wid).
Proof.
  intros Ht. unfold Heap.horizontal, horizontal.
  destruct guard; [|apply simulates_ret].
  intros st. unfold Heap.bind. rewrite Ht.
  destruct t as [[]|e]; cbn [rbind].
  - apply append_connection_simulates.
  - apply simulates_ret.
  - exists st. split; [reflexivity|discriminate].
Qed.

Lemma visit_simulates (i j : Z) :
  Heap.simulates base
    (Heap.visit nrow ncol delr delc lakebed_leakance lakibd idomain
       (length base) (S (length base)) i j)
    (visit nrow ncol delr delc lakebed_leakance a d i j).
Proof.
  intros st. unfold Heap.visit, visit.
  unfold Heap.bind at 1. rewrite grid_at_heap_of.
  destruct (getitem2 a i j) as [v|e]; cbn [rbind];
    [|exists st; split; [reflexivity|discriminate]].
  destruct (v =? 0); [apply simulates_ret|].
  revert st.
  repeat (apply simulates_bind;
          [apply horizontal_simulates; intros st;
           first [apply open_neighbor_heap_of | apply left_neighbor_heap_of]|]).
  apply append_connection_simulates.
Qed.

Lemma forM_simulates {A} (f : A -> Heap.M unit)
    (g : A -> lakestate -> result lakestate) (l : list A) :
  (forall x, Heap.simulates base (f x) (g x)) ->
  Heap.simulates base (Heap.forM f l) (foldM g l).
Proof.
  intros H. induction l as [|x l IH].
  - apply simulates_ret.
  - cbn [Heap.forM foldM]. apply simulates_bind; [apply H|exact IH].
Qed.

Lemma scan_simulates :
  Heap.simulates base
    (Heap.scan nrow ncol delr delc lakebed_leakance lakibd idomain
       (length base) (S (length base)))
    (foldM (fun i => foldM (fun j => visit nrow ncol delr delc lakebed_leakance a d i j)
                           (range ncol)) (range nrow)).
Proof.
  unfold Heap.scan. apply forM_simulates. intros i.
  apply forM_simulates. intros j. apply visit_simulates.
Qed.

(** A call from the store [base]: the store it leaves is [base] followed by
    the two lists of the function, and the result is that of the function
    on the contents of the two arrays. *)
Lemma get_lake_connection_data_run :
  exists st,
    Heap.get_lake_connection_data nrow ncol delr delc lakebed_leakance
      lakibd idomain base
    = (match get_lake_connection_data nrow ncol delr delc lakebed_leakance a d with
       | Ok _ => Ok (length base, S (length base))
       | Raise e => Raise e
       end, Heap.heap_of base st) /\
    (forall st', get_lake_connection_data nrow ncol delr delc lakebed_leakance a d
                 = Ok st' -> st = st').
Proof.
  destruct (scan_simulates ([], [0; 0])) as (st & E & K).
  exists st. split; [|exact K].
  unfold Heap.get_lake_connection_data, Heap.bind, Heap.new.
  rewrite length_app, Nat.add_1_r, <- app_assoc.
  change (base ++ [Heap.Conns []] ++ [Heap.Ints [0; 0]])
    with (Heap.heap_of base ([], [0; 0])).
  rewrite E. unfold get_lake_connection_data.
  destruct (foldM _ _ _); reflexivity.
Qed.

End HeapFacts.

(** C10. Two calls of the function, from any two stores that hold equal
    grids and equal masks at the addresses passed (the store the first call
    leaves is one such store for the second), return lists of equal contents,
    those the function computes from the contents of the two arrays, or raise
    the same exception; and every object of the store before a call, the grid
    and the mask among them, is the same after it. *)
Theorem lake_builder_reads_only (nrow ncol : Z) (delr delc lakebed_leakance : Q)
    (h1 h2 : Heap.heap) (lakibd1 idomain1 lakibd2 idomain2 : Heap.loc)
    (a : array2) (d : array3) :
  h1 !! lakibd1 = Some (Heap.Grid a) -> h1 !! idomain1 = Some (Heap.Mask d) ->
  h2 !! lakibd2 = Some (Heap.Grid a) -> h2 !! idomain2 = Some (Heap.Mask d) ->
  let run1 := Heap.get_lake_connection_data nrow ncol delr delc lakebed_leakance
                lakibd1 idomain1 h1 in
  let run2 := Heap.get_lake_connection_data nrow ncol delr delc lakebed_leakance
                lakibd2 idomain2 h2 in
  (forall l o, h1 !! l = Some o -> run1.2 !! l = Some o) /\
  (forall l o, h2 !! l = Some o -> run2.2 !! l = Some o) /\
  Heap.value_of run1.1 run1.2 = Heap.value_of run2.1 run2.2 /\
  Heap.value_of run1.1 run1.2
  = match get_lake_connection_data nrow ncol delr delc lakebed_leakance a d with
    | Ok (recs, cnt) => Ok (Some (Heap.Conns recs), Some (Heap.Ints cnt))
    | Raise e => Raise e
    end.
Proof.
  intros Ha1 Hd1 Ha2 Hd2 run1 run2.
  assert (forall (h : Heap.heap) lk ld,
            h !! lk = Some (Heap.Grid a) -> h !! ld = Some (Heap.Mask d) ->
            let run := Heap.get_lake_connection_data nrow ncol delr delc
                         lakebed_leakance lk ld h in
            (forall l o, h !! l = Some o -> run.2 !! l = Some o) /\
            Heap.value_of run.1 run.2
            = match get_lake_connection_data nrow ncol delr delc lakebed_leakance a d with
              | Ok (recs, cnt) => Ok (Some (Heap.Conns recs), Some (Heap.Ints cnt))
              | Raise e => Raise e
              end) as Hrun.
  { intros h lk ld Ha Hd run.
    destruct (get_lake_connection_data_run nrow ncol delr delc lakebed_leakance
                h lk ld a d Ha Hd) as (st & E & K).
    subst run. rewrite E. cbn [fst snd]. split.
    - intros l o Hl. apply heap_of_base, Hl.
    - destruct (get_lake_connection_data nrow ncol delr delc lakebed_leakance a d)
        as [[recs cnt]|e]; [|reflexivity].
      rewrite (K _ eq_refl). cbn [Heap.value_of].
      rewrite heap_of_conns, heap_of_ints. reflexivity. }
  destruct (Hrun h1 lakibd1 idomain1 Ha1 Hd1) as [F1 V1].
  destruct (Hrun h2 lakibd2 idomain2 Ha2 Hd2) as [F2 V2].
  split; [exact F1|]. split; [exact F2|]. split; [|exact V1].
  fold run1 run2 in V1, V2. rewrite V1, V2. reflexivity.
Qed.

(** ** The theorems at sample inputs *)

Lemma connection_numbers_contiguous_witness :
  Forall (Forall (Z.le 0)) corner_lake /\
  get_lake_connection_data 2 2 Params.delr Params.delc Params.lakebed_leakance
    corner_lake corner_idomain = Ok (corner_records, [4; 0]) /\
  (forall L, 0 <= L < 2 ->
     map iconn (of_lake L corner_records)
       = range (Z.of_nat (length (of_lake L corner_records))) /\
     getitem [4; 0] L = Ok (Z.of_nat (length (of_lake L corner_records)))).
Proof.
  assert (Forall (Forall (Z.le 0)) corner_lake) as H1
    by (repeat constructor; lia).
  assert (get_lake_connection_data 2 2 Params.delr Params.delc Params.lakebed_leakance
            corner_lake corner_idomain = Ok (corner_records, [4; 0])) as H2
    by (vm_compute; reflexivity).
  split; [exact H1|]. split; [exact H2|].
  exact (proj1 (connection_numbers_contiguous 2 2 Params.delr Params.delc
                  Params.lakebed_leakance corner_lake corner_idomain
                  corner_records [4; 0] H1 H2)).
Defined.

Lemma connection_geometry_witness :
  get_lake_connection_data 2 2 Params.delr Params.delc Params.lakebed_leakance
    corner_lake corner_idomain = Ok (corner_records, [4; 0]) /\
  LakeCon 0 1 (0, 0, 0) "horizontal" 1 0 0 (Params.delc / 2) Params.delr
    ∈ corner_records /\
  exists i j v,
    0 <= i < 2 /\ 0 <= j < 2 /\
    getitem2 corner_lake i j = Ok v /\ v <> 0 /\ 0 = v - 1 /\
    geometry_of Params.delr Params.delc i j
      (LakeCon 0 1 (0, 0, 0) "horizontal" 1 0 0 (Params.delc / 2) Params.delr).
Proof.
  assert (get_lake_connection_data 2 2 Params.delr Params.delc Params.lakebed_leakance
            corner_lake corner_idomain = Ok (corner_records, [4; 0])) as H1
    by (vm_compute; reflexivity).
  assert (LakeCon 0 1 (0, 0, 0) "horizontal" 1 0 0 (Params.delc / 2) Params.delr
            ∈ corner_records) as H2
    by (right; left).
  split; [exact H1|]. split; [exact H2|].
  exact (connection_geometry 2 2 Params.delr Params.delc Params.lakebed_leakance
           corner_lake corner_idomain corner_records [4; 0] _ H1 H2).
Defined.

Lemma third_lake_raises_witness :
  0 <= 5 < Params.nrow /\ 0 <= 7 < Params.ncol /\
  getitem2 third_lake 5 7 = Ok 3 /\ 3 <= 3 /\
  Script.get_lake_connection_data third_lake (Script.full3 1) = Raise IndexError.
Proof.
  assert (0 <= 5 < Params.nrow) as H1 by (unfold Params.nrow; lia).
  assert (0 <= 7 < Params.ncol) as H2 by (unfold Params.ncol; lia).
  assert (getitem2 third_lake 5 7 = Ok 3) as H3 by reflexivity.
  assert (3 <= 3) as H4 by lia.
  repeat (split; [assumption|]).
  exact (third_lake_raises Params.nrow Params.ncol Params.delr Params.delc
           Params.lakebed_leakance third_lake (Script.full3 1) 5 7 3 H1 H2 H3 H4).
Defined.

Lemma automatic_links_witness :
  first_segment_nonzero short_table /\
  contiguous (segs short_table) = true /\
  exists st,
    connectivity_pass short_table = Ok st /\
    connectiondata st = [[0; -1]; [1; 0; -2]; [2; 1]; [3]] /\
    Z.of_nat (upstream_links (connectiondata st)) = 4 - 2.
Proof.
  assert (first_segment_nonzero short_table) as H1 by (simpl; lia).
  assert (contiguous (segs short_table) = true) as H2 by reflexivity.
  split; [exact H1|]. split; [exact H2|].
  destruct (automatic_links short_table H1 H2) as (st & E & _ & _ & Hu & _).
  exists st. split; [exact E|]. split; [|exact Hu].
  assert (Ok st = Ok (pass_after short_table 4)) as [= ->]
    by (rewrite <- E; vm_compute; reflexivity).
  reflexivity.
Defined.


Lemma wet_table_script : script_table wet_table.
Proof. split; [simpl; lia|]. repeat constructor; simpl; lia. Qed.

Lemma dry_table_script : script_table dry_table.
Proof. split; [simpl; lia|]. repeat constructor; simpl; lia. Qed.

Lemma zero_length_segment_slope_witness :
  script_table dry_table /\
  exists pd cd,
    get_stream_data dry_table = Ok (pd, cd) /\
    exists rec, pd !! 8%nat = Some rec /\ rgrd rec = Infinity false.
Proof.
  split; [exact dry_table_script|].
  destruct (zero_length_segment_slope dry_table dry_table_script)
    as (pd & cd & E & H).
  exists pd, cd. split; [exact E|].
  destruct (H 8%nat (Row.mk 2 1 1 1 0) eq_refl) as (rec & Hp & Hg & _);
    [reflexivity|].
  exists rec. split; assumption.
Defined.

Lemma lake_builder_reads_only_witness :
  let h1 := [Heap.Grid corner_lake; Heap.Mask corner_idomain] in
  let run1 := Heap.get_lake_connection_data 2 2 Params.delr Params.delc
                Params.lakebed_leakance 0%nat 1%nat h1 in
  let run2 := Heap.get_lake_connection_data 2 2 Params.delr Params.delc
                Params.lakebed_leakance 0%nat 1%nat run1.2 in
  h1 !! 0%nat = Some (Heap.Grid corner_lake) /\
  h1 !! 1%nat = Some (Heap.Mask corner_idomain) /\
  run1.2 !! 0%nat = Some (Heap.Grid corner_lake) /\
  run1.2 !! 1%nat = Some (Heap.Mask corner_idomain) /\
  (forall l o, h1 !! l = Some o -> run1.2 !! l = Some o) /\
  (forall l o, run1.2 !! l = Some o -> run2.2 !! l = Some o) /\
  Heap.value_of run1.1 run1.2 = Heap.value_of run2.1 run2.2 /\
  Heap.value_of run1.1 run1.2
  = Ok (Some (Heap.Conns corner_records), Some (Heap.Ints [4; 0])).
Proof.
  intros h1 run1 run2.
  assert (h1 !! 0%nat = Some (Heap.Grid corner_lake)) as H1 by reflexivity.
  assert (h1 !! 1%nat = Some (Heap.Mask corner_idomain)) as H2 by reflexivity.
  assert (run1.2 !! 0%nat = Some (Heap.Grid corner_lake)) as H3 by reflexivity.
  assert (run1.2 !! 1%nat = Some (Heap.Mask corner_idomain)) as H4 by reflexivity.
  repeat (split; [assumption|]).
  exact (lake_builder_reads_only 2 2 Params.delr Params.delc Params.lakebed_leakance
           h1 run1.2 0%nat 1%nat 0%nat 1%nat corner_lake corner_idomain
           H1 H2 H3 H4).
Defined.

(** ** Lake connections: counts, dry grids and grids out of shape *)

Section LakeCounts.
Variables (nrow ncol : Z) (delr delc lakebed_leakance : Q).
Variables (lakibd : array2) (idomain : array3).

Lemma emits_counters_total r st st' :
  counters_total st -> emits r st st' -> counters_total st'.
Proof.
  destruct st as [recs cnt].
  intros (n0 & n1 & Hc & H0 & H1 & Hs) (k & n & Hk & Hn & _ & ->).
  simpl in *. subst cnt. apply py_index_lt in Hk as Hlt. simpl in Hlt.
  unfold counters_total. simpl. rewrite length_app. simpl.
  destruct k as [|[|k]]; [| |lia]; simpl in Hn; injection Hn as <-.
  - exists (n0 + 1), n1. repeat split; lia.
  - exists n0, (n1 + 1). repeat split; lia.
Qed.

(** X1. When the function returns, its two counters are the connection
    counts that [build_mf6gwf] puts in [lakpackagedata]; they are not
    negative and they add up to the number of connection records. *)
Theorem lake_counts_add_up (recs : list lakecon) (nlakecon : list Z) :
  get_lake_connection_data nrow ncol delr delc lakebed_leakance lakibd idomain
    = Ok (recs, nlakecon) ->
  exists n0 n1,
    lakpackagedata nlakecon
      = Ok [(0, 44.0%Q, n0, "lake1"%string); (1, 35.2%Q, n1, "lake2"%string)] /\
    0 <= n0 /\ 0 <= n1 /\
    n0 + n1 = Z.of_nat (length recs).
Proof.
  intros H.
  assert (counters_total (recs, nlakecon)) as (n0 & n1 & Hc & H0 & H1 & Hs).
  { eapply (scan_invariant _ _ _ _ _ _ _ counters_total); [| |exact H].
    - intros i j s s' _ _. apply visit_invariant.
      intros r t t'. apply emits_counters_total.
    - exists 0, 0. simpl. repeat split; lia. }
  simpl in *. subst nlakecon. exists n0, n1. repeat split; assumption.
Qed.

(** X3. The number of records is at least the number of lake cells and at
    most five times that number. *)
Theorem lake_record_count_bounds (recs : list lakecon) (nlakecon : list Z) :
  get_lake_connection_data nrow ncol delr delc lakebed_leakance lakibd idomain
    = Ok (recs, nlakecon) ->
  (length (lake_cells nrow ncol lakibd) <= length recs
   <= 5 * length (lake_cells nrow ncol lakibd))%nat.
Proof.
  intros (gs & Hrecs & Hgs)%scan_groups. simpl in Hrecs. subst recs.
  induction Hgs as [|c g cs gs Hg _ IH]; [simpl; lia|].
  cbn [concat]. rewrite length_app. cbn [length].
  destruct Hg as (v & hs & vr & _ & _ & -> & Hh & _).
  apply Forall2_length in Hh.
  pose proof (length_filter (fun f => face_emitted nrow ncol lakibd idomain c.1 c.2 f = true)
                faces) as Hf.
  change (length faces) with 4%nat in Hf.
  rewrite length_app. cbn [length]. lia.
Qed.

Lemma foldM_fixed {A S} (f : A -> S -> result S) (l : list A) (s : S) :
  (forall x, x ∈ l -> f x s = Ok s) -> foldM f l s = Ok s.
Proof.
  induction l as [|x l IH]; intros H; [reflexivity|].
  cbn [foldM]. rewrite (H x) by left. cbn [rbind].
  apply IH. intros y Hy. apply H. right. exact Hy.
Qed.

(** X4. On a grid of the declared shape that holds only zeros the function
    returns no record and the counters [[0, 0]], whatever [idomain] is: the
    mask is not read. *)
Theorem dry_grid_no_connection :
  shape2 nrow ncol lakibd ->
  Forall (Forall (fun v => v = 0)) lakibd ->
  get_lake_connection_data nrow ncol delr delc lakebed_leakance lakibd idomain
    = Ok ([], [0; 0]).
Proof.
  intros Hshape Hzero. unfold get_lake_connection_data.
  apply foldM_fixed. intros i Hi%elem_of_range.
  apply foldM_fixed. intros j Hj%elem_of_range.
  unfold visit.
  destruct (getitem2_shape _ _ _ _ _ Hshape Hi Hj) as (v & Hv).
  rewrite Hv. cbn [rbind].
  apply getitem2_elem in Hv as (r & Hr & Hv).
  rewrite Forall_forall in Hzero. specialize (Hzero r Hr).
  rewrite Forall_forall in Hzero. rewrite (Hzero v Hv). reflexivity.
Qed.

(** X5. When a cell the two loops reach lies outside the grid, the function
    raises [IndexError]. *)
Theorem grid_out_of_shape_raises (i j : Z) (e : exn) :
  0 <= i < nrow -> 0 <= j < ncol ->
  getitem2 lakibd i j = Raise e ->
  get_lake_connection_data nrow ncol delr delc lakebed_leakance lakibd idomain
    = Raise IndexError.
Proof.
  intros Hi Hj He. unfold get_lake_connection_data.
  apply (foldM_raises (fun _ => True) IndexError _ _ i);
    [apply elem_of_range, Hi|auto| | |exact I].
  - intros y s e'. apply foldM_raise_kind. intros x t e''. apply visit_raise.
  - intros s _.
    apply (foldM_raises (fun _ => True) IndexError _ _ j);
      [apply elem_of_range, Hj|auto| | |exact I].
    + intros x t e'. apply visit_raise.
    + intros t _. unfold visit. rewrite He. cbn [rbind].
      f_equal. eapply getitem2_raise, He.
Qed.

(** The target of a horizontal record when no lake cell is inactive: the
    left block, which asks for an inactive lake cell, emits nothing, and the
    other three blocks emit toward active cells holding zero. *)
Lemma horizontal_target (recs : list lakecon) (nlakecon : list Z)
    (r : lakecon) :
  (forall i j v w, getitem2 lakibd i j = Ok v -> v <> 0 ->
                   getitem3 idomain 0 i j = Ok w -> w <> 0) ->
  get_lake_connection_data nrow ncol delr delc lakebed_leakance lakibd idomain
    = Ok (recs, nlakecon) ->
  r ∈ recs -> claktype r = "horizontal"%string ->
  exists i' j' w,
    0 <= i' < nrow /\ 0 <= j' < ncol /\
    cellid r = (0, i', j') /\
    getitem2 lakibd i' j' = Ok 0 /\
    getitem3 idomain 0 i' j' = Ok w /\ w <> 0.
Proof.
  intros Hact (gs & Hrecs & Hgs)%scan_groups Hr Hk. simpl in Hrecs. subst recs.
  apply list_elem_of_In, in_concat in Hr as (g & Hg & Hr).
  apply list_elem_of_In in Hg, Hr.
  apply list_elem_of_lookup in Hg as (n & Hn).
  destruct (Forall2_lookup_r _ _ _ _ _ Hgs Hn) as ([i j] & Hc & Hgrp).
  apply list_elem_of_lookup_2, elem_of_lake_cells in Hc as (Hi & Hj & _).
  destruct Hgrp as (v & hs & vr & _ & _ & -> & Hh & Hvr). simpl in *.
  apply elem_of_app in Hr as [Hr|Hr%list_elem_of_singleton].
  - apply list_elem_of_lookup in Hr as (m & Hm).
    destruct (Forall2_lookup_r _ _ _ _ _ Hh Hm) as (f & Hf & Hrec).
    apply list_elem_of_lookup_2, list_elem_of_filter in Hf as [Hem _].
    destruct Hrec as (_ & Hcell & _).
    assert (f = left \/ f <> left) as [->|Hnl]
      by (destruct f; (left; reflexivity) || (right; discriminate)).
    + exfalso. apply left_face_emitted in Hem as (_ & (a0 & Ha & Hne) & Hd).
      exact (Hact _ _ _ _ Ha Hne Hd eq_refl).
    + apply open_face_emitted in Hem as (Hb & Ha & w & Hw & Hne); [|exact Hnl].
      exists (neighbor f i j).1, (neighbor f i j).2, w.
      assert (0 <= (neighbor f i j).1 < nrow /\ 0 <= (neighbor f i j).2 < ncol)
        as [Hi' Hj'] by (destruct f; simpl in *; lia).
      split; [exact Hi'|]. split; [exact Hj'|]. split; [exact Hcell|]. auto.
  - subst r. destruct Hvr as (_ & _ & Hkind & _). rewrite Hkind in Hk. discriminate.
Qed.

(** X6. When every lake cell is active in layer 0 of [idomain], as it is
    before [build_mf6gwf] deactivates the lake cells, each horizontal record
    targets a cell of layer 0 that holds zero in [lakibd] and is active. *)
Theorem horizontal_targets_dry_active (recs : list lakecon) (nlakecon : list Z)
    (r : lakecon) :
  (forall i j v w, getitem2 lakibd i j = Ok v -> v <> 0 ->
                   getitem3 idomain 0 i j = Ok w -> w <> 0) ->
  get_lake_connection_data nrow ncol delr delc lakebed_leakance lakibd idomain
    = Ok (recs, nlakecon) ->
  r ∈ recs -> claktype r = "horizontal"%string ->
  exists i' j' w,
    0 <= i' < nrow /\ 0 <= j' < ncol /\
    cellid r = (0, i', j') /\
    getitem2 lakibd i' j' = Ok 0 /\
    getitem3 idomain 0 i' j' = Ok w /\ w <> 0.
Proof. apply horizontal_target. Qed.

End LakeCounts.

(** ** Arrays written in place *)

Lemma setitem_Ok {A} (l l' : list A) (i : Z) (x : A) :
  0 <= i -> setitem l i x = Ok l' ->
  i < Z.of_nat (length l) /\ l' = <[Z.to_nat i:=x]> l.
Proof.
  intros Hi. unfold setitem.
  destruct (py_index (length l) i) as [k|] eqn:E; [|discriminate].
  apply py_index_nonneg_inv in E as [Hlt ->]; [|exact Hi].
  intros [= <-]. auto.
Qed.

Lemma getitem_insert {A} (l : list A) (i i' : Z) (x : A) :
  0 <= i < Z.of_nat (length l) -> 0 <= i' ->
  getitem (<[Z.to_nat i:=x]> l) i' = if i' =? i then Ok x else getitem l i'.
Proof.
  intros Hi Hi'. unfold getitem. rewrite length_insert.
  destruct (Z.eqb_spec i' i) as [->|Hne].
  - rewrite py_index_nonneg by exact Hi.
    rewrite list_lookup_insert_eq by lia. reflexivity.
  - destruct (py_index (length l) i') as [k|] eqn:E; [|reflexivity].
    apply py_index_nonneg_inv in E as [_ ->]; [|exact Hi'].
    rewrite list_lookup_insert_ne by lia. reflexivity.
Qed.

Lemma getitem_nonneg_Ok {A} (l : list A) (i : Z) (x : A) :
  0 <= i -> getitem l i = Ok x ->
  i < Z.of_nat (length l) /\ l !! Z.to_nat i = Some x.
Proof.
  intros Hi (k & Hk & Hx)%getitem_Ok.
  apply py_index_nonneg_inv in Hk as [Hlt ->]; auto.
Qed.

(** Reading a rank-3 array after one assignment. *)
Lemma item3_setitem3 {A} (a a' : list (list (list A))) (k i j k' i' j' : Z) (x : A) :
  0 <= k -> 0 <= i -> 0 <= j -> 0 <= k' -> 0 <= i' -> 0 <= j' ->
  setitem3 a k i j x = Ok a' ->
  item3 a' k' i' j'
  = if (k' =? k) && (i' =? i) && (j' =? j) then Ok x else item3 a k' i' j'.
Proof.
  intros Hk Hi Hj Hk' Hi' Hj'. unfold setitem3.
  intros (p & Hp & (r & Hr & (r' & Hr' & (p' & Hp' & Ha)%rbind_Ok)%rbind_Ok)%rbind_Ok)%rbind_Ok.
  apply setitem_Ok in Hr' as [Lj ->]; [|exact Hj].
  apply setitem_Ok in Hp' as [Li ->]; [|exact Hi].
  apply setitem_Ok in Ha as [Lk ->]; [|exact Hk].
  unfold item3. rewrite getitem_insert by lia.
  destruct (Z.eqb_spec k' k) as [->|Hne]; cbn [andb]; [|reflexivity].
  rewrite Hp. cbn [rbind]. rewrite getitem_insert by lia.
  destruct (Z.eqb_spec i' i) as [->|Hne]; cbn [andb]; [|reflexivity].
  rewrite Hr. cbn [rbind]. rewrite getitem_insert by lia.
  destruct (Z.eqb_spec j' j); reflexivity.
Qed.

(** Reading a rank-3 array after a loop of assignments into layer 0, the
    value assigned at a position depending on the position only. *)
Lemma item3_painted {A} (val : Z * Z -> result A) (cells : list (Z * Z)) :
  Forall (fun c => 0 <= c.1 /\ 0 <= c.2) cells ->
  forall a a' : list (list (list A)),
  foldM (fun c a => let* x := val c in setitem3 a 0 c.1 c.2 x) cells a = Ok a' ->
  forall k i j, 0 <= k -> 0 <= i -> 0 <= j ->
    item3 a' k i j
    = if (k =? 0) && bool_decide ((i, j) ∈ cells) then val (i, j)
      else item3 a k i j.
Proof.
  induction 1 as [|c cells [Hc1 Hc2] _ IH]; intros a a' Hfold k i j Hk Hi Hj.
  - injection Hfold as <-. rewrite andb_false_r. reflexivity.
  - cbn [foldM] in Hfold.
    apply rbind_Ok in Hfold as (a1 & (x & Hx & Hset)%rbind_Ok & Hrest).
    rewrite (IH _ _ Hrest k i j Hk Hi Hj).
    rewrite (item3_setitem3 _ _ 0 _ _ k i j _ (Z.le_refl 0) Hc1 Hc2 Hk Hi Hj Hset).
    destruct c as [ci cj]. cbn [fst snd] in *.
    destruct (Z.eqb_spec k 0) as [->|Hne]; cbn [andb]; [|reflexivity].
    destruct (bool_decide_reflect ((i, j) ∈ cells)) as [Hin|Hnin].
    + rewrite bool_decide_eq_true_2 by (right; exact Hin). reflexivity.
    + destruct (Z.eqb_spec i ci) as [->|Hne1]; cbn [andb].
      * destruct (Z.eqb_spec j cj) as [->|Hne2].
        -- rewrite bool_decide_eq_true_2 by left. symmetry. exact Hx.
        -- rewrite bool_decide_eq_false_2; [reflexivity|].
           intros [?|?]%elem_of_cons; [congruence|contradiction].
      * rewrite bool_decide_eq_false_2; [reflexivity|].
        intros [?|?]%elem_of_cons; [congruence|contradiction].
Qed.

Lemma elem_of_enumerate {A} (l : list A) (i : Z) (x : A) :
  (i, x) ∈ enumerate l <-> 0 <= i /\ l !! Z.to_nat i = Some x.
Proof.
  rewrite list_elem_of_lookup. split.
  - intros (k & [-> Hk]%enumerate_lookup_inv). rewrite Nat2Z.id. split; [lia|exact Hk].
  - intros [Hi Hx]. exists (Z.to_nat i).
    rewrite (enumerate_lookup _ _ _ Hx). rewrite Z2Nat.id by exact Hi. reflexivity.
Qed.

(** The positions [where_positive] lists. *)
Lemma elem_of_where_positive (a : array2) (i j : Z) :
  (i, j) ∈ where_positive a <->
  0 <= i /\ 0 <= j /\ exists v, getitem2 a i j = Ok v /\ 0 < v.
Proof.
  unfold where_positive. rewrite list_elem_of_In, in_flat_map. split.
  - intros ([i0 row] & Hrow & Hin). apply in_flat_map in Hin as ([j0 v] & Hv & Hin).
    apply list_elem_of_In, elem_of_enumerate in Hrow as [Hi Hrow].
    apply list_elem_of_In, elem_of_enumerate in Hv as [Hj Hv].
    destruct (Z.ltb_spec 0 v) as [Hpos|]; [|destruct Hin].
    destruct Hin as [[= <- <-]|[]].
    split; [exact Hi|]. split; [exact Hj|]. exists v. split; [|exact Hpos].
    unfold getitem2.
    rewrite <- (Z2Nat.id i0), (getitem_nat _ _ _ Hrow) by exact Hi. cbn [rbind].
    rewrite <- (Z2Nat.id j0), (getitem_nat _ _ _ Hv) by exact Hj. reflexivity.
  - intros (Hi & Hj & v & Hv & Hpos). unfold getitem2 in Hv.
    apply rbind_Ok in Hv as (row & Hrow & Hv).
    apply getitem_nonneg_Ok in Hrow as [_ Hrow]; [|exact Hi].
    apply getitem_nonneg_Ok in Hv as [_ Hv]; [|exact Hj].
    exists (i, row). split; [apply list_elem_of_In, elem_of_enumerate; auto|].
    apply in_flat_map. exists (j, v).
    split; [apply list_elem_of_In, elem_of_enumerate; auto|].
    destruct (Z.ltb_spec 0 v); [left; reflexivity|lia].
Qed.

Lemma where_positive_nonneg (a : array2) :
  Forall (fun c => 0 <= c.1 /\ 0 <= c.2) (where_positive a).
Proof.
  apply Forall_forall. intros [i j] (Hi & Hj & _)%elem_of_where_positive. auto.
Qed.

Lemma foldM_ext {A S} (f g : A -> S -> result S) (l : list A) (s : S) :
  (forall x t, f x t = g x t) -> foldM f l s = foldM g l s.
Proof.
  intros H. revert s. induction l as [|x l IH]; intros s; [reflexivity|].
  cbn [foldM]. rewrite H. destruct (g x s); cbn [rbind]; [apply IH|reflexivity].
Qed.

Lemma setitem3_raise {A} (a : list (list (list A))) (k i j : Z) (x : A) (e : exn) :
  setitem3 a k i j x = Raise e -> e = IndexError.
Proof.
  unfold setitem3.
  destruct (getitem a k) as [p|e1] eqn:E1; cbn [rbind];
    [|intros [= <-]; eapply getitem_raise, E1].
  destruct (getitem p i) as [r|e2] eqn:E2; cbn [rbind];
    [|intros [= <-]; eapply getitem_raise, E2].
  destruct (setitem r j x) as [r'|e3] eqn:E3; cbn [rbind];
    [|intros [= <-]; eapply setitem_raise, E3].
  destruct (setitem p i r') as [p'|e4] eqn:E4; cbn [rbind];
    [|intros [= <-]; eapply setitem_raise, E4].
  apply setitem_raise.
Qed.

(** ** The callers: deactivating the lake cells, overlaying the lake stage *)

(** What [idomain] holds once the lake cells were deactivated: zero in layer
    0 where [lakibd] is positive, and what it held everywhere else. *)
Lemma deactivate_lakes_item (lakibd : array2) (idomain idomain' : array3)
    (k i j : Z) :
  deactivate_lakes lakibd idomain = Ok idomain' ->
  0 <= k -> 0 <= i -> 0 <= j ->
  getitem3 idomain' k i j
  = if (k =? 0) && bool_decide ((i, j) ∈ where_positive lakibd) then Ok 0
    else getitem3 idomain k i j.
Proof.
  intros H Hk Hi Hj. unfold deactivate_lakes in H.
  rewrite (foldM_ext _ (fun c a => let* x := Ok 0 in setitem3 a 0 c.1 c.2 x)) in H
    by (intros [ci cj] t; reflexivity).
  exact (item3_painted (fun _ => Ok 0) _ (where_positive_nonneg lakibd)
           _ _ H k i j Hk Hi Hj).
Qed.

(** X8. [build_mf6gwf] computes the connections and then deactivates the
    lake cells in layer 0 of [idomain].  When every lake cell was active
    before, the target of each horizontal record is still active afterwards. *)
Theorem targets_stay_active (nrow ncol : Z) (delr delc lakebed_leakance : Q)
    (lakibd : array2) (idomain idomain' : array3)
    (recs : list lakecon) (nlakecon : list Z) (r : lakecon) :
  (forall i j v w, getitem2 lakibd i j = Ok v -> v <> 0 ->
                   getitem3 idomain 0 i j = Ok w -> w <> 0) ->
  get_lake_connection_data nrow ncol delr delc lakebed_leakance lakibd idomain
    = Ok (recs, nlakecon) ->
  deactivate_lakes lakibd idomain = Ok idomain' ->
  r ∈ recs -> claktype r = "horizontal"%string ->
  exists i' j' w,
    cellid r = (0, i', j') /\
    getitem3 idomain' 0 i' j' = Ok w /\ w <> 0.
Proof.
  intros Hact Hget Hde Hr Hk.
  destruct (horizontal_target _ _ _ _ _ _ _ _ _ _ Hact Hget Hr Hk)
    as (i' & j' & w & Hi & Hj & Hcell & Hdry & Hw & Hne).
  exists i', j', w. split; [exact Hcell|]. split; [|exact Hne].
  rewrite (deactivate_lakes_item _ _ _ 0 i' j' Hde) by lia.
  rewrite bool_decide_eq_false_2; [exact Hw|].
  intros (_ & _ & v & Hv & Hpos)%elem_of_where_positive.
  rewrite Hdry in Hv. injection Hv as <-. lia.
Qed.

(** X9. After the overlay, layer 0 of [head] holds at every position where
    [lakibd] is positive the stage of the lake of that position, and [head]
    is unchanged at every other position and in every other layer. *)
Theorem overlay_item (lakibd : array2) (stage : list Q)
    (head head' : list (list (list Q))) (k i j : Z) :
  overlay lakibd stage head = Ok head' ->
  0 <= k -> 0 <= i -> 0 <= j ->
  (forall v, getitem2 lakibd i j = Ok v -> 0 < v ->
     item3 head' 0 i j = getitem stage (v - 1) /\
     exists s, getitem stage (v - 1) = Ok s) /\
  ((k <> 0 \/ forall v, getitem2 lakibd i j = Ok v -> v <= 0) ->
     item3 head' k i j = item3 head k i j).
Proof.
  intros H Hk Hi Hj. unfold overlay in H.
  rewrite (foldM_ext _ (fun c a =>
             let* x := (let* v := getitem2 lakibd c.1 c.2 in getitem stage (v - 1)) in
             setitem3 a 0 c.1 c.2 x)) in H.
  2: { intros [ci cj] t. unfold overlay_step. cbn [fst snd].
       destruct (getitem2 lakibd ci cj); reflexivity. }
  pose proof (item3_painted _ _ (where_positive_nonneg lakibd) _ _ H) as Hspec.
  split.
  - intros v Hv Hpos.
    assert ((i, j) ∈ where_positive lakibd) as Hin
      by (apply elem_of_where_positive; eauto).
    pose proof (Hspec 0 i j (Z.le_refl 0) Hi Hj) as H0.
    rewrite bool_decide_eq_true_2 in H0 by exact Hin.
    cbn [Z.eqb andb fst snd] in H0. rewrite Hv in H0. cbn [rbind] in H0.
    split; [exact H0|].
    (* the fold returned, so the value read at this position was a value *)
    clear -H Hin Hv.
    revert head H. induction (where_positive lakibd) as [|c cells IH]; intros head H.
    + inversion Hin.
    + cbn [foldM] in H. apply rbind_Ok in H as (a1 & (x & Hx & _)%rbind_Ok & Hrest).
      apply elem_of_cons in Hin as [<-|Hin]; [|exact (IH Hin _ Hrest)].
      cbn [fst snd] in Hx. rewrite Hv in Hx. cbn [rbind] in Hx. eauto.
  - intros Hout. rewrite (Hspec k i j Hk Hi Hj).
    destruct (Z.eqb_spec k 0) as [->|Hne]; cbn [andb]; [|reflexivity].
    rewrite bool_decide_eq_false_2; [reflexivity|].
    intros (_ & _ & v & Hv & Hpos)%elem_of_where_positive.
    destruct Hout as [Hk0|Hle]; [contradiction|]. specialize (Hle v Hv). lia.
Qed.

(** X10. When [lakibd] holds a lake number for which [stage] has no entry,
    the overlay raises [IndexError]. *)
Theorem overlay_missing_stage (lakibd : array2) (stage : list Q)
    (head : list (list (list Q))) (i j v : Z) :
  0 <= i -> 0 <= j ->
  getitem2 lakibd i j = Ok v ->
  Z.of_nat (length stage) < v ->
  overlay lakibd stage head = Raise IndexError.
Proof.
  intros Hi Hj Hv Hlarge. unfold overlay.
  apply (foldM_raises (fun _ => True) IndexError _ _ (i, j)); [|auto| | |exact I].
  - apply elem_of_where_positive. split; [exact Hi|]. split; [exact Hj|].
    exists v. split; [exact Hv|lia].
  - intros [ci cj] t e. unfold overlay_step.
    destruct (getitem2 lakibd ci cj) as [v'|e1] eqn:E1; cbn [rbind];
      [|intros [= <-]; eapply getitem2_raise, E1].
    destruct (getitem stage (v' - 1)) as [s|e2] eqn:E2; cbn [rbind];
      [|intros [= <-]; eapply getitem_raise, E2].
    apply setitem3_raise.
  - intros t _. unfold overlay_step. rewrite Hv. cbn [rbind].
    unfold getitem at 1. rewrite py_index_None by lia. reflexivity.
Qed.

(** ** Streams: the tables the function accepts *)

Lemma get_stream_data_unfold (sd : list Row.t) :
  get_stream_data sd =
  let* nreaches := shape0 sd in
  let* st := connectivity_pass sd in
  let* cd := extra_connections (connectiondata st) in
  let* pd := foldM (package_step (segment_lengths sd) (segment_gradients sd) cd
                                 (distance_along_segment st))
                   (enumerate sd) [] in
  Ok (pd, cd).
Proof.
  unfold get_stream_data.
  destruct (shape0 sd) as [n|e]; [|reflexivity]. cbn [rbind].
  destruct (connectivity_pass sd) as [st|e]; [|reflexivity]. cbn [rbind].
  destruct (extra_connections (connectiondata st)) as [cd|e]; reflexivity.
Qed.

Lemma package_step_raise sl sg cd das x acc e :
  package_step sl sg cd das x acc = Raise e -> e = IndexError.
Proof.
  destruct x as [ireach row]. unfold package_step.
  destruct (getitem sg (Row.seg row - 1)) as [g|e1] eqn:E1; cbn [rbind];
    [|intros [= <-]; eapply getitem_raise, E1].
  destruct (getitem emaxmin (Row.seg row - 1)) as [[emax emin]|e2] eqn:E2; cbn [rbind];
    [|intros [= <-]; eapply getitem_raise, E2].
  destruct (getitem das ireach) as [d|e3] eqn:E3; cbn [rbind];
    [|intros [= <-]; eapply getitem_raise, E3].
  destruct (getitem sl (Row.seg row - 1)) as [l|e4] eqn:E4; cbn [rbind];
    [|intros [= <-]; eapply getitem_raise, E4].
  destruct (getitem cd ireach) as [c|e5] eqn:E5; cbn [rbind];
    [discriminate|intros [= <-]; eapply getitem_raise, E5].
Qed.

(** A segment id without an entry in the four-element lists. *)
Lemma package_step_bad_segment (sd : list Row.t) cd das ireach row acc :
  ~ (-3 <= Row.seg row <= 4) ->
  package_step (segment_lengths sd) (segment_gradients sd) cd das (ireach, row) acc
  = Raise IndexError.
Proof.
  intros Hbad. unfold package_step.
  assert (getitem (segment_gradients sd) (Row.seg row - 1) = Raise IndexError) as ->;
    [|reflexivity].
  unfold getitem, py_index.
  change (length (segment_gradients sd)) with 4%nat.
  destruct (Z.leb_spec 0 (Row.seg row - 1)), (Z.ltb_spec (Row.seg row - 1) (Z.of_nat 4));
    cbn [andb]; try lia;
    destruct (Z.leb_spec (- Z.of_nat 4) (Row.seg row - 1)),
             (Z.ltb_spec (Row.seg row - 1) 0); cbn [andb]; try lia; reflexivity.
Qed.

(** One iteration of the last loop, for a segment id with an entry. *)
Lemma package_step_record (sd : list Row.t) (cd : list (list Z)) (das : list Q)
    (k : nat) (r : Row.t) (c : list Z) (acc : list reach) :
  -3 <= Row.seg r <= 4 ->
  das !! k = Some (dist sd k) -> cd !! k = Some c ->
  exists rec,
    package_step (segment_lengths sd) (segment_gradients sd) cd das
                 (Z.of_nat k, r) acc = Ok (acc ++ [rec]) /\
    record_of_reach sd cd (Z.of_nat k, r) rec.
Proof.
  intros Hs Hd Hc. unfold package_step, record_of_reach.
  rewrite (getitem_nat das k _ Hd), (getitem_nat cd k c Hc).
  destruct r as [s ly rw cl len]. cbn [Row.seg Row.layer Row.row Row.col Row.length snd fst] in *.
  assert (s = -3 \/ s = -2 \/ s = -1 \/ s = 0 \/ s = 1 \/ s = 2 \/ s = 3 \/ s = 4)
    as [-> | [-> | [-> | [-> | [-> | [-> | [-> | ->]]]]]]] by lia;
    (eexists; split; [reflexivity|];
     exists k, c; do 3 eexists;
     split; [reflexivity|]; split; [exact Hc|];
     split; [reflexivity|]; split; [reflexivity|]; split; [reflexivity|];
     reflexivity).
Qed.

(** How a call of the function ends, by the shape of the table. *)
Lemma get_stream_data_cases (sd : list Row.t) :
  (length sd = 1%nat -> get_stream_data sd = Raise IndexError) /\
  (~ first_segment_nonzero sd -> length sd <> 1%nat ->
     get_stream_data sd = Raise UnboundLocalError) /\
  (first_segment_nonzero sd -> (length sd < 32)%nat ->
     get_stream_data sd = Raise IndexError) /\
  (first_segment_nonzero sd -> (32 <= length sd)%nat ->
     Exists (fun r => ~ (-3 <= Row.seg r <= 4)) sd ->
     get_stream_data sd = Raise IndexError) /\
  (accepted sd ->
     exists pd cd,
       get_stream_data sd = Ok (pd, cd) /\
       extra_connections (connectiondata (pass_after sd (length sd))) = Ok cd /\
       length cd = length sd /\
       Forall2 (record_of_reach sd cd) (enumerate sd) pd).
Proof.
  rewrite get_stream_data_unfold.
  assert (length (connectiondata (pass_after sd (length sd))) = length sd) as Hlen0
    by (cbn [connectiondata pass_after]; rewrite length_map, length_seq; reflexivity).
  split; [|split; [|split; [|split]]].
  - intros H1. rewrite (shape0_one sd H1). reflexivity.
  - intros Hn H1. rewrite (shape0_Ok sd H1). cbn [rbind].
    destruct sd as [|r sd]; [exfalso; apply Hn; exact I|].
    rewrite connectivity_pass_unbound; [reflexivity|].
    simpl in Hn. destruct (Z.eq_dec (Row.seg r) 0); [assumption|contradiction].
  - intros H0 Hshort.
    destruct (Nat.eq_dec (length sd) 1%nat) as [H1|H1];
      [rewrite (shape0_one sd H1); reflexivity|].
    rewrite (shape0_Ok sd H1). cbn [rbind].
    rewrite (connectivity_pass_Ok sd H0). cbn [rbind].
    rewrite extra_connections_short by lia. reflexivity.
  - intros H0 Hlen Hbad. rewrite shape0_Ok by lia. cbn [rbind].
    rewrite (connectivity_pass_Ok sd H0). cbn [rbind].
    destruct (extra_connections_total (connectiondata (pass_after sd (length sd))))
      as (cd & -> & _); [lia|]. cbn [rbind].
    apply Exists_exists in Hbad as (r & Hr & Hbad).
    apply list_elem_of_lookup in Hr as (k & Hr).
    rewrite (foldM_raises (fun _ => True) IndexError _ _ (Z.of_nat k, r));
      [reflexivity| |auto| | |exact I].
    + eapply list_elem_of_lookup_2, enumerate_lookup, Hr.
    + intros y s e. apply package_step_raise.
    + intros s _. apply package_step_bad_segment, Hbad.
  - intros (Hlen & H0 & Hseg). rewrite shape0_Ok by lia. cbn [rbind].
    rewrite (connectivity_pass_Ok sd H0). cbn [rbind].
    destruct (extra_connections_total (connectiondata (pass_after sd (length sd))))
      as (cd & Hcd & Lcd); [lia|]. rewrite Hcd. cbn [rbind].
    destruct (foldM_collect (record_of_reach sd cd)
                (package_step (segment_lengths sd) (segment_gradients sd) cd
                   (distance_along_segment (pass_after sd (length sd))))
                (enumerate sd)) with (acc := @nil reach) as (pd & Hpd & Rpd).
    { intros [i r] acc Hx. apply list_elem_of_lookup in Hx as (k & Hx).
      apply enumerate_lookup_inv in Hx as [-> Hr].
      pose proof (lookup_lt_Some _ _ _ Hr) as Hk.
      destruct (lookup_lt_is_Some_2 cd k) as [c Hc]; [lia|].
      rewrite Forall_forall in Hseg.
      apply (package_step_record sd cd _ k r c acc).
      - apply Hseg. eapply list_elem_of_lookup_2, Hr.
      - cbn [distance_along_segment pass_after]. apply lookup_map_seq, Hk.
      - exact Hc. }
    rewrite Hpd. cbn [rbind app].
    exists pd, cd. split; [reflexivity|]. split; [reflexivity|].
    split; [lia|exact Rpd].
Qed.

(** A table on which the function returns is an accepted one. *)
Lemma Ok_accepted (sd : list Row.t) (out : list reach * list (list Z)) :
  get_stream_data sd = Ok out -> accepted sd.
Proof.
  destruct (get_stream_data_cases sd) as (Hone & Hunb & Hshort & Hbad & Hok).
  - intros Hout.
    assert (length sd <> 1%nat) as H1
      by (intros H1; rewrite (Hone H1) in Hout; discriminate).
    assert (first_segment_nonzero sd) as H0.
    { destruct sd as [|r sd]; [exact I|]. simpl.
      intros Hz. rewrite Hunb in Hout; [discriminate| |exact H1].
      simpl. intros Hn. contradiction. }
    assert (32 <= length sd)%nat as Hlen.
    { destruct (le_lt_dec 32 (length sd)) as [|Hlt]; [assumption|].
      rewrite (Hshort H0 Hlt) in Hout. discriminate. }
    split; [exact Hlen|]. split; [exact H0|].
    destruct (decide (Forall (fun r => -3 <= Row.seg r <= 4) sd)) as [|Hn];
      [assumption|].
    apply not_Forall_Exists in Hn; [|intros r; apply _].
    rewrite (Hbad H0 Hlen Hn) in Hout. discriminate.
Qed.

(** X11. The function returns exactly on the tables with at least 32
    reaches, a first segment id other than 0, and all segment ids between -3
    and 4. *)
Theorem get_stream_data_accepts (sd : list Row.t) :
  (exists out, get_stream_data sd = Ok out) <-> accepted sd.
Proof.
  split.
  - intros [out Hout]. exact (Ok_accepted sd out Hout).
  - intros Hacc.
    destruct (proj2 (proj2 (proj2 (proj2 (get_stream_data_cases sd)))) Hacc)
      as (pd & cd & E & _).
    eauto.
Qed.

(** X12. How the function raises.  A table with a single row is a 0-d array
    and raises [IndexError] at [streamdata.shape[0]], whatever its segment
    id.  Otherwise the function raises [UnboundLocalError] exactly when the
    first segment id is 0; every other exception is an [IndexError], raised
    when the table has fewer than 32 reaches or a segment id outside
    -3 .. 4. *)
Theorem get_stream_data_raises (sd : list Row.t) (e : exn) :
  get_stream_data sd = Raise e ->
  (e = UnboundLocalError /\ ~ first_segment_nonzero sd /\ (2 <= length sd)%nat) \/
  (e = IndexError /\
   (length sd = 1%nat \/
    (first_segment_nonzero sd /\
     ((length sd < 32)%nat \/ Exists (fun r => ~ (-3 <= Row.seg r <= 4)) sd)))).
Proof.
  destruct (get_stream_data_cases sd) as (Hone & Hunb & Hshort & Hbad & Hok).
  intros He.
  destruct (Nat.eq_dec (length sd) 1%nat) as [H1|H1].
  { right. rewrite (Hone H1) in He. injection He as <-. auto. }
  assert (first_segment_nonzero sd \/ ~ first_segment_nonzero sd) as [H0|Hn].
  { destruct sd as [|r sd]; [left; exact I|]. simpl.
    destruct (Z.eq_dec (Row.seg r) 0); [right|left]; auto. }
  - right. destruct (le_lt_dec 32 (length sd)) as [Hlen|Hlt].
    + destruct (decide (Forall (fun r => -3 <= Row.seg r <= 4) sd)) as [Hall|Hnall].
      * destruct (Hok (conj Hlen (conj H0 Hall))) as (pd & cd & E & _). congruence.
      * apply not_Forall_Exists in Hnall; [|intros r; apply _].
        rewrite (Hbad H0 Hlen Hnall) in He. injection He as <-. auto.
    + rewrite (Hshort H0 Hlt) in He. injection He as <-. auto.
  - left. rewrite (Hunb Hn H1) in He. injection He as <-.
    split; [reflexivity|]. split; [exact Hn|].
    destruct sd as [|r sd]; [exfalso; apply Hn; exact I|]. simpl in *. lia.
Qed.

(** ** Streams: the final connections *)

Lemma extras_other (m : nat) :
  m <> 17%nat -> m <> 30%nat -> m <> 31%nat -> extras m = [].
Proof.
  intros H1 H2 H3. unfold extras.
  destruct (Nat.eqb_spec m 17); [contradiction|].
  destruct (Nat.eqb_spec m 30); [contradiction|].
  destruct (Nat.eqb_spec m 31); [contradiction|reflexivity].
Qed.

(** The four extra statements, on a list long enough. *)
Lemma extra_connections_lookup (cd0 cd : list (list Z)) :
  extra_connections cd0 = Ok cd ->
  length cd = length cd0 /\
  forall m l, cd0 !! m = Some l -> cd !! m = Some (l ++ extras m).
Proof.
  unfold extra_connections.
  intros (c1 & H1 & (c2 & H2 & (c3 & H3 & H4)%rbind_Ok)%rbind_Ok)%rbind_Ok.
  pose proof (append_at_length _ _ _ _ H1) as L1.
  pose proof (append_at_length _ _ _ _ H2) as L2.
  pose proof (append_at_length _ _ _ _ H3) as L3.
  pose proof (append_at_length _ _ _ _ H4) as L4.
  assert (forall (a b : list (list Z)) (k : nat) (x : Z),
            append_at a (Z.of_nat k) x = Ok b ->
            forall m l, a !! m = Some l ->
              b !! m = Some (if (m =? k)%nat then l ++ [x] else l)) as Hstep.
  { intros a b k x H m l Hl. unfold append_at in H.
    apply rbind_Ok in H as (lk & Hlk & Hset).
    apply getitem_nonneg_Ok in Hlk as [Hlt Hlk]; [|lia].
    apply setitem_Ok in Hset as [_ ->]; [|lia]. rewrite Nat2Z.id in *.
    destruct (Nat.eqb_spec m k) as [->|Hne].
    - rewrite list_lookup_insert_eq by lia. congruence.
    - rewrite list_lookup_insert_ne by lia. exact Hl. }
  split; [lia|]. intros m l Hl.
  pose proof (Hstep _ _ 17%nat _ H1 m l Hl) as E1.
  pose proof (Hstep _ _ 31%nat _ H2 m _ E1) as E2.
  pose proof (Hstep _ _ 30%nat _ H3 m _ E2) as E3.
  pose proof (Hstep _ _ 31%nat _ H4 m _ E3) as E4.
  rewrite E4. clear. f_equal. unfold extras.
  destruct (Nat.eqb_spec m 17) as [->|N17]; [reflexivity|].
  destruct (Nat.eqb_spec m 30) as [->|N30]; [reflexivity|].
  destruct (Nat.eqb_spec m 31) as [->|N31].
  - rewrite <- app_assoc. reflexivity.
  - rewrite app_nil_r. reflexivity.
Qed.

Lemma conn_final (sd : list Row.t) (m : nat) :
  (m < length sd)%nat ->
  conn sd (length sd) m =
  [Z.of_nat m]
  ++ (if continues sd m then [Z.of_nat m - 1] else [])
  ++ (if continues sd (S m) then [- Z.of_nat (S m)] else []).
Proof.
  intros Hm. pose proof (neighbors_of_conn sd m Hm) as Hn.
  unfold conn in *. cbn [app drop] in Hn. cbn [app]. f_equal. exact Hn.
Qed.

(** The returned connection list of a reach, in closed form. *)
Lemma connections_lookup (sd : list Row.t) (pd : list reach) (cd : list (list Z))
    (m : nat) :
  get_stream_data sd = Ok (pd, cd) ->
  (m < length sd)%nat ->
  cd !! m =
  Some ([Z.of_nat m]
        ++ (if continues sd m then [Z.of_nat m - 1] else [])
        ++ (if continues sd (S m) then [- Z.of_nat (S m)] else [])
        ++ extras m).
Proof.
  intros Hget Hm.
  assert (accepted sd) as Hacc by (eapply Ok_accepted; eauto).
  destruct (proj2 (proj2 (proj2 (proj2 (get_stream_data_cases sd)))) Hacc)
    as (pd' & cd' & E & Hcd & _).
  assert (cd' = cd) as -> by congruence.
  apply extra_connections_lookup in Hcd as [_ Hcd].
  rewrite (Hcd m (conn sd (length sd) m))
    by (cbn [connectiondata pass_after]; apply lookup_map_seq, Hm).
  rewrite (conn_final sd m Hm), <- !app_assoc. reflexivity.
Qed.

(** X13. On an accepted table the returned list of reach [m] is the reach
    itself, its automatic upstream and downstream neighbors, and then the
    extra entries: -31 for the reaches 17 and 30, and 17 and 30 for the
    reach 31. *)
Theorem final_connections (sd : list Row.t) (pd : list reach) (cd : list (list Z))
    (m : nat) :
  get_stream_data sd = Ok (pd, cd) ->
  (m < length sd)%nat ->
  cd !! m =
  Some ([Z.of_nat m]
        ++ (if continues sd m then [Z.of_nat m - 1] else [])
        ++ (if continues sd (S m) then [- Z.of_nat (S m)] else [])
        ++ extras m).
Proof. apply connections_lookup. Qed.

(** X14. The returned lists are free of repeated entries exactly when the
    reaches 30 and 31 are in different segments: in one segment, the
    automatic link between them is recorded a second time by the extra
    statements. *)
Theorem no_repeated_neighbor (sd : list Row.t) (pd : list reach)
    (cd : list (list Z)) :
  get_stream_data sd = Ok (pd, cd) ->
  (forall m l, cd !! m = Some l -> NoDup l) <-> continues sd 31 = false.
Proof.
  intros Hget.
  assert (accepted sd) as (Hlen & _) by (eapply Ok_accepted; eauto).
  pose proof (fun m Hm => connections_lookup sd pd cd m Hget Hm) as Hfin.
  assert (length cd = length sd) as Lcd.
  { destruct (proj2 (proj2 (proj2 (proj2 (get_stream_data_cases sd))))
                (Ok_accepted sd _ Hget))
      as (pd' & cd' & E & _ & L & _).
    assert (cd' = cd) as -> by congruence. exact L. }
  split.
  - intros Hnd. destruct (continues sd 31) eqn:E; [exfalso|reflexivity].
    specialize (Hnd 31%nat _ (Hfin 31%nat ltac:(lia))).
    rewrite E in Hnd. cbn [app extras Nat.eqb] in Hnd.
    apply NoDup_cons in Hnd as [_ Hnd]. apply NoDup_cons in Hnd as [Hnin _].
    apply Hnin. rewrite !elem_of_app, !elem_of_cons. right. right. left. reflexivity.
  - intros E m l Hl. pose proof (lookup_lt_Some _ _ _ Hl) as Hm.
    rewrite Hfin in Hl by lia. injection Hl as <-.
    assert (continues sd m = true -> (1 <= m)%nat) as Hup
      by (intros H%continues_lt; lia).
    assert (forall l0 : list Z,
              NoDup l0 ->
              (forall x, x ∈ l0 -> x = - Z.of_nat (S m) -> continues sd (S m) = false) ->
              (forall x, x ∈ l0 -> x = Z.of_nat m -> False) ->
              (forall x, x ∈ l0 -> x = Z.of_nat m - 1 -> continues sd m = false) ->
              NoDup ([Z.of_nat m]
                     ++ (if continues sd m then [Z.of_nat m - 1] else [])
                     ++ (if continues sd (S m) then [- Z.of_nat (S m)] else [])
                     ++ l0)) as Hgen.
    { intros l0 Hl0 Hdown Hself Hupx. cbn [app].
      apply NoDup_cons. split.
      - rewrite !elem_of_app. intros [H|[H|H]].
        + destruct (continues sd m); [|inversion H].
          apply list_elem_of_singleton in H. lia.
        + destruct (continues sd (S m)); [|inversion H].
          apply list_elem_of_singleton in H. lia.
        + exact (Hself _ H eq_refl).
      - apply NoDup_app. split; [destruct (continues sd m); repeat constructor;
                                 intros H; inversion H|].
        split.
        + intros x Hx. destruct (continues sd m) eqn:Em; [|inversion Hx].
          apply list_elem_of_singleton in Hx. subst x.
          rewrite elem_of_app. intros [H|H].
          * destruct (continues sd (S m)); [|inversion H].
            apply list_elem_of_singleton in H. specialize (Hup eq_refl). lia.
          * specialize (Hupx _ H eq_refl). discriminate.
        + apply NoDup_app. split; [destruct (continues sd (S m)); repeat constructor;
                                   intros H; inversion H|].
          split; [|exact Hl0].
          intros x Hx. destruct (continues sd (S m)) eqn:Es; [|inversion Hx].
          apply list_elem_of_singleton in Hx. subst x.
          intros H. specialize (Hdown _ H eq_refl). discriminate. }
    unfold extras.
    destruct (Nat.eqb_spec m 17) as [->|N17].
    { apply Hgen.
      - repeat constructor. intros H. inversion H.
      - intros x Hx%list_elem_of_singleton. lia.
      - intros x Hx%list_elem_of_singleton. lia.
      - intros x Hx%list_elem_of_singleton. lia. }
    destruct (Nat.eqb_spec m 30) as [->|N30].
    { apply Hgen.
      - repeat constructor. intros H. inversion H.
      - intros x _ _. exact E.
      - intros x Hx%list_elem_of_singleton. lia.
      - intros x Hx%list_elem_of_singleton. lia. }
    destruct (Nat.eqb_spec m 31) as [->|N31].
    { apply Hgen.
      - apply NoDup_cons. split; [|repeat constructor; intros H; inversion H].
        intros Hx%list_elem_of_singleton. discriminate.
      - intros x Hx. rewrite !elem_of_cons, elem_of_nil in Hx. lia.
      - intros x Hx. rewrite !elem_of_cons, elem_of_nil in Hx. lia.
      - intros x _ _. exact E. }
    apply Hgen; [constructor|intros x Hx; inversion Hx..].
Qed.

(** ** Streams: the records *)

Lemma accepted_records (sd : list Row.t) (pd : list reach) (cd : list (list Z)) :
  get_stream_data sd = Ok (pd, cd) ->
  length cd = length sd /\ Forall2 (record_of_reach sd cd) (enumerate sd) pd.
Proof.
  intros Hget.
  assert (accepted sd) as Hacc by (eapply Ok_accepted; eauto).
  destruct (proj2 (proj2 (proj2 (proj2 (get_stream_data_cases sd)))) Hacc)
    as (pd' & cd' & E & _ & L & R).
  assert (pd' = pd /\ cd' = cd) as [-> ->] by (split; congruence). auto.
Qed.

Lemma record_at (sd : list Row.t) (pd : list reach) (cd : list (list Z))
    (k : nat) (r : Row.t) :
  get_stream_data sd = Ok (pd, cd) -> sd !! k = Some r ->
  exists rec, pd !! k = Some rec /\ record_of_reach sd cd (Z.of_nat k, r) rec.
Proof.
  intros [_ R]%accepted_records Hr.
  exact (Forall2_lookup_l _ _ _ _ _ R (enumerate_lookup _ _ _ Hr)).
Qed.

(** X15. The two lists the function returns have one entry per reach; the
    record of reach [k] carries the number [k], the zero-based cell of its
    row and the length of its row, its list of connections starts with [k],
    and its connection count is the number of the other entries of that
    list. *)
Theorem records_match_connections (sd : list Row.t) (pd : list reach)
    (cd : list (list Z)) :
  get_stream_data sd = Ok (pd, cd) ->
  length pd = length sd /\ length cd = length sd /\
  forall k r, sd !! k = Some r ->
    exists rec c,
      pd !! k = Some rec /\ cd !! k = Some (Z.of_nat k :: c) /\
      rno rec = Z.of_nat k /\
      rcellid rec = (Row.layer r - 1, Row.row r - 1, Row.col r - 1) /\
      rlen rec = Row.length r /\
      ncon rec = Z.of_nat (length c).
Proof.
  intros Hget. pose proof (accepted_records _ _ _ Hget) as [Lcd R].
  split; [apply Forall2_length in R; rewrite length_enumerate in R; lia|].
  split; [exact Lcd|].
  intros k r Hr. pose proof (lookup_lt_Some _ _ _ Hr) as Hk.
  destruct (record_at _ _ _ _ _ Hget Hr)
    as (rec & Hp & k' & c & g & b & l & Hk' & Hc & _ & _ & _ & ->).
  cbn [fst snd] in *. apply Nat2Z.inj in Hk'. subst k'.
  pose proof (connections_lookup sd pd cd k Hget Hk) as Hfin.
  rewrite Hc in Hfin. injection Hfin as ->.
  eexists. eexists. split; [exact Hp|]. split; [exact Hc|].
  cbn [rno rcellid rlen ncon app length]. repeat split. lia.
Qed.

(** ** Names built from numbers *)


Lemma format_number_inj (a b : Z) :
  NilZero.string_of_int (Z.to_int a) = NilZero.string_of_int (Z.to_int b) ->
  a = b.
Proof.
  assert (forall z, Z.to_int z <> Decimal.Pos Decimal.Nil /\
                    Z.to_int z <> Decimal.Neg Decimal.Nil) as Hnn.
  { intros [|p|p]; split; try discriminate; cbn; intros [= H];
      exact (DecimalPos.Unsigned.to_uint_nonnil p H). }
  intros H. apply (f_equal NilZero.int_of_string) in H.
  rewrite !NilZero.isi in H by apply Hnn.
  injection H as H. apply DecimalZ.to_int_inj, H.
Qed.

Lemma string_length_append (s t : string) :
  String.length (s ++ t) = (String.length s + String.length t)%nat.
Proof. induction s as [|c s IH]; simpl; [reflexivity|]. rewrite IH. reflexivity. Qed.

Lemma string_append_inj_r (s1 s2 t : string) :
  (s1 ++ t)%string = (s2 ++ t)%string -> s1 = s2.
Proof.
  revert s2. induction s1 as [|c s1 IH]; intros [|c2 s2] H; simpl in H.
  - reflexivity.
  - apply (f_equal String.length) in H. simpl in H.
    rewrite string_length_append in H. lia.
  - apply (f_equal String.length) in H. simpl in H.
    rewrite string_length_append in H. lia.
  - injection H as -> H. f_equal. apply IH, H.
Qed.

(** X18. The bound name of a record is "SEG" followed by the decimal
    segment id of its row, so two records have the same bound name exactly
    when their reaches are in the same segment. *)
Theorem boundname_groups_segments (sd : list Row.t) (pd : list reach)
    (cd : list (list Z)) (k m : nat) (r r' : Row.t) (rec rec' : reach) :
  get_stream_data sd = Ok (pd, cd) ->
  sd !! k = Some r -> sd !! m = Some r' ->
  pd !! k = Some rec -> pd !! m = Some rec' ->
  boundname rec = format_SEG (Row.seg r) /\
  (boundname rec = boundname rec' <-> Row.seg r = Row.seg r').
Proof.
  intros Hget Hr Hr' Hp Hp'.
  assert (forall k r rec, sd !! k = Some r -> pd !! k = Some rec ->
            boundname rec = format_SEG (Row.seg r)) as Hname.
  { intros k0 r0 rec0 H1 H2.
    destruct (record_at _ _ _ _ _ Hget H1)
      as (rec1 & Hp1 & k' & c & g & b & l & _ & _ & _ & _ & _ & ->).
    rewrite H2 in Hp1. injection Hp1 as ->.
    cbn [boundname snd]. f_equal. lia. }
  rewrite (Hname _ _ _ Hr Hp), (Hname _ _ _ Hr' Hp').
  split; [reflexivity|]. split.
  - unfold format_SEG. intros H. injection H as H. apply format_number_inj, H.
  - intros ->. reflexivity.
Qed.

(** X19. [sftpackagedata] and the observations of [sft_obs] have one entry
    per reach; entry [k] of the first carries the zero-based reach number
    [k], entry [k] of the second addresses the same reach by its one-based
    number [k + 1], and neither list repeats a name. *)
Theorem sft_reaches_and_observations (nreach : Z) :
  length (sftpackagedata nreach) = Z.to_nat nreach /\
  length (sft_obs nreach) = Z.to_nat nreach /\
  (forall k : nat, (k < Z.to_nat nreach)%nat ->
     sftpackagedata nreach !! k
       = Some (Z.of_nat k, 0%Q, 99%Q, 999%Q, format_myreach (Z.of_nat k + 1)) /\
     sft_obs nreach !! k
       = Some (format_sftconc (Z.of_nat k + 1), "CONCENTRATION"%string,
               Z.of_nat k + 1)) /\
  NoDup (map snd (sftpackagedata nreach)) /\
  NoDup (map (fun o => o.1.1) (sft_obs nreach)).
Proof.
  unfold sftpackagedata, sft_obs, range.
  split; [rewrite !length_map, length_seq; reflexivity|].
  split; [rewrite !length_map, length_seq; reflexivity|].
  split.
  - intros k Hk. rewrite !map_map.
    rewrite !lookup_map_seq by exact Hk. split; reflexivity.
  - rewrite !map_map. cbn [snd fst].
    assert (Inj (=) (=) (fun x : nat => format_myreach (Z.of_nat x + 1))) as I1.
    { intros x y H. unfold format_myreach in H. injection H as H.
      apply format_number_inj in H. lia. }
    assert (Inj (=) (=) (fun x : nat => format_sftconc (Z.of_nat x + 1))) as I2.
    { intros x y H. unfold format_sftconc in H. injection H as H.
      apply string_append_inj_r, format_number_inj in H. lia. }
    split.
    + apply (NoDup_fmap_2 (fun x : nat => format_myreach (Z.of_nat x + 1))), NoDup_seq.
    + apply (NoDup_fmap_2 (fun x : nat => format_sftconc (Z.of_nat x + 1))), NoDup_seq.
Qed.


(** ** The further properties at sample inputs *)

Lemma corner_idomain_active (i j v w : Z) :
  getitem2 corner_lake i j = Ok v -> v <> 0 ->
  getitem3 corner_idomain 0 i j = Ok w -> w <> 0.
Proof.
  intros _ _ H. unfold getitem3 in H.
  apply rbind_Ok in H as (p & Hp & H). unfold getitem2 in H.
  apply rbind_Ok in H as (r & Hr & H).
  apply getitem_elem in Hp, Hr, H.
  assert (w = 1) as ->; [|lia].
  repeat (apply elem_of_cons in Hp as [->|Hp]); [| |inversion Hp];
    repeat (apply elem_of_cons in Hr as [->|Hr]); try (inversion Hr; fail);
    repeat (apply elem_of_cons in H as [->|H]); try reflexivity; inversion H.
Qed.

Lemma lake_counts_add_up_witness :
  get_lake_connection_data 2 2 Params.delr Params.delc Params.lakebed_leakance
    corner_lake corner_idomain = Ok (corner_records, [4; 0]) /\
  exists n0 n1,
    lakpackagedata [4; 0]
      = Ok [(0, 44.0%Q, n0, "lake1"%string); (1, 35.2%Q, n1, "lake2"%string)] /\
    0 <= n0 /\ 0 <= n1 /\
    n0 + n1 = Z.of_nat (length corner_records).
Proof.
  assert (get_lake_connection_data 2 2 Params.delr Params.delc Params.lakebed_leakance
            corner_lake corner_idomain = Ok (corner_records, [4; 0])) as H
    by (vm_compute; reflexivity).
  split; [exact H|].
  exact (lake_counts_add_up 2 2 Params.delr Params.delc Params.lakebed_leakance
           corner_lake corner_idomain corner_records [4; 0] H).
Defined.

Lemma one_vertical_record_per_lake_cell_witness :
  get_lake_connection_data 2 2 Params.delr Params.delc Params.lakebed_leakance
    corner_lake corner_idomain = Ok (corner_records, [4; 0]) /\
  map cellid (filter (fun r => claktype r = "vertical"%string) corner_records)
  = map (fun c : Z * Z => (1, c.1, c.2)) (lake_cells 2 2 corner_lake).
Proof.
  assert (get_lake_connection_data 2 2 Params.delr Params.delc Params.lakebed_leakance
            corner_lake corner_idomain = Ok (corner_records, [4; 0])) as H
    by (vm_compute; reflexivity).
  split; [exact H|].
  exact (one_vertical_record_per_lake_cell 2 2 Params.delr Params.delc
           Params.lakebed_leakance corner_lake corner_idomain corner_records
           [4; 0] H).
Defined.

Lemma lake_record_count_bounds_witness :
  get_lake_connection_data 2 2 Params.delr Params.delc Params.lakebed_leakance
    corner_lake corner_idomain = Ok (corner_records, [4; 0]) /\
  (length (lake_cells 2 2 corner_lake) <= length corner_records
   <= 5 * length (lake_cells 2 2 corner_lake))%nat.
Proof.
  assert (get_lake_connection_data 2 2 Params.delr Params.delc Params.lakebed_leakance
            corner_lake corner_idomain = Ok (corner_records, [4; 0])) as H
    by (vm_compute; reflexivity).
  split; [exact H|].
  exact (lake_record_count_bounds 2 2 Params.delr Params.delc
           Params.lakebed_leakance corner_lake corner_idomain corner_records
           [4; 0] H).
Defined.

Lemma dry_grid_no_connection_witness :
  shape2 2 2 dry_lake /\
  Forall (Forall (fun v => v = 0)) dry_lake /\
  get_lake_connection_data 2 2 Params.delr Params.delc Params.lakebed_leakance
    dry_lake [] = Ok ([], [0; 0]).
Proof.
  assert (shape2 2 2 dry_lake) as H1 by (split; repeat constructor).
  assert (Forall (Forall (fun v => v = 0)) dry_lake) as H2 by (repeat constructor).
  split; [exact H1|]. split; [exact H2|].
  exact (dry_grid_no_connection 2 2 Params.delr Params.delc
           Params.lakebed_leakance dry_lake [] H1 H2).
Defined.

Lemma grid_out_of_shape_raises_witness :
  0 <= 1 < 2 /\ 0 <= 0 < 2 /\
  getitem2 one_row_lake 1 0 = Raise IndexError /\
  get_lake_connection_data 2 2 Params.delr Params.delc Params.lakebed_leakance
    one_row_lake corner_idomain = Raise IndexError.
Proof.
  assert (0 <= 1 < 2) as H1 by lia.
  assert (0 <= 0 < 2) as H2 by lia.
  assert (getitem2 one_row_lake 1 0 = Raise IndexError) as H3 by reflexivity.
  repeat (split; [assumption|]).
  exact (grid_out_of_shape_raises 2 2 Params.delr Params.delc
           Params.lakebed_leakance one_row_lake corner_idomain 1 0 IndexError
           H1 H2 H3).
Defined.

Lemma horizontal_targets_dry_active_witness :
  get_lake_connection_data 2 2 Params.delr Params.delc Params.lakebed_leakance
    corner_lake corner_idomain = Ok (corner_records, [4; 0]) /\
  corner_horizontal ∈ corner_records /\
  claktype corner_horizontal = "horizontal"%string /\
  exists i' j' w,
    0 <= i' < 2 /\ 0 <= j' < 2 /\
    cellid corner_horizontal = (0, i', j') /\
    getitem2 corner_lake i' j' = Ok 0 /\
    getitem3 corner_idomain 0 i' j' = Ok w /\ w <> 0.
Proof.
  assert (get_lake_connection_data 2 2 Params.delr Params.delc Params.lakebed_leakance
            corner_lake corner_idomain = Ok (corner_records, [4; 0])) as H1
    by (vm_compute; reflexivity).
  assert (corner_horizontal ∈ corner_records) as H2 by (right; left).
  assert (claktype corner_horizontal = "horizontal"%string) as H3 by reflexivity.
  repeat (split; [assumption|]).
  exact (horizontal_targets_dry_active 2 2 Params.delr Params.delc
           Params.lakebed_leakance corner_lake corner_idomain corner_records
           [4; 0] corner_horizontal corner_idomain_active H1 H2 H3).
Defined.

Lemma targets_stay_active_witness :
  get_lake_connection_data 2 2 Params.delr Params.delc Params.lakebed_leakance
    corner_lake corner_idomain = Ok (corner_records, [4; 0]) /\
  deactivate_lakes corner_lake corner_idomain = Ok corner_deactivated /\
  corner_horizontal ∈ corner_records /\
  claktype corner_horizontal = "horizontal"%string /\
  exists i' j' w,
    cellid corner_horizontal = (0, i', j') /\
    getitem3 corner_deactivated 0 i' j' = Ok w /\ w <> 0.
Proof.
  assert (get_lake_connection_data 2 2 Params.delr Params.delc Params.lakebed_leakance
            corner_lake corner_idomain = Ok (corner_records, [4; 0])) as H1
    by (vm_compute; reflexivity).
  assert (deactivate_lakes corner_lake corner_idomain = Ok corner_deactivated) as H2
    by reflexivity.
  assert (corner_horizontal ∈ corner_records) as H3 by (right; left).
  assert (claktype corner_horizontal = "horizontal"%string) as H4 by reflexivity.
  repeat (split; [assumption|]).
  exact (targets_stay_active 2 2 Params.delr Params.delc Params.lakebed_leakance
           corner_lake corner_idomain corner_deactivated corner_records [4; 0]
           corner_horizontal corner_idomain_active H1 H2 H3 H4).
Defined.

Lemma overlay_item_witness :
  overlay corner_lake [5%Q] corner_head = Ok corner_painted /\
  item3 corner_painted 0 1 0 = Ok 5%Q /\
  item3 corner_painted 0 0 0 = Ok 1%Q.
Proof.
  assert (overlay corner_lake [5%Q] corner_head = Ok corner_painted) as H
    by reflexivity.
  split; [exact H|].
  destruct (overlay_item corner_lake [5%Q] corner_head corner_painted 0 1 0 H)
    as [Hin _]; [lia|lia|lia|].
  destruct (overlay_item corner_lake [5%Q] corner_head corner_painted 0 0 0 H)
    as [_ Hout]; [lia|lia|lia|].
  split.
  - rewrite (proj1 (Hin 1 eq_refl ltac:(lia))). reflexivity.
  - rewrite Hout; [reflexivity|].
    right. intros v [= <-]. lia.
Defined.

Lemma overlay_missing_stage_witness :
  0 <= 1 /\ 0 <= 0 /\
  getitem2 corner_lake 1 0 = Ok 1 /\
  Z.of_nat (length ([] : list Q)) < 1 /\
  overlay corner_lake [] corner_head = Raise IndexError.
Proof.
  assert (0 <= 1) as H1 by lia.
  assert (0 <= 0) as H2 by lia.
  assert (getitem2 corner_lake 1 0 = Ok 1) as H3 by reflexivity.
  assert (Z.of_nat (length ([] : list Q)) < 1) as H4 by (simpl; lia).
  repeat (split; [assumption|]).
  exact (overlay_missing_stage corner_lake [] corner_head 1 0 1 H1 H2 H3 H4).
Defined.

Lemma get_stream_data_accepts_witness :
  accepted wet_table /\ exists out, get_stream_data wet_table = Ok out.
Proof.
  assert (accepted wet_table) as H.
  { split; [simpl; lia|]. split; [simpl; lia|]. repeat constructor; simpl; lia. }
  split; [exact H|].
  exact (proj2 (get_stream_data_accepts wet_table) H).
Defined.

Lemma get_stream_data_raises_witness :
  get_stream_data [Row.mk 0 1 1 1 10] = Raise IndexError /\
  ((IndexError = UnboundLocalError /\
    ~ first_segment_nonzero [Row.mk 0 1 1 1 10] /\
    (2 <= length [Row.mk 0 1 1 1 10])%nat) \/
   (IndexError = IndexError /\
    (length [Row.mk 0 1 1 1 10] = 1%nat \/
     (first_segment_nonzero [Row.mk 0 1 1 1 10] /\
      ((length [Row.mk 0 1 1 1 10] < 32)%nat \/
       Exists (fun r => ~ (-3 <= Row.seg r <= 4)) [Row.mk 0 1 1 1 10]))))).
Proof.
  assert (get_stream_data [Row.mk 0 1 1 1 10] = Raise IndexError) as H
    by (vm_compute; reflexivity).
  split; [exact H|].
  exact (get_stream_data_raises [Row.mk 0 1 1 1 10] IndexError H).
Defined.

Lemma final_connections_witness :
  exists pd cd,
    get_stream_data wet_table = Ok (pd, cd) /\
    (31 < length wet_table)%nat /\
    cd !! 31%nat = Some [31; 17; 30] /\
    cd !! 17%nat = Some [17; 16; -31] /\
    cd !! 18%nat = Some [18; -19].
Proof.
  destruct (get_stream_data_Ok wet_table wet_table_script)
    as (pd & cd & Hget & _).
  assert (31 < length wet_table)%nat as H31 by (simpl; lia).
  exists pd, cd. split; [exact Hget|]. split; [exact H31|].
  rewrite (final_connections wet_table pd cd 31 Hget H31).
  rewrite (final_connections wet_table pd cd 17 Hget ltac:(simpl; lia)).
  rewrite (final_connections wet_table pd cd 18 Hget ltac:(simpl; lia)).
  repeat split; vm_compute; reflexivity.
Defined.

Lemma no_repeated_neighbor_witness :
  exists pd cd,
    get_stream_data wet_table = Ok (pd, cd) /\
    continues wet_table 31 = false /\
    forall m l, cd !! m = Some l -> NoDup l.
Proof.
  destruct (get_stream_data_Ok wet_table wet_table_script)
    as (pd & cd & Hget & _).
  assert (continues wet_table 31 = false) as H by (vm_compute; reflexivity).
  exists pd, cd. split; [exact Hget|]. split; [exact H|].
  exact (proj2 (no_repeated_neighbor wet_table pd cd Hget) H).
Defined.

Lemma records_match_connections_witness :
  exists pd cd,
    get_stream_data wet_table = Ok (pd, cd) /\
    length pd = 32%nat /\ length cd = 32%nat /\
    exists rec c,
      pd !! 9%nat = Some rec /\ cd !! 9%nat = Some (9 :: c) /\
      rno rec = 9 /\ rcellid rec = (0, 0, 0) /\ rlen rec = 20%Q /\
      ncon rec = Z.of_nat (length c).
Proof.
  destruct (get_stream_data_Ok wet_table wet_table_script)
    as (pd & cd & Hget & _).
  exists pd, cd. split; [exact Hget|].
  destruct (records_match_connections wet_table pd cd Hget) as (L1 & L2 & H).
  split; [exact L1|]. split; [exact L2|].
  exact (H 9%nat (Row.mk 2 1 1 1 20) eq_refl).
Defined.

Lemma boundname_groups_segments_witness :
  exists pd cd,
    get_stream_data wet_table = Ok (pd, cd) /\
    exists rec rec',
      pd !! 8%nat = Some rec /\ pd !! 9%nat = Some rec' /\
      boundname rec = "SEG2"%string /\ boundname rec = boundname rec'.
Proof.
  destruct (get_stream_data_Ok wet_table wet_table_script)
    as (pd & cd & Hget & _ & _ & Hrec).
  exists pd, cd. split; [exact Hget|].
  destruct (Hrec 8%nat (Row.mk 2 1 1 1 20) eq_refl) as (rec & Hp & _).
  destruct (Hrec 9%nat (Row.mk 2 1 1 1 20) eq_refl) as (rec' & Hp' & _).
  exists rec, rec'. split; [exact Hp|]. split; [exact Hp'|].
  destruct (boundname_groups_segments wet_table pd cd 8 9
              (Row.mk 2 1 1 1 20) (Row.mk 2 1 1 1 20) rec rec'
              Hget eq_refl eq_refl Hp Hp') as [Hn Hiff].
  split; [exact Hn|]. exact (proj2 Hiff eq_refl).
Defined.


(** ** Streams: reciprocal connections and observed names *)

Lemma elem_of_if_singleton (b : bool) (x y : Z) :
  x ∈ (if b then [y] else []) <-> b = true /\ x = y.
Proof.
  destruct b.
  - rewrite list_elem_of_singleton. intuition.
  - split; [intros H; inversion H|intros [H _]; discriminate].
Qed.

Lemma elem_of_extras (m : nat) (x : Z) :
  x ∈ extras m <->
  (x = -31 /\ (m = 17 \/ m = 30)%nat) \/ ((x = 17 \/ x = 30) /\ m = 31%nat).
Proof.
  unfold extras.
  destruct (Nat.eqb_spec m 17) as [->|H17];
    [rewrite list_elem_of_singleton; intuition lia|].
  destruct (Nat.eqb_spec m 30) as [->|H30];
    [rewrite list_elem_of_singleton; intuition lia|].
  destruct (Nat.eqb_spec m 31) as [->|H31].
  - rewrite elem_of_cons, list_elem_of_singleton. intuition lia.
  - split; [intros H; inversion H|intuition lia].
Qed.

(** X20. The returned connections are reciprocal: for a reach [m] other
    than reach 0, reach [k] is listed as an upstream neighbor of [m] exactly
    when [-m] is listed as a downstream neighbor of [k]. *)
Theorem connections_reciprocal (sd : list Row.t) (pd : list reach)
    (cd : list (list Z)) (m k : nat) (lm lk : list Z) :
  get_stream_data sd = Ok (pd, cd) ->
  cd !! m = Some lm -> cd !! k = Some lk ->
  (0 < m)%nat ->
  Z.of_nat k ∈ tail lm <-> - Z.of_nat m ∈ tail lk.
Proof.
  intros Hget Hm Hk Hpos.
  assert (length cd = length sd) as L
    by (apply accepted_records in Hget as [L _]; exact L).
  pose proof (lookup_lt_Some _ _ _ Hm) as Lm.
  pose proof (lookup_lt_Some _ _ _ Hk) as Lk.
  rewrite (connections_lookup sd pd cd m Hget) in Hm by lia.
  rewrite (connections_lookup sd pd cd k Hget) in Hk by lia.
  injection Hm as <-. injection Hk as <-. cbn [app tail].
  rewrite !elem_of_app, !elem_of_if_singleton, !elem_of_extras.
  split.
  - intros [[E H]|[[E H]|[[H _]|[H ->]]]].
    + right. left. assert (m = S k) as -> by lia. split; [exact E|lia].
    + lia.
    + lia.
    + right. right. left. split; lia.
  - intros [[E H]|[[E H]|[[H H']|[H ->]]]].
    + apply continues_lt in E. lia.
    + left. assert (m = S k) as -> by lia. split; [exact E|lia].
    + right. right. right. split; lia.
    + lia.
Qed.

(** X22. On a table of the script's kind every record carries one of the
    four bound names that [sfr_obs] observes, and the observation of
    ["SEGn"] matches a record exactly when segment [n] has a reach. *)
Theorem bound_names_observed (sd : list Row.t) (pd : list reach)
    (cd : list (list Z)) :
  script_table sd ->
  get_stream_data sd = Ok (pd, cd) ->
  map (fun o : string * string * string => o.2) sfr_obs
    = map format_SEG [1; 2; 3; 4] /\
  (forall rec, rec ∈ pd ->
     boundname rec ∈ map (fun o : string * string * string => o.2) sfr_obs) /\
  (forall n, n ∈ segs sd <->
     exists rec, rec ∈ pd /\ boundname rec = format_SEG n).
Proof.
  intros [_ Hseg] Hget.
  pose proof (accepted_records _ _ _ Hget) as [_ R].
  assert (forall k r, sd !! k = Some r ->
            exists rec, pd !! k = Some rec /\
                        boundname rec = format_SEG (Row.seg r)) as Hfwd.
  { intros k r Hr.
    destruct (record_at _ _ _ _ _ Hget Hr)
      as (rec & Hp & k' & c & g & b & l & _ & _ & _ & _ & _ & ->).
    eexists. split; [exact Hp|]. cbn [boundname snd]. f_equal. lia. }
  assert (forall k rec, pd !! k = Some rec ->
            exists r, sd !! k = Some r /\
                      boundname rec = format_SEG (Row.seg r)) as Hbwd.
  { intros k rec Hp.
    destruct (Forall2_lookup_r _ _ _ _ _ R Hp) as ([i r] & Hx & _).
    apply enumerate_lookup_inv in Hx as [_ Hr].
    destruct (Hfwd k r Hr) as (rec' & Hp' & Hn).
    exists r. split; [exact Hr|]. congruence. }
  split; [reflexivity|]. split.
  - intros rec (k & Hp)%list_elem_of_lookup.
    destruct (Hbwd k rec Hp) as (r & Hr & ->).
    rewrite Forall_forall in Hseg.
    specialize (Hseg r (list_elem_of_lookup_2 _ _ _ Hr)).
    assert (Row.seg r = 1 \/ Row.seg r = 2 \/ Row.seg r = 3 \/ Row.seg r = 4)
      as [-> | [-> | [-> | ->]]] by lia; cbn [map sfr_obs snd];
      rewrite !elem_of_cons; auto.
  - intros n. unfold segs. split.
    + intros Hn. change (map Row.seg sd) with (Row.seg <$> sd) in Hn.
      apply list_elem_of_fmap in Hn as (r & -> & (k & Hr)%list_elem_of_lookup).
      destruct (Hfwd k r Hr) as (rec & Hp & Hb).
      exists rec. split; [exact (list_elem_of_lookup_2 _ _ _ Hp)|exact Hb].
    + intros (rec & (k & Hp)%list_elem_of_lookup & Hb).
      destruct (Hbwd k rec Hp) as (r & Hr & Hn).
      rewrite Hn in Hb. unfold format_SEG in Hb. injection Hb as Hb.
      apply format_number_inj in Hb. subst n.
      change (map Row.seg sd) with (Row.seg <$> sd).
      apply list_elem_of_fmap. exists r.
      split; [reflexivity|exact (list_elem_of_lookup_2 _ _ _ Hr)].
Qed.

(** ** Lake cells deactivated before or after the connections *)

Lemma setitem_same {A} (l : list A) (i : Z) (x : A) :
  0 <= i -> getitem l i = Ok x -> setitem l i x = Ok l.
Proof.
  intros Hi H. apply getitem_nonneg_Ok in H as [Hlt Hx]; [|exact Hi].
  unfold setitem. rewrite py_index_nonneg by lia.
  rewrite list_insert_id by exact Hx. reflexivity.
Qed.

Lemma setitem3_same {A} (a : list (list (list A))) (k i j : Z) (x : A) :
  0 <= k -> 0 <= i -> 0 <= j ->
  item3 a k i j = Ok x -> setitem3 a k i j x = Ok a.
Proof.
  intros Hk Hi Hj. unfold item3, setitem3.
  intros (p & Hp & (r & Hr & Hx)%rbind_Ok)%rbind_Ok.
  rewrite Hp. cbn [rbind]. rewrite Hr. cbn [rbind].
  rewrite (setitem_same r j x Hj Hx). cbn [rbind].
  rewrite (setitem_same p i r Hi Hr). cbn [rbind].
  exact (setitem_same a k p Hk Hp).
Qed.

(** X23. The deactivation of [build_mf6gwf] sets layer 0 of [idomain] to 0
    at the positions where [lakibd] is positive and changes nothing else;
    applied to its own result it changes nothing. *)
Theorem deactivate_lakes_layer0 (lakibd : array2) (idomain idomain' : array3) :
  deactivate_lakes lakibd idomain = Ok idomain' ->
  (forall i j v, 0 <= i -> 0 <= j ->
     getitem2 lakibd i j = Ok v -> 0 < v ->
     getitem3 idomain' 0 i j = Ok 0) /\
  (forall k i j, 0 <= k -> 0 <= i -> 0 <= j ->
     (k <> 0 \/ forall v, getitem2 lakibd i j = Ok v -> v <= 0) ->
     getitem3 idomain' k i j = getitem3 idomain k i j) /\
  deactivate_lakes lakibd idomain' = Ok idomain'.
Proof.
  intros H.
  assert (forall i j, (i, j) ∈ where_positive lakibd ->
            getitem3 idomain' 0 i j = Ok 0) as Hin.
  { intros i j Hc. pose proof Hc as (Hi & Hj & _)%elem_of_where_positive.
    rewrite (deactivate_lakes_item _ _ _ 0 i j H) by lia.
    rewrite bool_decide_eq_true_2 by exact Hc. reflexivity. }
  split; [|split].
  - intros i j v Hi Hj Hv Hpos. apply Hin, elem_of_where_positive. eauto.
  - intros k i j Hk Hi Hj Hout.
    rewrite (deactivate_lakes_item _ _ _ k i j H) by lia.
    destruct (Z.eqb_spec k 0) as [->|Hne]; cbn [andb]; [|reflexivity].
    rewrite bool_decide_eq_false_2; [reflexivity|].
    intros (_ & _ & v & Hv & Hpos)%elem_of_where_positive.
    destruct Hout as [Hk0|Hle]; [contradiction|]. specialize (Hle v Hv). lia.
  - unfold deactivate_lakes. apply foldM_fixed.
    intros [i j] Hc. pose proof Hc as (Hi & Hj & _)%elem_of_where_positive.
    apply setitem3_same; [lia|exact Hi|exact Hj|]. exact (Hin i j Hc).
Qed.

(** X21. The order of the two statements of [build_mf6gwf] matters.  Were
    the connections computed from the mask in which the lake cells are
    already deactivated, every lake cell whose left neighbor holds a positive
    lake number would get a horizontal record that targets that neighbor. *)
Theorem deactivated_mask_links_lake_cells (nrow ncol : Z)
    (delr delc lakebed_leakance : Q) (lakibd : array2)
    (idomain idomain' : array3) (recs : list lakecon) (nlakecon : list Z)
    (i j v u : Z) :
  deactivate_lakes lakibd idomain = Ok idomain' ->
  get_lake_connection_data nrow ncol delr delc lakebed_leakance lakibd idomain'
    = Ok (recs, nlakecon) ->
  0 <= i < nrow -> 0 < j < ncol ->
  getitem2 lakibd i j = Ok v -> v <> 0 ->
  getitem2 lakibd i (j - 1) = Ok u -> 0 < u ->
  exists r, r ∈ recs /\ lakeno r = v - 1 /\
            claktype r = "horizontal"%string /\ cellid r = (0, i, j - 1).
Proof.
  intros Hde (gs & Hrecs & Hgs)%scan_groups Hi Hj Hv Hne Hu Hpos.
  simpl in Hrecs. subst recs.
  assert ((i, j) ∈ lake_cells nrow ncol lakibd) as Hc.
  { apply elem_of_lake_cells. cbn [fst snd]. split; [lia|]. split; [lia|].
    unfold lake_cell. rewrite Hv. destruct (Z.eqb_spec v 0); [contradiction|reflexivity]. }
  apply list_elem_of_lookup in Hc as (n & Hn).
  destruct (Forall2_lookup_l _ _ _ _ _ Hgs Hn) as (g & Hg & Hgrp).
  destruct Hgrp as (v' & hs & vr & Hv' & _ & -> & Hh & _). cbn [fst snd] in *.
  rewrite Hv in Hv'. injection Hv' as <-.
  assert (left ∈ filter (fun f => face_emitted nrow ncol lakibd idomain' i j f = true)
                        faces) as Hl.
  { apply list_elem_of_filter. split; [|right; left].
    apply left_face_emitted. split; [lia|]. split; [exists u; split; [exact Hu|lia]|].
    rewrite (deactivate_lakes_item _ _ _ 0 i (j - 1) Hde) by lia.
    rewrite bool_decide_eq_true_2; [reflexivity|].
    apply elem_of_where_positive. split; [lia|]. split; [lia|]. eauto. }
  apply list_elem_of_lookup in Hl as (m & Hm).
  destruct (Forall2_lookup_l _ _ _ _ _ Hh Hm) as (r & Hr & Hrec).
  exists r. split.
  - apply list_elem_of_In, in_concat. exists (hs ++ [vr]).
    split; [apply list_elem_of_In, (list_elem_of_lookup_2 _ _ _ Hg)|].
    apply list_elem_of_In, elem_of_app. left.
    exact (list_elem_of_lookup_2 _ _ _ Hr).
  - destruct Hrec as (Hlake & Hcell & Hkind & _). auto.
Qed.


Lemma connections_reciprocal_witness :
  exists pd cd,
    get_stream_data wet_table = Ok (pd, cd) /\
    cd !! 31%nat = Some [31; 17; 30] /\
    cd !! 17%nat = Some [17; 16; -31] /\
    (17 ∈ [17; 30] <-> -31 ∈ [16; -31]).
Proof.
  destruct (get_stream_data_Ok wet_table wet_table_script)
    as (pd & cd & Hget & _).
  assert (cd !! 31%nat = Some [31; 17; 30]) as H31
    by (rewrite (connections_lookup wet_table pd cd 31 Hget ltac:(simpl; lia));
        vm_compute; reflexivity).
  assert (cd !! 17%nat = Some [17; 16; -31]) as H17
    by (rewrite (connections_lookup wet_table pd cd 17 Hget ltac:(simpl; lia));
        vm_compute; reflexivity).
  exists pd, cd. repeat (split; [assumption|]).
  exact (connections_reciprocal wet_table pd cd 31 17 _ _ Hget H31 H17
           ltac:(lia)).
Defined.

Lemma bound_names_observed_witness :
  script_table wet_table /\
  exists pd cd,
    get_stream_data wet_table = Ok (pd, cd) /\
    (forall rec, rec ∈ pd -> boundname rec ∈ ["SEG1"; "SEG2"; "SEG3"; "SEG4"]%string) /\
    (3 ∈ segs wet_table <-> exists rec, rec ∈ pd /\ boundname rec = "SEG3"%string).
Proof.
  split; [exact wet_table_script|].
  destruct (get_stream_data_Ok wet_table wet_table_script)
    as (pd & cd & Hget & _).
  exists pd, cd. split; [exact Hget|].
  destruct (bound_names_observed wet_table pd cd wet_table_script Hget)
    as (_ & Hall & Hiff).
  split; [exact Hall|exact (Hiff 3)].
Defined.

Lemma deactivate_lakes_layer0_witness :
  deactivate_lakes corner_lake corner_idomain = Ok corner_deactivated /\
  getitem3 corner_deactivated 0 1 0 = Ok 0 /\
  getitem3 corner_deactivated 1 1 0 = getitem3 corner_idomain 1 1 0 /\
  deactivate_lakes corner_lake corner_deactivated = Ok corner_deactivated.
Proof.
  assert (deactivate_lakes corner_lake corner_idomain = Ok corner_deactivated) as H
    by reflexivity.
  split; [exact H|].
  destruct (deactivate_lakes_layer0 corner_lake corner_idomain corner_deactivated H)
    as (Hin & Hout & Hidem).
  split; [exact (Hin 1 0 1 ltac:(lia) ltac:(lia) eq_refl ltac:(lia))|].
  split; [|exact Hidem].
  apply Hout; [lia|lia|lia|]. left. lia.
Defined.

Lemma deactivated_mask_links_lake_cells_witness :
  deactivate_lakes corner_lake corner_idomain = Ok corner_deactivated /\
  get_lake_connection_data 2 2 Params.delr Params.delc Params.lakebed_leakance
    corner_lake corner_deactivated = Ok (corner_relinked, [5; 0]) /\
  0 <= 1 < 2 /\ 0 < 1 < 2 /\
  getitem2 corner_lake 1 1 = Ok 1 /\ 1 <> 0 /\
  getitem2 corner_lake 1 (1 - 1) = Ok 1 /\ 0 < 1 /\
  exists r, r ∈ corner_relinked /\ lakeno r = 1 - 1 /\
            claktype r = "horizontal"%string /\ cellid r = (0, 1, 1 - 1).
Proof.
  assert (deactivate_lakes corner_lake corner_idomain = Ok corner_deactivated) as H1
    by reflexivity.
  assert (get_lake_connection_data 2 2 Params.delr Params.delc Params.lakebed_leakance
            corner_lake corner_deactivated = Ok (corner_relinked, [5; 0])) as H2
    by (vm_compute; reflexivity).
  assert (0 <= 1 < 2) as H3 by lia.
  assert (0 < 1 < 2) as H4 by lia.
  assert (getitem2 corner_lake 1 1 = Ok 1) as H5 by reflexivity.
  assert (1 <> 0) as H6 by lia.
  assert (getitem2 corner_lake 1 (1 - 1) = Ok 1) as H7 by reflexivity.
  assert (0 < 1) as H8 by lia.
  repeat (split; [assumption|]).
  exact (deactivated_mask_links_lake_cells 2 2 Params.delr Params.delc
           Params.lakebed_leakance corner_lake corner_idomain corner_deactivated
           corner_relinked [5; 0] 1 1 1 1 H1 H2 H3 H4 H5 H6 H7 H8).
Defined.


(** ** Lake connections: the values the function accepts *)

Lemma py_index_Some (n : nat) (i : Z) :
  - Z.of_nat n <= i < Z.of_nat n -> exists k, py_index n i = Some k /\ (k < n)%nat.
Proof.
  intros H. unfold py_index.
  destruct (Z.leb_spec 0 i), (Z.ltb_spec i (Z.of_nat n)); cbn [andb];
    try (eexists; split; [reflexivity|lia]); try lia.
  destruct (Z.leb_spec (- Z.of_nat n) i), (Z.ltb_spec i 0); cbn [andb];
    try (eexists; split; [reflexivity|lia]); lia.
Qed.

Lemma py_index_outside (n : nat) (i : Z) :
  i < - Z.of_nat n \/ Z.of_nat n <= i -> py_index n i = None.
Proof.
  intros H. unfold py_index.
  destruct (Z.leb_spec 0 i), (Z.ltb_spec i (Z.of_nat n)); cbn [andb]; try lia;
    destruct (Z.leb_spec (- Z.of_nat n) i), (Z.ltb_spec i 0); cbn [andb];
    try reflexivity; lia.
Qed.

Section LakeValues.
Variables (nrow ncol : Z) (delr delc lakebed_leakance : Q).
Variables (lakibd : array2) (idomain : array3) (p : array2).
Hypothesis lakibd_shape : shape2 nrow ncol lakibd.
Hypothesis idomain_layer : getitem idomain 0 = Ok p.
Hypothesis idomain_shape : shape2 nrow ncol p.

Lemma append_connection_slot ilak cell kind len wid (st : lakestate) :
  - Z.of_nat (length st.2) <= ilak < Z.of_nat (length st.2) ->
  exists st', append_connection lakebed_leakance ilak cell kind len wid st = Ok st' /\
              length st'.2 = length st.2.
Proof.
  destruct st as [recs cnt]. cbn [fst snd]. intros H. unfold append_connection.
  destruct (py_index_Some _ _ H) as (k & Hk & Hlt).
  destruct (lookup_lt_is_Some_2 cnt k Hlt) as [n Hn].
  unfold getitem, setitem. rewrite Hk, Hn. cbn [rbind].
  eexists. split; [reflexivity|]. cbn [fst snd]. apply length_insert.
Qed.

Lemma horizontal_slot guard test ilak cell len wid (st : lakestate) :
  (guard = true -> exists c, test = Ok c) ->
  - Z.of_nat (length st.2) <= ilak < Z.of_nat (length st.2) ->
  exists st', horizontal lakebed_leakance guard test ilak cell len wid st = Ok st' /\
              length st'.2 = length st.2.
Proof.
  intros Ht Hi. unfold horizontal. destruct guard; [|eauto].
  destruct (Ht eq_refl) as ([] & ->); cbn [rbind]; [|eauto].
  apply append_connection_slot, Hi.
Qed.

Lemma visit_slot i j (st : lakestate) :
  0 <= i < nrow -> 0 <= j < ncol ->
  (forall v, getitem2 lakibd i j = Ok v -> -1 <= v <= 2) ->
  length st.2 = 2%nat ->
  exists st', visit nrow ncol delr delc lakebed_leakance lakibd idomain i j st = Ok st' /\
              length st'.2 = 2%nat.
Proof.
  intros Hi Hj Hv Hlen. unfold visit.
  destruct (getitem2_shape _ _ _ _ _ lakibd_shape Hi Hj) as (v & Ev).
  rewrite Ev. cbn [rbind]. specialize (Hv v Ev).
  destruct (Z.eqb_spec v 0) as [_|Hne]; [eauto|].
  pose proof (face_test_total nrow ncol lakibd idomain p lakibd_shape
                idomain_layer idomain_shape) as Hface.
  destruct (horizontal_slot (i >? 0) (open_neighbor lakibd idomain (i - 1) j)
              (v - 1) (0, i - 1, j) (delc / 2) delr st) as (s1 & -> & H1);
    [apply (Hface back i j Hi Hj)|lia|]. cbn [rbind].
  destruct (horizontal_slot (j >? 0) (left_neighbor lakibd idomain i (j - 1))
              (v - 1) (0, i, j - 1) (delr / 2) delc s1) as (s2 & -> & H2);
    [apply (Hface left i j Hi Hj)|lia|]. cbn [rbind].
  destruct (horizontal_slot (j <? ncol - 1) (open_neighbor lakibd idomain i (j + 1))
              (v - 1) (0, i, j + 1) (delr / 2) delc s2) as (s3 & -> & H3);
    [apply (Hface right i j Hi Hj)|lia|]. cbn [rbind].
  destruct (horizontal_slot (i <? nrow - 1) (open_neighbor lakibd idomain (i + 1) j)
              (v - 1) (0, i + 1, j) (delc / 2) delr s3) as (s4 & -> & H4);
    [apply (Hface front i j Hi Hj)|lia|]. cbn [rbind].
  destruct (append_connection_slot (v - 1) (1, i, j) "vertical" 0 0 s4)
    as (s5 & -> & H5); [lia|].
  exists s5. split; [reflexivity|lia].
Qed.

(** A lake cell whose value has no slot in the counter makes its visit
    raise. *)
Lemma visit_no_slot i j v (st : lakestate) :
  getitem2 lakibd i j = Ok v -> v <> 0 ->
  py_index (length st.2) (v - 1) = None ->
  visit nrow ncol delr delc lakebed_leakance lakibd idomain i j st = Raise IndexError.
Proof.
  intros Hv Hne Hnone.
  destruct (visit nrow ncol delr delc lakebed_leakance lakibd idomain i j st)
    as [st'|e] eqn:E.
  - exfalso. apply visit_Ok in E as (v' & Hv' & H).
    assert (v' = v) as -> by congruence.
    destruct H as [[-> _]|(_ & hs & vr & He & _ & Hvr)]; [contradiction|].
    apply emits_list_snoc_inv in He as (st1 & Hl%emits_list_length & k & n & Hk & _).
    destruct Hvr as (Hno & _). rewrite Hno, Hl, Hnone in Hk. discriminate.
  - f_equal. eapply visit_raise, E.
Qed.

(** X7. On grids of the declared shape the function returns exactly when
    every value of [lakibd] is -1, 0, 1 or 2: the lake index [value - 1]
    addresses the two-element counter, which Python also indexes with -1 and
    -2, so a value of -1 is accepted and any value below -1 or above 2 raises
    [IndexError]. *)
Theorem lake_values_accepted :
  (exists st,
     get_lake_connection_data nrow ncol delr delc lakebed_leakance lakibd idomain
       = Ok st) <->
  Forall (Forall (fun v => -1 <= v <= 2)) lakibd.
Proof.
  set (P := fun s : lakestate => length s.2 = 2%nat).
  split.
  - intros [st Hst]. apply Forall_forall. intros r Hr. apply Forall_forall. intros v Hv.
    destruct (decide (-1 <= v <= 2)) as [|Hbad]; [assumption|exfalso].
    apply list_elem_of_lookup in Hr as (i & Hr).
    apply list_elem_of_lookup in Hv as (j & Hv).
    destruct lakibd_shape as [Hn Hm].
    pose proof (lookup_lt_Some _ _ _ Hr) as Li.
    pose proof (lookup_lt_Some _ _ _ Hv) as Lj.
    rewrite Forall_forall in Hm.
    specialize (Hm r (list_elem_of_lookup_2 _ _ _ Hr)).
    assert (getitem2 lakibd (Z.of_nat i) (Z.of_nat j) = Ok v) as Hget.
    { unfold getitem2. rewrite (getitem_nat _ _ _ Hr). cbn [rbind].
      exact (getitem_nat _ _ _ Hv). }
    enough (get_lake_connection_data nrow ncol delr delc lakebed_leakance
              lakibd idomain = Raise IndexError) as E by congruence.
    unfold get_lake_connection_data.
    assert (forall y, forall s s', P s ->
              foldM (fun j => visit nrow ncol delr delc lakebed_leakance lakibd idomain y j)
                    (range ncol) s = Ok s' -> P s') as Hrow.
    { intros y s s' Hs. apply (foldM_invariant P); [|exact Hs].
      intros x t t' _ Ht Hx. unfold P in *. rewrite <- Ht. eapply visit_length, Hx. }
    apply (foldM_raises P IndexError _ _ (Z.of_nat i));
      [apply elem_of_range; lia|exact Hrow| | |reflexivity].
    + intros y s e'. apply foldM_raise_kind. intros x t e''. apply visit_raise.
    + intros s Hs.
      apply (foldM_raises P IndexError _ _ (Z.of_nat j));
        [apply elem_of_range; lia| | | |exact Hs].
      * intros x t t' Ht Hx. unfold P in *. rewrite <- Ht. eapply visit_length, Hx.
      * intros x t e'. apply visit_raise.
      * intros t Ht. apply (visit_no_slot _ _ v); [exact Hget|lia|].
        unfold P in Ht. rewrite Ht. apply py_index_outside. simpl. lia.
  - intros Hval. unfold get_lake_connection_data.
    destruct (foldM_total P
                (fun i => foldM (fun j => visit nrow ncol delr delc lakebed_leakance
                                                lakibd idomain i j) (range ncol))
                (range nrow)) with (s := ([] : list lakecon, [0; 0]))
      as (st & Hst & _); [|reflexivity|eauto].
    intros i s Hi%elem_of_range Hs.
    apply (foldM_total P); [|exact Hs].
    intros j t Hj%elem_of_range Ht.
    apply visit_slot; try assumption.
    intros v (r & Hr & Hv)%getitem2_elem.
    rewrite Forall_forall in Hval. specialize (Hval r Hr).
    rewrite Forall_forall in Hval. apply Hval, Hv.
Qed.

End LakeValues.


Lemma lake_values_accepted_witness :
  shape2 2 2 negative_lake /\
  getitem corner_idomain 0 = Ok [[1; 1]; [1; 1]] /\
  shape2 2 2 [[1; 1]; [1; 1]] /\
  Forall (Forall (fun v => -1 <= v <= 2)) negative_lake /\
  exists st,
    get_lake_connection_data 2 2 Params.delr Params.delc Params.lakebed_leakance
      negative_lake corner_idomain = Ok st.
Proof.
  assert (shape2 2 2 negative_lake) as H1 by (split; repeat constructor).
  assert (getitem corner_idomain 0 = Ok [[1; 1]; [1; 1]]) as H2 by reflexivity.
  assert (shape2 2 2 [[1; 1]; [1; 1]]) as H3 by (split; repeat constructor).
  assert (Forall (Forall (fun v => -1 <= v <= 2)) negative_lake) as H4
    by (repeat constructor; lia).
  repeat (split; [assumption|]).
  exact (proj2 (lake_values_accepted 2 2 Params.delr Params.delc
                  Params.lakebed_leakance negative_lake corner_idomain _
                  H1 H2 H3) H4).
Defined.


(** ** Streams: segment ids that wrap around *)

(** X24. A row whose segment id is between -3 and 0 is not rejected:
    Python's negative indexing of the four-element lists makes its record
    take the slope and the elevations of segment [seg + 4], while its bound
    name is made from its own id. *)
Theorem wrapped_segment_ids (sd : list Row.t) (pd : list reach)
    (cd : list (list Z)) (k : nat) (r : Row.t) :
  get_stream_data sd = Ok (pd, cd) ->
  sd !! k = Some r ->
  -3 <= Row.seg r <= 0 ->
  exists rec,
    pd !! k = Some rec /\
    let emax := (segment_bounds (Row.seg r + 3)).1 in
    let emin := (segment_bounds (Row.seg r + 3)).2 in
    let l := segment_length sd (Row.seg r + 4) in
    rgrd rec = fdiv (Finite (emax - emin)) (Finite l) /\
    rtp rec = fsub (Finite emax)
                   (fmul (fdiv (Finite (dist sd k)) (Finite l))
                         (Finite (emax - emin))) /\
    boundname rec = format_SEG (Row.seg r).
Proof.
  intros Hget Hr Hseg.
  destruct (record_at _ _ _ _ _ Hget Hr)
    as (rec & Hp & k' & c & g & b & l & Hk & _ & Hg & Hb & Hl & ->).
  cbn [fst snd] in *. apply Nat2Z.inj in Hk. subst k'.
  eexists. split; [exact Hp|]. cbn [rgrd rtp boundname].
  assert (Row.seg r = -3 \/ Row.seg r = -2 \/ Row.seg r = -1 \/ Row.seg r = 0)
    as Hcase by lia.
  assert (getitem emaxmin (Row.seg r - 1) = Ok (segment_bounds (Row.seg r + 3))) as Hb'
    by (destruct Hcase as [E | [E | [E | E]]]; rewrite E; reflexivity).
  assert (getitem (segment_lengths sd) (Row.seg r - 1)
          = Ok (segment_length sd (Row.seg r + 4))) as Hl'
    by (destruct Hcase as [E | [E | [E | E]]]; rewrite E; reflexivity).
  assert (getitem (segment_gradients sd) (Row.seg r - 1)
          = Ok (fdiv (Finite ((segment_bounds (Row.seg r + 3)).1
                              - (segment_bounds (Row.seg r + 3)).2))
                     (Finite (segment_length sd (Row.seg r + 4))))) as Hg'
    by (destruct Hcase as [E | [E | [E | E]]]; rewrite E; reflexivity).
  rewrite Hb' in Hb. rewrite Hl' in Hl. rewrite Hg' in Hg.
  injection Hb as <-. injection Hl as <-. injection Hg as <-.
  split; [reflexivity|]. split; [reflexivity|]. f_equal. lia.
Qed.

Lemma wrapped_segment_ids_witness :
  exists pd cd,
    get_stream_data wrapped_table = Ok (pd, cd) /\
    -3 <= 0 <= 0 /\
    exists rec,
      pd !! 31%nat = Some rec /\
      rgrd rec = fdiv (Finite (34.0 - 27.2)) (Finite (segment_length wrapped_table 4)) /\
      boundname rec = "SEG0"%string.
Proof.
  assert (accepted wrapped_table) as Hacc.
  { split; [simpl; lia|]. split; [simpl; lia|]. repeat constructor; simpl; lia. }
  destruct (proj2 (proj2 (proj2 (proj2 (get_stream_data_cases wrapped_table)))) Hacc)
    as (pd & cd & Hget & _).
  assert (-3 <= 0 <= 0) as H by lia.
  exists pd, cd. split; [exact Hget|]. split; [exact H|].
  destruct (wrapped_segment_ids wrapped_table pd cd 31 (Row.mk 0 1 1 1 30)
              Hget eq_refl H) as (rec & Hp & Hg & _ & Hn).
  exists rec. split; [exact Hp|]. split; [exact Hg|exact Hn].
Defined.


(** ** The stream function in float64 arithmetic: the channel top *)

Section Float64Facts.
Import PrimFloat.
#[local] Set Warnings "-inexact-float".










End Float64Facts.
